(** * 1brc-go: per-key min/avg/max aggregation over a measurements file

    A shallow embedding of [main.go].  Go strings and byte slices are lists
    of 8-bit characters, [int64] values are integers wrapped into the
    signed 64-bit range, [float64] values are IEEE 754 binary64 numbers, Go
    maps are finite maps, a runtime panic (index out of range) is the [None]
    of the option monad, and the choices of the goroutine scheduler are an
    explicit [Schedule].  The file is a byte list that does not change
    during a run; of the I/O failures only that of [Stat] is modelled, the
    reads fail exactly where [ReadAt] has to (negative offset, end of
    file).  The constant [chunkSize] is a parameter [csize] of the
    concurrent functions, so that it can be varied. *)

From Stdlib Require Import ZArith Ascii String List Lia Bool.
From Stdlib Require Import Floats.SpecFloat Numbers.DecimalString.
From stdpp Require Import base tactics option list sorting gmap strings numbers.

Local Open Scope Z_scope.

(** ** Bytes and strings *)

Abbreviation bytes := (list ascii).

Definition str (s : string) : bytes := list_ascii_of_string s.

Definition byteZ (c : ascii) : Z := Z.of_N (N_of_ascii c).

(** [s[i]] on a Go string: a panic when [i] is out of range. *)
Definition index (s : bytes) (i : Z) : option ascii :=
  if i <? 0 then None else s !! Z.to_nat i.

Definition len (s : bytes) : Z := Z.of_nat (length s).

(** ** int64 arithmetic *)

Definition wrap64 (z : Z) : Z := (z + 2 ^ 63) mod 2 ^ 64 - 2 ^ 63.

Definition add64 (a b : Z) : Z := wrap64 (a + b).
Definition sub64 (a b : Z) : Z := wrap64 (a - b).
Definition mul64 (a b : Z) : Z := wrap64 (a * b).
Definition neg64 (a : Z) : Z := wrap64 (- a).

Definition in_int64 (z : Z) : Prop := - 2 ^ 63 <= z < 2 ^ 63.

(** ** The program's constants and data *)

Definition chunkSize : Z := 1024 * 80.

Record Location := mkLocation {
  Min : Z;
  Max : Z;
  Total : Z;
  Count : Z
}.

Global Instance Location_eq_dec : EqDecision Location.
Proof. solve_decision. Defined.

(** ** parseNumber *)

(** [None] is the panic of an index out of range.  The constants ['0'*(11)]
    and ['0'*(111)] are 48 * 11 and 48 * 111. *)
Definition parseNumber (temperature : bytes) : option Z :=
  c0 ← index temperature 0;
  let negative := bool_decide (c0 = "-"%char) in
  let temperature := if negative then drop 1 temperature else temperature in
  c1 ← index temperature 1;
  val ← (if bool_decide (c1 = "."%char) then
           t2 ← index temperature 2;
           t0 ← index temperature 0;
           Some (sub64 (add64 (byteZ t2) (mul64 (byteZ t0) 10)) (48 * 11))
         else
           t3 ← index temperature 3;
           t1 ← index temperature 1;
           t0 ← index temperature 0;
           Some (sub64 (add64 (add64 (byteZ t3) (mul64 (byteZ t1) 10))
                              (mul64 (byteZ t0) 100)) (48 * 111)));
  Some (if negative then neg64 val else val).

(** The decimal strings of the input format, [-?\d{1,2}\.\d], as a test on
    raw bytes, and the number of tenths such a string denotes. *)

Definition is_digit (c : ascii) : bool :=
  (48 <=? byteZ c) && (byteZ c <=? 57).

Definition is_temp (v : bytes) : bool :=
  let u := match v with
           | c :: u => if bool_decide (c = "-"%char) then u else v
           | [] => v
           end in
  match u with
  | [a; p; c] => is_digit a && bool_decide (p = "."%char) && is_digit c
  | [a; b; p; c] =>
      is_digit a && is_digit b && bool_decide (p = "."%char) && is_digit c
  | _ => false
  end.

(** What a decimal string denotes, read the usual way: the digits before and
    after the point form one number of tenths, negated behind a minus sign. *)
Definition digits_value (ds : bytes) : Z :=
  fold_left (fun acc c => 10 * acc + (byteZ c - 48)) ds 0.

Definition denoted_tenths (v : bytes) : Z :=
  let unsigned u := digits_value (filter (fun c => c ≠ "."%char) u) in
  match v with
  | c :: u => if bool_decide (c = "-"%char) then - unsigned u else unsigned v
  | [] => 0
  end.

(** ** The pieces of the Go standard library the program calls *)

(** [strings.Index(s, sep)] for a one-byte separator: the offset of its first
    occurrence, or -1. *)
Fixpoint strings_Index (s : bytes) (sep : ascii) : Z :=
  match s with
  | [] => -1
  | c :: r =>
      if bool_decide (c = sep) then 0
      else let i := strings_Index r sep in
           if i <? 0 then -1 else i + 1
  end.

(** [strings.Split(s, sep)] for a one-byte separator; never empty. *)
Fixpoint strings_Split (s : bytes) (sep : ascii) : list bytes :=
  match s with
  | [] => [[]]
  | c :: r =>
      if bool_decide (c = sep) then [] :: strings_Split r sep
      else match strings_Split r sep with
           | l :: ls => (c :: l) :: ls
           | [] => [[c]]
           end
  end.

(** [strings.Trim(s, cutset)]: [s] itself when the cut set is empty. *)
Definition in_cutset (cutset : bytes) (c : ascii) : bool :=
  bool_decide (c ∈ cutset).

Fixpoint trim_left (cutset s : bytes) : bytes :=
  match s with
  | c :: r => if in_cutset cutset c then trim_left cutset r else s
  | [] => []
  end.

Definition strings_Trim (s cutset : bytes) : bytes :=
  reverse (trim_left cutset (reverse (trim_left cutset s))).

(** Slices [s[:i]] and [s[i:]]; every use below is within bounds. *)
Definition slice_to (s : bytes) (i : Z) : bytes := take (Z.to_nat i) s.
Definition slice_from (s : bytes) (i : Z) : bytes := drop (Z.to_nat i) s.

Definition nl : ascii := "010"%char.
Definition cr : ascii := "013"%char.
Definition semi : ascii := ";"%char.

(** ** The chunk worker *)

(** The completeness test of [processLine] on the value substring. *)
Definition incomplete (val : bytes) : bool :=
  (len val <? 3) || negb (bool_decide (index val (len val - 2) = Some "."%char)).

(** [processLine]: a panic, or the name and the location; the [nil]
    location of a skipped line is [None]. *)
Definition processLine (line : bytes) : option (bytes * option Location) :=
  if bool_decide (strings_Trim line [] = []) then Some ([], None)
  else
    let splitIndex := strings_Index line semi in
    if splitIndex =? -1 then Some ([], None)
    else
      let locationName := slice_to line splitIndex in
      let val := slice_from line (splitIndex + 1) in
      if incomplete val then Some ([], None)
      else
        temperature ← parseNumber val;
        Some (locationName,
              Some (mkLocation temperature temperature temperature 1)).

(** One pass of the loop body of [processChunk]. *)
Definition chunk_step (locationMap : gmap bytes Location) (line : bytes)
  : option (gmap bytes Location) :=
  '(locationName, location) ← processLine line;
  match location with
  | None => Some locationMap
  | Some location =>
      match locationMap !! locationName with
      | None => Some (<[locationName := location]> locationMap)
      | Some loc =>
          let count := add64 (Count loc) 1 in
          let total := add64 (Total loc) (Total location) in
          let max := if Max loc <? Max location then Max location else Max loc in
          let min := if Min loc >? Min location then Min location else Min loc in
          Some (<[locationName := mkLocation min max total count]> locationMap)
      end
  end.

Fixpoint chunk_loop (lines : list bytes) (locationMap : gmap bytes Location)
  : option (gmap bytes Location) :=
  match lines with
  | [] => Some locationMap
  | line :: rest => locationMap ← chunk_step locationMap line; chunk_loop rest locationMap
  end.

Definition processChunk (input : bytes) : option (gmap bytes Location) :=
  chunk_loop (strings_Split input nl) ∅.

(** ** The sequential aggregator *)

Inductive error :=
  | ErrTooLong
  | ErrOpen
  | ErrStat
  | ErrCancelled
  | ErrEOF
  | ErrNegativeOffset
  | ErrNotInMap (location : bytes).

(** [bufio.MaxScanTokenSize]: a line has to fit, with its newline, into a
    buffer of this size, so lines of this length or more end the scan with
    [bufio.ErrTooLong]. *)
Definition MaxScanTokenSize : Z := 64 * 1024.

(** [bufio.ScanLines] strips one trailing carriage return. *)
Definition dropCR (l : bytes) : bytes :=
  match reverse l with
  | c :: r => if bool_decide (c = cr) then reverse r else l
  | [] => l
  end.

(** The lines of a text: the pieces between newlines, without the empty piece
    after a final newline. *)
Definition text_lines (data : bytes) : list bytes :=
  let pieces := strings_Split data nl in
  match reverse pieces with
  | [] :: r => reverse r
  | _ => pieces
  end.

(** A [bufio.Scanner] with the default buffer and [ScanLines]: the tokens it
    yields, and the error it stops with when a line does not fit the buffer. *)
Fixpoint scan_tokens (lines : list bytes) : list bytes * option error :=
  match lines with
  | [] => ([], None)
  | l :: rest =>
      if MaxScanTokenSize <=? len l then ([], Some ErrTooLong)
      else let '(ts, e) := scan_tokens rest in (dropCR l :: ts, e)
  end.

Definition scanner (data : bytes) : list bytes * option error :=
  scan_tokens (text_lines data).

(** One pass of the loop body of [parseFile]. *)
Definition file_step (st : list bytes * gmap bytes Location) (line : bytes)
  : option (list bytes * gmap bytes Location) :=
  let '(locations, locationMap) := st in
  let splitIndex := strings_Index line semi in
  if splitIndex =? -1 then Some st
  else
    let locationName := slice_to line splitIndex in
    temperature ← parseNumber (slice_from line (splitIndex + 1));
    match locationMap !! locationName with
    | None =>
        Some (locations ++ [locationName],
              <[locationName := mkLocation temperature temperature temperature 1]>
                locationMap)
    | Some loc =>
        let count := add64 (Count loc) 1 in
        let total := add64 (Total loc) temperature in
        let max := if Max loc <? temperature then temperature else Max loc in
        let min := if Min loc >? temperature then temperature else Min loc in
        Some (locations, <[locationName := mkLocation min max total count]> locationMap)
    end.

Fixpoint file_loop (lines : list bytes) (st : list bytes * gmap bytes Location)
  : option (list bytes * gmap bytes Location) :=
  match lines with
  | [] => Some st
  | line :: rest => st ← file_step st line; file_loop rest st
  end.

(** [parseFile]: [None] is a panic; otherwise the keys, the map and the
    scanner's error (with which the two results are discarded). *)
Definition parseFile (data : bytes)
  : option (list bytes * gmap bytes Location * option error) :=
  let '(tokens, err) := scanner data in
  '(locations, locationMap) ← file_loop tokens ([], ∅);
  match err with
  | Some e => Some ([], ∅, Some e)
  | None => Some (locations, locationMap, None)
  end.

(** ** The result formatter *)

(** [float64] is IEEE 754 binary64; conversion from [int64] and division
    round to nearest, ties to even. *)
Definition float64 := spec_float.
Definition float64_of_int (z : Z) : float64 := binary_normalize 53 1024 z 0 false.
Definition float64_div (x y : float64) : float64 := SFdiv 53 1024 x y.

(** [math.Round]: the nearest integer, halves away from zero; zeros,
    infinities and NaN are returned as they are, and a result of zero keeps
    the sign of the argument. *)
Definition math_Round (x : float64) : float64 :=
  match x with
  | S754_finite s m e =>
      if 0 <=? e then x
      else
        let den := 2 ^ (- e) in
        let q := Z.pos m / den in
        let r := Z.pos m mod den in
        let n := if den <=? 2 * r then q + 1 else q in
        if n =? 0 then S754_zero s
        else binary_normalize 53 1024 (if s then - n else n) 0 false
  | _ => x
  end.

(** The decimal digits of a natural number. *)
Definition decimal (n : Z) : bytes :=
  str (NilZero.string_of_uint (N.to_uint (Z.to_N n))).

(** [strconv.FormatFloat(x, 'f', 1, 64)]: the exact value of [x] rounded to
    one fractional digit, ties to even, behind the sign of [x]. *)
Definition FormatFloat (x : float64) : bytes :=
  let render (s : bool) (t : Z) :=
    (if s then ["-"%char] else []) ++ decimal (t / 10) ++ ["."%char] ++ decimal (t mod 10) in
  match x with
  | S754_zero s => render s 0
  | S754_infinity s => str (if s then "-Inf" else "+Inf")
  | S754_nan => str "NaN"
  | S754_finite s m e =>
      if 0 <=? e then render s (10 * Z.pos m * 2 ^ e)
      else
        let den := 2 ^ (- e) in
        let q := (10 * Z.pos m) / den in
        let r := (10 * Z.pos m) mod den in
        render s (if 2 * r <? den then q
                  else if den <? 2 * r then q + 1
                  else if Z.even q then q else q + 1)
  end.

(** [sort.Strings]: ascending in the byte-wise order of Go's [<] on strings. *)
Fixpoint bytes_leb (a b : bytes) : bool :=
  match a, b with
  | [], _ => true
  | _ :: _, [] => false
  | x :: a, y :: b =>
      if byteZ x <? byteZ y then true
      else if byteZ y <? byteZ x then false
      else bytes_leb a b
  end.

Definition bytes_le (a b : bytes) : Prop := bytes_leb a b = true.
Definition bytes_lt (a b : bytes) : Prop := bytes_leb b a = false.

Global Instance bytes_le_dec : RelDecision bytes_le.
Proof. intros a b. unfold bytes_le. apply _. Defined.

Definition sort_Strings (l : list bytes) : list bytes := merge_sort bytes_le l.

(** What one pass of the loop of [createResult] writes after the separator. *)
Definition render_entry (key : bytes) (details : Location) : bytes :=
  key ++ ["="%char]
  ++ FormatFloat (float64_div (float64_of_int (Min details)) (float64_of_int 10))
  ++ ["/"%char]
  ++ (let average := math_Round (float64_div (float64_of_int (Total details))
                                             (float64_of_int (Count details))) in
      FormatFloat (float64_div average (float64_of_int 10)))
  ++ ["/"%char]
  ++ FormatFloat (float64_div (float64_of_int (Max details)) (float64_of_int 10)).

Fixpoint result_loop (i : nat) (locations : list bytes)
    (locationMap : gmap bytes Location) (buffer : bytes) : bytes * option error :=
  match locations with
  | [] => (buffer ++ ["}"%char], None)
  | location :: rest =>
      match locationMap !! location with
      | None => ([], Some (ErrNotInMap location))
      | Some details =>
          let buffer := if (0 <? i)%nat then buffer ++ [","%char; " "%char] else buffer in
          result_loop (S i) rest locationMap (buffer ++ render_entry location details)
      end
  end.

Definition createResult (locations : list bytes) (locationMap : gmap bytes Location)
  : bytes * option error :=
  result_loop 0 (sort_Strings locations) locationMap ["{"%char].

(** ** Files *)

(** An open file: its bytes, and whether [Stat] fails on it. *)
Record File := mkFile {
  contents : bytes;
  stat_fails : bool
}.

Definition Stat (file : File) : option Z :=
  if stat_fails file then None else Some (len (contents file)).

(** [file.ReadAt(b, off)] with [len(b) = n]: the bytes read and the error. *)
Definition ReadAt (file : File) (n off : Z) : bytes * option error :=
  if off <? 0 then ([], Some ErrNegativeOffset)
  else
    let b := take (Z.to_nat n) (drop (Z.to_nat off) (contents file)) in
    (b, if len b <? n then Some ErrEOF else None).

(** ** The chunk orchestrator *)

(** The loop of [findNextLineBoundary], for a given number of passes. *)
Fixpoint boundary_loop (steps : nat) (file : File) (start : Z) : Z :=
  match steps with
  | O => start
  | S steps =>
      let '(buffer, err) := ReadAt file 1 start in
      if bool_decide (err ≠ None) || bool_decide (buffer !! 0%nat = Some nl)
      then start
      else boundary_loop steps file (start - 1)
  end.

(** The backward scan ends at offset -1 at the latest, where the read fails. *)
Definition findNextLineBoundary (file : File) (start : Z) : Z :=
  boundary_loop (Z.to_nat (start + 2)) file start.

(** The dispatch loop of [lineOrchestrator]: the [(start, end)] pairs handed
    to the workers, or [None] when the fuel runs out first. *)
Fixpoint dispatch_loop (fuel : nat) (csize : Z) (file : File) (fileSize start : Z)
  : option (list (Z * Z)) :=
  match fuel with
  | O => None
  | S fuel =>
      if start <? fileSize then
        let end_ := add64 start csize in
        let end_ := if end_ >? fileSize then fileSize else end_ in
        chunks ← dispatch_loop fuel csize file fileSize (findNextLineBoundary file end_);
        Some ((start, end_) :: chunks)
      else Some []
  end.

(** One worker goroutine: a panic ([make] with a negative length, or a
    panic of [processChunk]), nothing sent (the read failed), or one map
    sent. *)
Definition worker (file : File) (range : Z * Z) : option (option (gmap bytes Location)) :=
  let '(start, end_) := range in
  if end_ - start <? 0 then None
  else
    let '(chunk, err) := ReadAt file (end_ - start) start in
    match err with
    | Some _ => Some None
    | None => m ← processChunk chunk; Some (Some m)
    end.

(** How a call ends: it returns, the process panics, or the fuel of the
    dispatch loop runs out. *)
Inductive outcome (A : Type) :=
  | Returns (a : A)
  | Panics
  | OutOfFuel.
Arguments Returns {A} a.
Arguments Panics {A}.
Arguments OutOfFuel {A}.

(** [lineOrchestrator]: its error and the maps sent on the channel, in
    dispatch order.  A panic in any worker ends the process. *)
Definition lineOrchestrator (fuel : nat) (csize : Z) (file : File)
  : outcome (option error * list (gmap bytes Location)) :=
  match Stat file with
  | None => Returns (Some ErrStat, [])
  | Some fileSize =>
      match dispatch_loop fuel csize file fileSize 0 with
      | None => OutOfFuel
      | Some chunks =>
          match mapM (worker file) chunks with
          | None => Panics
          | Some sent => Returns (None, omap id sent)
          end
      end
  end.

(** ** The merge consumer *)

(** The scheduler's choices: the order in which worker results reach the
    channel, the order in which Go iterates each received map, and the loop
    turn in which [select] takes [ctx.Done()] when the context is cancelled. *)
Record Schedule := mkSchedule {
  arrival : list nat;
  iteration : list (list nat);
  cancel_turn : nat
}.

(** A context: whether it is cancelled during the run. *)
Record Context := mkContext { cancelled : bool }.
Definition Background : Context := mkContext false.

(** The list [l] in the order the picks select its elements. *)
Fixpoint shuffle {A} (picks : list nat) (l : list A) : list A :=
  match picks with
  | [] => l
  | p :: picks =>
      let i := (p mod length l)%nat in
      match l !! i with
      | Some x => x :: shuffle picks (delete i l)
      | None => l
      end
  end.

(** What the consumer stores for a key it already holds. *)
Definition merge_loc (loc location : Location) : Location :=
  let count := add64 (Count loc) (Count location) in
  let total := add64 (Total loc) (Total location) in
  let max := if Max loc <? Max location then Max location else Max loc in
  let min := if Min loc >? Min location then Min location else Min loc in
  mkLocation min max total count.

(** One pass of [for key, location := range miniLocationMap]. *)
Definition merge_entry (st : list bytes * gmap bytes Location) (kv : bytes * Location)
  : list bytes * gmap bytes Location :=
  let '(locations, locationMap) := st in
  let '(key, location) := kv in
  match locationMap !! key with
  | None => (locations ++ [key], <[key := location]> locationMap)
  | Some loc => (locations, <[key := merge_loc loc location]> locationMap)
  end.

(** The body of [case miniLocationMap := <-results]. *)
Definition merge_received (picks : list nat) (st : list bytes * gmap bytes Location)
    (miniLocationMap : gmap bytes Location) : list bytes * gmap bytes Location :=
  fold_left merge_entry (shuffle picks (map_to_list miniLocationMap)) st.

(** The [for { select { ... } }] loop over the maps still to arrive.  The
    completion signal is sent after [wg.Wait()], that is after every worker
    has handed over its map on the unbuffered channel, so [done] is taken
    when nothing is pending. *)
Fixpoint select_loop (ctx : Context) (sched : Schedule) (turn : nat)
    (pending : list (gmap bytes Location)) (st : list bytes * gmap bytes Location)
  : list bytes * gmap bytes Location * option error :=
  if cancelled ctx && (turn =? cancel_turn sched)%nat then (st, Some ErrCancelled)
  else
    match pending with
    | [] => (st, None)
    | m :: pending =>
        select_loop ctx sched (S turn) pending
          (merge_received (default [] (iteration sched !! turn)) st m)
    end.

Definition parseFileWithConcurrency (fuel : nat) (csize : Z) (ctx : Context)
    (sched : Schedule) (file : File)
  : outcome (list bytes * gmap bytes Location * option error) :=
  match lineOrchestrator fuel csize file with
  | Returns (_, sent) => Returns (select_loop ctx sched 0 (shuffle (arrival sched) sent) ([], ∅))
  | Panics => Panics
  | OutOfFuel => OutOfFuel
  end.

(** ** run *)

(** [opened] is the result of [os.Open(filePath)], [None] when it fails. *)
Definition run (fuel : nat) (csize : Z) (ctx : Context) (sched : Schedule)
    (opened : option File) (concurrency : bool) : outcome (bytes * option error) :=
  match opened with
  | None => Returns ([], Some ErrOpen)
  | Some f =>
      if concurrency then
        match parseFileWithConcurrency fuel csize ctx sched f with
        | Returns (locations, locationMap, Some err) => Returns ([], Some err)
        | Returns (locations, locationMap, None) => Returns (createResult locations locationMap)
        | Panics => Panics
        | OutOfFuel => OutOfFuel
        end
      else
        match parseFile (contents f) with
        | None => Panics
        | Some (locations, locationMap, Some err) => Returns ([], Some err)
        | Some (locations, locationMap, None) => Returns (createResult locations locationMap)
        end
  end.

(** * The vocabulary of the properties *)

(** ** Merging *)

(** The merge of two maps: keys of one side are copied, common keys are
    combined with [merge_loc]. *)
Definition merge_maps (m1 m2 : gmap bytes Location) : gmap bytes Location :=
  union_with (fun a b => Some (merge_loc a b)) m1 m2.

(** The global mapping the consumer holds when the completion signal
    arrives, for the maps [received] in that order. *)
Definition consumed (sched : Schedule) (received : list (gmap bytes Location))
  : gmap bytes Location :=
  (select_loop Background sched 0 received ([], ∅)).1.2.

(** ** The formatted text *)

(** The key list and the map of either aggregation path go together: no key
    is listed twice, and the listed keys are the keys of the map. *)
Definition keys_match (st : list bytes * gmap bytes Location) : Prop :=
  NoDup st.1 /\ forall k, k ∈ st.1 <-> is_Some (st.2 !! k).

(** The strings of [l] with [sep] between them. *)
Fixpoint join_with (sep : bytes) (l : list bytes) : bytes :=
  match l with
  | [] => []
  | [x] => x
  | x :: r => x ++ sep ++ join_with sep r
  end.

(** The text [createResult] writes for the keys [ks], in that order. *)
Definition result_text (m : gmap bytes Location) (ks : list bytes) : bytes :=
  str "{"
  ++ join_with (str ", ") (omap (fun k => render_entry k <$> m !! k) ks)
  ++ str "}".

(** The formatter succeeds and writes one entry per key, the keys in
    strictly ascending byte-wise order. *)
Definition ascending_output (locations : list bytes) (m : gmap bytes Location) : Prop :=
  createResult locations m = (result_text m (sort_Strings locations), None) /\
  Forall (fun k => is_Some (m !! k)) (sort_Strings locations) /\
  sort_Strings locations ≡ₚ locations /\
  StronglySorted bytes_lt (sort_Strings locations).

(** A number of tenths written with one decimal place, behind a minus sign
    when [neg]. *)
Definition tenths_text (neg : bool) (n : Z) : bytes :=
  (if neg then ["-"%char] else []) ++ decimal (n / 10) ++ ["."%char] ++ decimal (n mod 10).

(** The integer [n] of tenths as the decimal number [n / 10]. *)
Definition render_tenths (n : Z) : bytes := tenths_text (n <? 0) (Z.abs n).

(** [total / count] rounded to the nearest integer, halves away from zero. *)
Definition round_half_away (total count : Z) : Z :=
  Z.sgn total * ((2 * Z.abs total + count) / (2 * count)).

(** The entry as the specification words it: minimum, rounded average and
    maximum, each as a number with one decimal place. *)
Definition claimed_entry (key : bytes) (details : Location) : bytes :=
  key ++ ["="%char] ++ render_tenths (Min details) ++ ["/"%char]
  ++ render_tenths (round_half_away (Total details) (Count details)) ++ ["/"%char]
  ++ render_tenths (Max details).

(** The entry as the code writes it: the average keeps the sign of the total. *)
Definition printed_entry (key : bytes) (details : Location) : bytes :=
  key ++ ["="%char] ++ render_tenths (Min details) ++ ["/"%char]
  ++ tenths_text (Total details <? 0)
       (Z.abs (round_half_away (Total details) (Count details))) ++ ["/"%char]
  ++ render_tenths (Max details).

(** The last step of [binary_round_aux] on a rounded mantissa. *)
Definition finish (s : bool) (M e : Z) : spec_float :=
  let '(mrs, e') := shr_fexp 53 1024 M e loc_Exact in
  match shr_m mrs with
  | Z0 => S754_zero s
  | Z.pos m => if e' <=? 1024 - 53 then S754_finite s m e' else S754_infinity s
  | Z.neg _ => S754_nan
  end.

(** ** Chunk ranges *)

(** The start offset the loop body computes from the current one. *)
Definition next_start (csize : Z) (file : File) (fileSize start : Z) : Z :=
  let end_ := add64 start csize in
  let end_ := if end_ >? fileSize then fileSize else end_ in
  findNextLineBoundary file end_.

(** Every line is shorter than the chunk size. *)
Definition short_lines (csize : Z) (u : bytes) : Prop :=
  Forall (fun l => len l < csize) (strings_Split u nl).

(** [aligned d csize s chunks]: from the start offset [s] on, the ranges are
    [csize] bytes long (the last one ends at the file size), and each next
    range starts at the last newline at or before the end of the one before
    it, strictly after that one's start. *)
Inductive aligned (d : bytes) (csize : Z) : Z -> list (Z * Z) -> Prop :=
  | aligned_nil : aligned d csize (len d) []
  | aligned_last s :
      0 <= s < len d -> len d <= s + csize ->
      aligned d csize s [(s, len d)]
  | aligned_cons s s' rest :
      0 <= s -> s + csize < len d ->
      s < s' <= s + csize ->
      index d s' = Some nl ->
      (forall p, s' < p <= s + csize -> index d p ≠ Some nl) ->
      aligned d csize s' rest ->
      aligned d csize s ((s, s + csize) :: rest).

(** A line of the text [d]: the bytes from offset [a] up to offset [b],
    between two newlines (or the ends of the text), with no newline inside. *)
Definition is_line (d : bytes) (a b : Z) : Prop :=
  0 <= a <= b /\ b <= len d /\
  (a = 0 \/ index d (a - 1) = Some nl) /\
  (b = len d \/ index d b = Some nl) /\
  forall p, a <= p < b -> index d p ≠ Some nl.

(** Consecutive ranges meet exactly: what an exact partition would need. *)
Fixpoint adjacent (chunks : list (Z * Z)) : Prop :=
  match chunks with
  | (_, e) :: rest =>
      match rest with
      | (s, _) :: _ => e = s /\ adjacent rest
      | [] => True
      end
  | [] => True
  end.

(** ** Valid input and what it contributes *)

(** The key before the first delimiter and the value after it. *)
Fixpoint split_key (l : bytes) : option (bytes * bytes) :=
  match l with
  | [] => None
  | c :: r =>
      if bool_decide (c = semi) then Some ([], r)
      else match split_key r with
           | Some (k, v) => Some (c :: k, v)
           | None => None
           end
  end.

(** A line [<key>;<value>] whose value has the shape [-?\d{1,2}\.\d]. *)
Definition valid_line (l : bytes) : bool :=
  match split_key l with
  | Some (_, v) => is_temp v
  | None => false
  end.

(** Every line of the file is valid. *)
Definition valid_file (data : bytes) : bool := forallb valid_line (text_lines data).

(** What a line contributes to the statistics: nothing when the worker
    skips it, else its key and its temperature in tenths. *)
Definition obs_of (l : bytes) : option (bytes * Z) :=
  match processLine l with
  | Some (k, Some loc) => Some (k, Total loc)
  | _ => None
  end.

(** One observation as a map, and the aggregate of a list of observations. *)
Definition single (o : bytes * Z) : gmap bytes Location :=
  {[ o.1 := mkLocation o.2 o.2 o.2 1 ]}.

Definition observe (m : gmap bytes Location) (o : bytes * Z) : gmap bytes Location :=
  merge_maps m (single o).

Definition aggregate (obs : list (bytes * Z)) : gmap bytes Location :=
  fold_left observe obs ∅.

Definition add_obs (m : gmap bytes Location) (o : option (bytes * Z))
  : gmap bytes Location :=
  match o with Some o => observe m o | None => m end.

(** The lines the sequential aggregator can take: valid ones, and those
    without a delimiter. *)
Definition seq_ok (l : bytes) : Prop := valid_line l = true \/ split_key l = None.

(** The lines a chunk may hold whole: empty ones and valid ones. *)
Definition chunk_ok (l : bytes) : Prop := l = [] \/ valid_line l = true.

(** ** Values the parser cannot read *)

(** The value without its minus sign. *)
Definition unsigned (v : bytes) : bytes :=
  match v with
  | c :: u => if bool_decide (c = "-"%char) then u else v
  | [] => []
  end.

(** A value too short for the indexing of [parseNumber]. *)
Definition too_short (v : bytes) : Prop :=
  len (unsigned v) < 3 \/
  (len (unsigned v) = 3 /\ index (unsigned v) 1 ≠ Some "."%char).

(** A line on which the chunk worker panics: after the first delimiter, a
    minus sign, a point and one more byte. *)
Definition fatal_line (l : bytes) : Prop :=
  exists k x, (semi ∉ k) /\ l = k ++ [semi; "-"%char; "."%char; x].

(** A line on which the sequential aggregator panics: a delimiter followed
    by a value that is too short. *)
Definition fatal_token (l : bytes) : Prop :=
  exists k v, (semi ∉ k) /\ l = k ++ semi :: v /\ too_short v.

(** ** What a file says *)

(** What a valid line says: its key and the tenths its value denotes. *)
Definition reading (l : bytes) : option (bytes * Z) :=
  match split_key l with
  | Some (k, v) => if is_temp v then Some (k, denoted_tenths v) else None
  | None => None
  end.

(** The readings of a text, line by line. *)
Definition readings (data : bytes) : list (bytes * Z) :=
  omap reading (text_lines data).

(** The temperatures read for [key], in the order of the lines. *)
Definition values_of (key : bytes) (obs : list (bytes * Z)) : list Z :=
  (filter (fun o => o.1 = key) obs).*2.

(** Minimum, maximum, sum and number of the temperatures of one key; none
    for a key without temperatures. *)
Definition statistics (ts : list Z) : option Location :=
  match ts with
  | [] => None
  | t :: r =>
      Some (mkLocation (foldr Z.min t r) (foldr Z.max t r) (foldr Z.add t r)
                       (Z.of_nat (length ts)))
  end.

(** The text of the entries of the keys [ks], each written from exact
    integer arithmetic. *)
Definition expected_text (m : gmap bytes Location) (ks : list bytes) : bytes :=
  str "{"
  ++ join_with (str ", ") (omap (fun k => printed_entry k <$> m !! k) ks)
  ++ str "}".

(** A value as the formatter would write it: no zero before another integer
    digit, and no minus sign before zero. *)
Definition canonical (v : bytes) : bool :=
  is_temp v && negb (bool_decide (v = str "-0.0")) &&
  match unsigned v with
  | [a; _; _; _] => negb (bool_decide (a = "0"%char))
  | _ => true
  end.

(** The lines, each followed by a carriage return and a newline. *)
Definition crlf_text (lines : list bytes) : bytes :=
  concat (map (fun l => l ++ [cr; nl]) lines).

(** ** Sample inputs *)

(** A value of three integer digits, as the worker aggregates it. *)
Definition garbage : Location := mkLocation 118 118 118 1.

(** One line, with a key of [chunkSize] bytes. *)
Definition long_key : bytes := replicate (Z.to_nat chunkSize) "a"%char.

Definition long_line_file : File :=
  mkFile (long_key ++ str ";1.0" ++ [nl]) false.

(** Two short lines. *)
Definition two_lines : File :=
  mkFile (str "a;1.0" ++ [nl] ++ str "bb;22.0" ++ [nl]) false.

(** A file of two lines, the second of which crosses offset [chunkSize]. *)
Definition crossing_file : File :=
  mkFile (replicate (Z.to_nat (chunkSize - 10)) "a"%char ++ str ";1.0" ++ [nl]
          ++ str "bb;2.0" ++ [nl]) false.

(** Five measurements of two stations. *)
Definition sample_file : File :=
  mkFile (str "ham;5.0" ++ [nl] ++ str "jel;-9.0" ++ [nl] ++ str "ham;25.5" ++ [nl]
          ++ str "ham;33.6" ++ [nl] ++ str "jel;46.5" ++ [nl]) false.

(** The observations 5.0, 25.5 and 33.6 of one key, and their aggregate. *)
Definition ham_file : File :=
  mkFile (str "ham;5.0" ++ [nl] ++ str "ham;25.5" ++ [nl] ++ str "ham;33.6" ++ [nl]) false.

Definition ham : Location := mkLocation 50 336 641 3.

(** The aggregate of the observations -0.1, 0.0 and 0.0. *)
Definition chilly : Location := mkLocation (-1) 0 (-1) 3.

(** A text whose second line has [MaxScanTokenSize] bytes. *)
Definition oversized_text : bytes :=
  str "a;1.0" ++ [nl] ++ replicate (Z.to_nat MaxScanTokenSize) "b"%char.

(** * Properties *)

(** ** Arithmetic helpers *)

Lemma wrap64_id z : in_int64 z -> wrap64 z = z.
Proof.
  unfold in_int64, wrap64. intros H.
  rewrite Z.mod_small by lia. lia.
Qed.

Lemma byteZ_range c : 0 <= byteZ c < 256.
Proof.
  unfold byteZ. pose proof (N_ascii_bounded c) as H.
  change 256 with (Z.of_N 256). lia.
Qed.

Lemma is_digit_range c : is_digit c = true -> 48 <= byteZ c <= 57.
Proof. unfold is_digit. rewrite andb_true_iff, !Z.leb_le. done. Qed.

Lemma is_digit_not_minus c : is_digit c = true -> c ≠ "-"%char.
Proof. intros H ->. vm_compute in H. done. Qed.

Lemma is_digit_not_point c : is_digit c = true -> c ≠ "."%char.
Proof. intros H ->. vm_compute in H. done. Qed.

(** ** The fixed-point parser *)

Ltac digits_in_range :=
  repeat match goal with
  | H : is_digit ?c = true |- _ =>
      pose proof (is_digit_range c H);
      pose proof (is_digit_not_minus c H);
      pose proof (is_digit_not_point c H);
      clear H
  | H : _ && _ = true |- _ => apply andb_true_iff in H; destruct H
  | H : bool_decide _ = true |- _ => apply bool_decide_eq_true in H
  end.

Ltac int64_arith :=
  unfold neg64, sub64, add64, mul64;
  repeat match goal with
  | |- context [wrap64 ?z] => rewrite (wrap64_id z) by (unfold in_int64; lia)
  end;
  try lia.

Lemma parseNumber_tenths (v : bytes) :
  is_temp v = true -> parseNumber v = Some (denoted_tenths v).
Proof.
  unfold is_temp. intros H.
  destruct v as [|c0 v]; [done|].
  case_bool_decide as Hneg.
  - subst c0.
    destruct v as [|a [|b [|c [|d [|? ?]]]]]; try done; digits_in_range; subst;
      unfold parseNumber, denoted_tenths, digits_value; simpl;
      repeat (case_bool_decide; try done); simpl;
      rewrite ?filter_cons, ?filter_nil; repeat (case_decide; try done); simpl;
      f_equal; int64_arith.
  - destruct v as [|b [|c [|d [|? ?]]]]; try done; digits_in_range; subst;
      unfold parseNumber, denoted_tenths, digits_value; simpl;
      repeat (case_bool_decide; try done); simpl;
      rewrite ?filter_cons, ?filter_nil; repeat (case_decide; try done); simpl;
      f_equal; int64_arith.
Qed.

(** C4. On every string of the shape [-]D.D or [-]DD.D the parser returns the
    number of tenths the string denotes. *)
Theorem parseNumber_correct (v : bytes) :
  is_temp v = true -> parseNumber v = Some (denoted_tenths v).
Proof. exact (parseNumber_tenths v). Qed.

Lemma parseNumber_correct_witness :
  (is_temp (str "12.3") = true /\ parseNumber (str "12.3") = Some 123) /\
  (is_temp (str "-3.4") = true /\ parseNumber (str "-3.4") = Some (-34)).
Proof.
  split; (split; [reflexivity|]).
  - exact (parseNumber_correct (str "12.3") eq_refl).
  - exact (parseNumber_correct (str "-3.4") eq_refl).
Defined.

(** The values on which the completeness test is enough for the parser: all
    but a minus sign directly before the point. *)
Lemma parseNumber_in_bounds (val : bytes) :
  incomplete val = false ->
  ~ (index val 0 = Some "-"%char /\ len val = 3) ->
  is_Some (parseNumber val).
Proof.
  unfold incomplete, len. intros H Hshort.
  apply orb_false_iff in H as [Hlen Hdot].
  apply Z.ltb_ge in Hlen. apply negb_false_iff, bool_decide_eq_true in Hdot.
  destruct val as [|c0 [|c1 [|c2 [|c3 [|c4 rest]]]]]; simpl in *; try lia.
  - unfold parseNumber; simpl.
    case_bool_decide as Hneg; simpl.
    + subst. exfalso. apply Hshort. done.
    + injection Hdot as ->. rewrite bool_decide_true by done. simpl. eauto.
  - unfold parseNumber; simpl.
    case_bool_decide as Hneg; simpl.
    + injection Hdot as ->. rewrite bool_decide_true by done. simpl. eauto.
    + case_bool_decide; simpl; eauto.
  - unfold parseNumber; simpl.
    case_bool_decide as Hneg; simpl; case_bool_decide; simpl; eauto.
Qed.

(** C6. The completeness test lets a minus sign directly before the point
    through, and the parser then indexes past the end of the two remaining
    bytes: the worker panics on such a line. *)
Theorem incomplete_misses_signed_point :
  (forall x : ascii,
     incomplete ["-"%char; "."%char; x] = false /\
     parseNumber ["-"%char; "."%char; x] = None) /\
  processLine (str "k;-.5") = None /\
  processChunk (str "k;-.5") = None.
Proof.
  split; [|split; reflexivity].
  intros x. split; [reflexivity|].
  unfold parseNumber; simpl. case_bool_decide; reflexivity.
Qed.

(** ** Malformed lines *)

(** C3. A line with a delimiter and an empty value makes the sequential
    aggregator panic, while the chunk worker skips the same line; the worker
    itself panics on a sign directly before the point, and a value of three
    integer digits passes its test and is aggregated as 118 tenths. *)
Theorem malformed_values_not_skipped :
  parseFile (str "abc;") = None /\
  processChunk (str "abc;") = Some ∅ /\
  (forall fuel csize ctx sched,
     run fuel csize ctx sched (Some (mkFile (str "abc;") false)) false = Panics) /\
  processChunk (str "k;-.5") = None /\
  processChunk (str "k;123.4") = Some {[ str "k" := garbage ]}.
Proof.
  repeat split; reflexivity.
Qed.

(** ** A failing Stat *)

Lemma shuffle_nil {A} (picks : list nat) : shuffle picks (@nil A) = [].
Proof. destruct picks; reflexivity. Qed.

Lemma run_stat_failure_value fuel csize ctx sched file :
  stat_fails file = true ->
  cancelled ctx = false ->
  run fuel csize ctx sched (Some file) true = Returns (str "{}", None).
Proof.
  intros Hstat Hctx.
  unfold run, parseFileWithConcurrency, lineOrchestrator, Stat.
  rewrite Hstat, shuffle_nil. simpl. rewrite Hctx. reflexivity.
Qed.

Lemma run_empty_file fuel csize ctx sched :
  cancelled ctx = false ->
  run (S fuel) csize ctx sched (Some (mkFile [] false)) true
  = Returns (str "{}", None).
Proof.
  intros Hctx.
  unfold run, parseFileWithConcurrency, lineOrchestrator, Stat. simpl.
  rewrite shuffle_nil. simpl. rewrite Hctx. reflexivity.
Qed.

(** C10. When [Stat] fails, the orchestrator returns its error without
    dispatching a chunk, and the concurrent [run] on an uncancelled context
    all the same returns the formatted empty mapping and no error, whatever
    the file holds, as it does for an empty file. *)
Theorem run_stat_failure (fuel : nat) (csize : Z) (ctx : Context) (sched : Schedule)
    (file : File) :
  stat_fails file = true ->
  cancelled ctx = false ->
  lineOrchestrator fuel csize file = Returns (Some ErrStat, []) /\
  run fuel csize ctx sched (Some file) true = Returns (str "{}", None) /\
  run fuel csize ctx sched (Some file) true
  = run (S fuel) csize ctx sched (Some (mkFile [] false)) true.
Proof.
  intros Hstat Hctx. split.
  - unfold lineOrchestrator, Stat. by rewrite Hstat.
  - rewrite run_stat_failure_value, run_empty_file by done. done.
Qed.

Lemma run_stat_failure_witness :
  run 0 chunkSize Background (mkSchedule [] [] 0)
      (Some (mkFile (str "ham;5.0") true)) true
  = Returns (str "{}", None).
Proof.
  exact (proj1 (proj2 (run_stat_failure 0 chunkSize Background (mkSchedule [] [] 0)
                         (mkFile (str "ham;5.0") true) eq_refl eq_refl))).
Defined.

(** On a cancelled context the consumer can take [ctx.Done()] before the
    completion signal: with the same failing [Stat] the run then returns the
    cancellation error, not the formatted empty mapping. *)
Lemma run_stat_failure_cancelled :
  run 0 chunkSize (mkContext true) (mkSchedule [] [] 0)
      (Some (mkFile (str "ham;5.0") true)) true
  = Returns ([], Some ErrCancelled) /\
  ~ (forall fuel csize ctx sched file,
       stat_fails file = true ->
       run fuel csize ctx sched (Some file) true = Returns (str "{}", None)).
Proof.
  split; [reflexivity|]. intros H.
  specialize (H 0%nat chunkSize (mkContext true) (mkSchedule [] [] 0)
                (mkFile (str "ham;5.0") true) eq_refl).
  discriminate H.
Qed.

(** ** The merge fold *)

Lemma wrap64_add_l a b : wrap64 (wrap64 a + b) = wrap64 (a + b).
Proof.
  unfold wrap64. f_equal.
  replace ((a + 2 ^ 63) mod 2 ^ 64 - 2 ^ 63 + b + 2 ^ 63)
    with ((a + 2 ^ 63) mod 2 ^ 64 + b) by lia.
  rewrite Zplus_mod_idemp_l. f_equal. lia.
Qed.

Lemma wrap64_add_r a b : wrap64 (a + wrap64 b) = wrap64 (a + b).
Proof. rewrite Z.add_comm, wrap64_add_l. f_equal. lia. Qed.

Lemma add64_comm a b : add64 a b = add64 b a.
Proof. unfold add64. f_equal. lia. Qed.

Lemma add64_assoc a b c : add64 (add64 a b) c = add64 a (add64 b c).
Proof. unfold add64. rewrite wrap64_add_l, wrap64_add_r. f_equal. lia. Qed.

Lemma merge_loc_comm a b : merge_loc a b = merge_loc b a.
Proof.
  unfold merge_loc. rewrite (add64_comm (Count a)), (add64_comm (Total a)).
  f_equal; repeat case_match; lia.
Qed.

Lemma merge_loc_assoc a b c :
  merge_loc (merge_loc a b) c = merge_loc a (merge_loc b c).
Proof.
  unfold merge_loc; simpl. rewrite !add64_assoc.
  f_equal; repeat case_match; lia.
Qed.

Lemma lookup_merge_maps m1 m2 k :
  merge_maps m1 m2 !! k =
  match m1 !! k, m2 !! k with
  | Some a, Some b => Some (merge_loc a b)
  | Some a, None => Some a
  | None, o => o
  end.
Proof.
  unfold merge_maps. rewrite lookup_union_with.
  destruct (m1 !! k), (m2 !! k); reflexivity.
Qed.

Lemma merge_maps_comm m1 m2 : merge_maps m1 m2 = merge_maps m2 m1.
Proof.
  apply map_eq; intros k. rewrite !lookup_merge_maps.
  destruct (m1 !! k), (m2 !! k); try reflexivity.
  by rewrite merge_loc_comm.
Qed.

Lemma merge_maps_assoc m1 m2 m3 :
  merge_maps (merge_maps m1 m2) m3 = merge_maps m1 (merge_maps m2 m3).
Proof.
  apply map_eq; intros k. rewrite !lookup_merge_maps.
  destruct (m1 !! k), (m2 !! k), (m3 !! k); try reflexivity.
  by rewrite merge_loc_assoc.
Qed.

Lemma merge_maps_empty_l m : merge_maps ∅ m = m.
Proof. apply map_eq; intros k. rewrite lookup_merge_maps, lookup_empty. done. Qed.

Lemma merge_maps_empty_r m : merge_maps m ∅ = m.
Proof. rewrite merge_maps_comm. apply merge_maps_empty_l. Qed.

Lemma merge_maps_insert m1 m2 k v :
  m2 !! k = None ->
  merge_maps m1 (<[k := v]> m2) = merge_maps (merge_maps m1 {[ k := v ]}) m2.
Proof.
  intros Hk. apply map_eq; intros i. rewrite !lookup_merge_maps.
  destruct (decide (k = i)) as [->|Hne].
  - rewrite lookup_insert_eq, lookup_singleton_eq, Hk. by destruct (m1 !! i).
  - rewrite lookup_insert_ne, lookup_singleton_ne by done.
    by destruct (m1 !! i), (m2 !! i).
Qed.

Lemma merge_entry_map locations m k v :
  (merge_entry (locations, m) (k, v)).2 = merge_maps m {[ k := v ]}.
Proof.
  unfold merge_entry. apply map_eq; intros i. rewrite lookup_merge_maps.
  destruct (m !! k) as [loc|] eqn:Hk; simpl;
    (destruct (decide (k = i)) as [->|Hne];
     [rewrite lookup_insert_eq, lookup_singleton_eq, Hk
     |rewrite lookup_insert_ne, lookup_singleton_ne by done;
      by destruct (m !! i)]); done.
Qed.

Lemma fold_merge_entry_map (l : list (bytes * Location)) locations m :
  NoDup l.*1 ->
  (fold_left merge_entry l (locations, m)).2 = merge_maps m (list_to_map l).
Proof.
  revert locations m.
  induction l as [|[k v] l IH]; intros locations m Hnd; cbn [fold_left].
  - simpl. by rewrite merge_maps_empty_r.
  - rewrite fmap_cons in Hnd. apply list.NoDup_cons in Hnd as [Hk Hnd].
    destruct (merge_entry (locations, m) (k, v)) as [locations' m'] eqn:E.
    rewrite IH by done.
    assert (m' = merge_maps m {[ k := v ]}) as ->.
    { change m' with (locations', m').2. rewrite <- E. apply merge_entry_map. }
    rewrite list_to_map_cons, merge_maps_insert; [done|].
    by apply not_elem_of_list_to_map_1.
Qed.

Lemma shuffle_Permutation {A} (picks : list nat) (l : list A) :
  shuffle picks l ≡ₚ l.
Proof.
  revert l. induction picks as [|p picks IH]; intros l; simpl; [done|].
  destruct (l !! (p mod length l)%nat) as [x|] eqn:E; [|done].
  rewrite IH. symmetry. by apply delete_Permutation.
Qed.

(** Every order of the elements is the choice of some picks. *)
Lemma shuffle_complete {A} (l l' : list A) :
  l ≡ₚ l' -> exists picks, shuffle picks l = l'.
Proof.
  revert l. induction l' as [|x l' IH]; intros l HP.
  - apply Permutation_nil_r in HP as ->. by exists [].
  - assert (x ∈ l) as Hx by (rewrite HP; apply list_elem_of_here).
    apply list_elem_of_lookup in Hx as [i Hi].
    pose proof (lookup_lt_Some _ _ _ Hi) as Hlt.
    destruct (IH (delete i l)) as [picks Hpicks].
    { apply (Permutation_cons_inv (a := x)).
      by rewrite <- HP, <- (delete_Permutation l i x). }
    exists (i :: picks). simpl.
    rewrite Nat.mod_small by done. by rewrite Hi, Hpicks.
Qed.

(** Receiving one map merges it into the global map, in whatever order Go
    iterates it. *)
Lemma merge_received_map picks locations m mini :
  (merge_received picks (locations, m) mini).2 = merge_maps m mini.
Proof.
  unfold merge_received.
  assert (shuffle picks (map_to_list mini) ≡ₚ map_to_list mini) as HP
    by apply shuffle_Permutation.
  rewrite fold_merge_entry_map.
  - f_equal. rewrite <- (list_to_map_to_list mini) at 2.
    apply list_to_map_proper; [|done].
    rewrite HP. apply NoDup_fst_map_to_list.
  - rewrite HP. apply NoDup_fst_map_to_list.
Qed.

Lemma select_loop_uncancelled ctx sched turn pending st :
  cancelled ctx = false ->
  (select_loop ctx sched turn pending st).2 = None /\
  (select_loop ctx sched turn pending st).1.2 = fold_left merge_maps pending st.2.
Proof.
  intros Hctx. revert turn st.
  induction pending as [|m pending IH]; intros turn [locations gm]; simpl;
    rewrite Hctx; simpl; [done|].
  destruct (IH (S turn)
              (merge_received (default [] (iteration sched !! turn)) (locations, gm) m))
    as [-> ->].
  by rewrite merge_received_map.
Qed.

Lemma fold_merge_maps_start ms m :
  fold_left merge_maps ms m = merge_maps m (fold_left merge_maps ms ∅).
Proof.
  revert m. induction ms as [|x ms IH]; intros m; simpl.
  - by rewrite merge_maps_empty_r.
  - rewrite (IH (merge_maps m x)), (IH (merge_maps ∅ x)).
    by rewrite merge_maps_empty_l, merge_maps_assoc.
Qed.

Lemma fold_merge_maps_Permutation ms ms' m :
  ms ≡ₚ ms' -> fold_left merge_maps ms m = fold_left merge_maps ms' m.
Proof.
  intros HP. revert m. induction HP as [|x l l' _ IH|x y l|l l' l'' _ IH1 _ IH2];
    intros m; simpl.
  - done.
  - apply IH.
  - f_equal. rewrite !merge_maps_assoc. f_equal. apply merge_maps_comm.
  - by rewrite IH1.
Qed.

Lemma fold_merge_maps_app ms1 ms2 :
  fold_left merge_maps (ms1 ++ ms2) ∅
  = merge_maps (fold_left merge_maps ms1 ∅) (fold_left merge_maps ms2 ∅).
Proof. by rewrite fold_left_app, fold_merge_maps_start. Qed.

Lemma consumed_fold sched received :
  consumed sched received = fold_left merge_maps received ∅.
Proof.
  unfold consumed.
  by destruct (select_loop_uncancelled Background sched 0 received ([], ∅) eq_refl)
    as [_ ->].
Qed.

(** C8. The per-key fold is commutative and associative, and the mapping the
    consumer ends with is the same for every arrival order, every iteration
    order of the received maps, and every grouping of the maps into partial
    merges. *)
Theorem merge_fold_order_independent :
  (forall a b, merge_loc a b = merge_loc b a) /\
  (forall a b c, merge_loc (merge_loc a b) c = merge_loc a (merge_loc b c)) /\
  (forall sched sched' received received',
     received ≡ₚ received' ->
     consumed sched received = consumed sched' received') /\
  (forall sched sched1 sched2 picks keys received1 received2,
     consumed sched (received1 ++ received2)
     = (merge_received picks (keys, consumed sched1 received1)
                       (consumed sched2 received2)).2).
Proof.
  split; [exact merge_loc_comm|]. split; [exact merge_loc_assoc|]. split.
  - intros sched sched' ms ms' HP. rewrite !consumed_fold.
    by apply fold_merge_maps_Permutation.
  - intros. rewrite merge_received_map, !consumed_fold.
    apply fold_merge_maps_app.
Qed.

(** ** The order of the output keys *)

Lemma byteZ_inj x y : byteZ x = byteZ y -> x = y.
Proof.
  unfold byteZ. intros H. apply N2Z.inj in H.
  rewrite <- (ascii_N_embedding x), <- (ascii_N_embedding y). by rewrite H.
Qed.

Global Instance bytes_le_total : base.Total bytes_le.
Proof.
  unfold bytes_le. intros a. induction a as [|x a IH]; intros [|y b]; simpl; auto.
  destruct (Z.ltb_spec (byteZ x) (byteZ y)), (Z.ltb_spec (byteZ y) (byteZ x));
    auto; lia.
Qed.

Global Instance bytes_le_trans : Transitive bytes_le.
Proof.
  unfold bytes_le. intros a. induction a as [|x a IH]; intros [|y b] [|z c]; simpl;
    try done.
  destruct (Z.ltb_spec (byteZ x) (byteZ y)), (Z.ltb_spec (byteZ y) (byteZ x)),
    (Z.ltb_spec (byteZ y) (byteZ z)), (Z.ltb_spec (byteZ z) (byteZ y)),
    (Z.ltb_spec (byteZ x) (byteZ z)), (Z.ltb_spec (byteZ z) (byteZ x));
    try done; try lia.
  apply IH.
Qed.

Global Instance bytes_le_antisym : AntiSymm (=) bytes_le.
Proof.
  unfold bytes_le. intros a. induction a as [|x a IH]; intros [|y b]; simpl;
    try done.
  destruct (Z.ltb_spec (byteZ x) (byteZ y)), (Z.ltb_spec (byteZ y) (byteZ x));
    try done; try lia.
  intros H1 H2. f_equal; [apply byteZ_inj; lia | by apply IH].
Qed.

Lemma bytes_lt_iff a b : bytes_lt a b <-> bytes_le a b /\ a ≠ b.
Proof.
  unfold bytes_lt. split.
  - intros H. split.
    + destruct (bytes_le_total a b) as [|Hba]; [done|].
      unfold bytes_le in Hba. congruence.
    + intros ->. destruct (bytes_le_total b b) as [Hb|Hb];
        unfold bytes_le in Hb; congruence.
  - intros [Hab Hne]. destruct (bytes_leb b a) eqn:Hba; [|done].
    exfalso. apply Hne. by apply (anti_symm bytes_le).
Qed.

Lemma sort_Strings_strict (locations : list bytes) :
  NoDup locations -> StronglySorted bytes_lt (sort_Strings locations).
Proof.
  intros Hnd. unfold sort_Strings.
  assert (NoDup (merge_sort bytes_le locations)) as Hnd'
    by (by rewrite merge_sort_Permutation).
  pose proof (StronglySorted_merge_sort bytes_le locations) as Hs.
  induction Hs as [|x l Hs IH Hall]; [constructor|].
  apply list.NoDup_cons in Hnd' as [Hx Hnd']. constructor; [by apply IH|].
  rewrite Forall_forall in Hall |- *. intros y Hy.
  apply bytes_lt_iff. split; [by apply Hall|]. intros ->.
  by apply list_elem_of_In in Hy.
Qed.

Lemma keys_match_empty : keys_match ([], ∅).
Proof.
  split; simpl; [constructor|]. intros k. rewrite lookup_empty, elem_of_nil.
  split; [done|]. by intros [? ?].
Qed.

Lemma keys_match_insert_new (locations : list bytes) (m : gmap bytes Location) k v :
  keys_match (locations, m) -> m !! k = None ->
  keys_match (locations ++ [k], <[k := v]> m).
Proof.
  intros [Hnd Hdom] Hk; simpl in *. split; simpl.
  - apply list.NoDup_app. split; [done|]. split; [|apply NoDup_singleton].
    intros x Hx ->%list_elem_of_singleton.
    apply Hdom in Hx. rewrite Hk in Hx. by destruct Hx.
  - intros i. rewrite elem_of_app, list_elem_of_singleton, Hdom.
    destruct (decide (k = i)) as [->|Hne].
    + rewrite lookup_insert_eq. split; eauto.
    + rewrite lookup_insert_ne by done. split; [intros [|]; [done|congruence] | auto].
Qed.

Lemma keys_match_insert_old (locations : list bytes) (m : gmap bytes Location) k v :
  keys_match (locations, m) -> is_Some (m !! k) ->
  keys_match (locations, <[k := v]> m).
Proof.
  intros [Hnd Hdom] Hk; simpl in *. split; simpl; [done|].
  intros i. rewrite Hdom. destruct (decide (k = i)) as [->|Hne].
  - rewrite lookup_insert_eq. split; eauto.
  - by rewrite lookup_insert_ne.
Qed.

Lemma merge_entry_keys_match st kv : keys_match st -> keys_match (merge_entry st kv).
Proof.
  destruct st as [locations m], kv as [k v]. intros H. unfold merge_entry.
  destruct (m !! k) eqn:Hk.
  - apply keys_match_insert_old; [done|]. rewrite Hk. eauto.
  - by apply keys_match_insert_new.
Qed.

Lemma merge_received_keys_match picks st mini :
  keys_match st -> keys_match (merge_received picks st mini).
Proof.
  unfold merge_received. generalize (shuffle picks (map_to_list mini)) as l.
  intros l. revert st. induction l as [|kv l IH]; intros st H; simpl; [done|].
  apply IH. by apply merge_entry_keys_match.
Qed.

Lemma select_loop_keys_match ctx sched turn pending st :
  keys_match st -> keys_match (select_loop ctx sched turn pending st).1.
Proof.
  revert turn st. induction pending as [|m pending IH]; intros turn st H; simpl.
  - by destruct (cancelled ctx && (turn =? cancel_turn sched)%nat).
  - destruct (cancelled ctx && (turn =? cancel_turn sched)%nat); [done|].
    apply IH. by apply merge_received_keys_match.
Qed.

Lemma file_step_keys_match st line st' :
  keys_match st -> file_step st line = Some st' -> keys_match st'.
Proof.
  destruct st as [locations m]. unfold file_step. intros H.
  destruct (strings_Index line semi =? -1); [by intros [= <-]|].
  destruct (parseNumber _) as [t|]; simpl; [|done].
  destruct (m !! slice_to line (strings_Index line semi)) eqn:Hk; intros [= <-].
  - apply keys_match_insert_old; [done|]. rewrite Hk. eauto.
  - by apply keys_match_insert_new.
Qed.

Lemma file_loop_keys_match lines st st' :
  keys_match st -> file_loop lines st = Some st' -> keys_match st'.
Proof.
  revert st. induction lines as [|line lines IH]; intros st H; simpl.
  - by intros [= <-].
  - destruct (file_step st line) as [st1|] eqn:E; simpl; [|done].
    apply IH. by eapply file_step_keys_match.
Qed.

Lemma parseFile_keys_match data locations m :
  parseFile data = Some (locations, m, None) -> keys_match (locations, m).
Proof.
  unfold parseFile. destruct (scanner data) as [tokens err].
  destruct (file_loop tokens ([], ∅)) as [[locs gm]|] eqn:E; simpl; [|done].
  destruct err; [done|]. intros [= <- <-].
  eapply file_loop_keys_match; [apply keys_match_empty | done].
Qed.

Lemma parseFileWithConcurrency_keys_match fuel csize ctx sched file locations m err :
  parseFileWithConcurrency fuel csize ctx sched file = Returns (locations, m, err) ->
  keys_match (locations, m).
Proof.
  unfold parseFileWithConcurrency.
  destruct (lineOrchestrator fuel csize file) as [[e sent]| |]; [|done..].
  intros [= E].
  pose proof (select_loop_keys_match ctx sched 0 (shuffle (arrival sched) sent)
                ([], ∅) keys_match_empty) as H.
  by rewrite E in H.
Qed.

Lemma result_loop_text (m : gmap bytes Location) ks i buffer :
  Forall (fun k => is_Some (m !! k)) ks ->
  result_loop i ks m buffer
  = (buffer
     ++ (if (0 <? i)%nat then match ks with [] => [] | _ => str ", " end else [])
     ++ join_with (str ", ") (omap (fun k => render_entry k <$> m !! k) ks)
     ++ str "}", None).
Proof.
  intros H. revert i buffer. induction H as [|k ks [d Hd] Hks IH]; intros i buffer.
  - simpl. by destruct (0 <? i)%nat.
  - cbn [result_loop omap list_omap]. rewrite Hd. cbn [fmap option_fmap option_map].
    rewrite IH. f_equal. change (0 <? S i)%nat with true. cbv iota.
    destruct Hks as [|k' ks' [d' Hd'] Hks'].
    + simpl. destruct (0 <? i)%nat; simpl; by rewrite <- ?app_assoc.
    + cbn [omap list_omap]. rewrite Hd'. cbn [fmap option_fmap option_map join_with].
      destruct (0 <? i)%nat; simpl; by rewrite <- ?app_assoc.
Qed.

Lemma createResult_text locations m :
  keys_match (locations, m) ->
  createResult locations m = (result_text m (sort_Strings locations), None).
Proof.
  intros [_ Hdom]; simpl in *. unfold createResult, result_text.
  rewrite result_loop_text; [done|].
  apply list.Forall_forall. intros k Hk. apply Hdom.
  by rewrite <- (merge_sort_Permutation bytes_le locations).
Qed.

Lemma keys_match_ascending locations m :
  keys_match (locations, m) -> ascending_output locations m.
Proof.
  intros H. split; [by apply createResult_text|].
  destruct H as [Hnd Hdom]; simpl in *. split; [|split].
  - apply list.Forall_forall. intros k Hk. apply Hdom.
    by rewrite <- (merge_sort_Permutation bytes_le locations).
  - apply merge_sort_Permutation.
  - by apply sort_Strings_strict.
Qed.



(** ** The backward scan *)

Lemma index_Some_range (s : bytes) i c : index s i = Some c -> 0 <= i < len s.
Proof.
  unfold index, len. destruct (Z.ltb_spec i 0) as [|Hi]; [done|].
  intros Hc%lookup_lt_Some. lia.
Qed.

Lemma index_in_range (s : bytes) i : 0 <= i < len s -> is_Some (index s i).
Proof.
  unfold index, len. intros Hr. destruct (Z.ltb_spec i 0); [lia|].
  apply lookup_lt_is_Some. lia.
Qed.

Lemma index_drop (s : bytes) n i :
  0 <= n -> 0 <= i -> index (drop (Z.to_nat n) s) i = index s (n + i).
Proof.
  intros Hn Hi. unfold index.
  destruct (Z.ltb_spec i 0), (Z.ltb_spec (n + i) 0); try lia.
  rewrite lookup_drop. f_equal. lia.
Qed.

Lemma ReadAt_byte file off :
  ReadAt file 1 off =
  match index (contents file) off with
  | Some c => ([c], None)
  | None => ([], Some (if off <? 0 then ErrNegativeOffset else ErrEOF))
  end.
Proof.
  unfold ReadAt, index. destruct (Z.ltb_spec off 0); [done|].
  change (Z.to_nat 1) with 1%nat.
  destruct (contents file !! Z.to_nat off) as [c|] eqn:E.
  - rewrite (drop_S _ _ _ E). reflexivity.
  - apply lookup_ge_None in E. rewrite drop_ge by done. reflexivity.
Qed.

Lemma boundary_loop_stop steps file start :
  index (contents file) start = None \/ index (contents file) start = Some nl ->
  boundary_loop (S steps) file start = start.
Proof.
  intros H. simpl. rewrite ReadAt_byte.
  destruct H as [-> | ->]; reflexivity.
Qed.

Lemma boundary_loop_back steps file start c :
  index (contents file) start = Some c -> c ≠ nl ->
  boundary_loop (S steps) file start = boundary_loop steps file (start - 1).
Proof.
  intros H Hc. simpl. rewrite ReadAt_byte, H. simpl.
  rewrite bool_decide_false by (intros [= ?]; done). reflexivity.
Qed.

(** The loop equations of [findNextLineBoundary]. *)
Lemma findNextLineBoundary_stop file start :
  index (contents file) start = None \/ index (contents file) start = Some nl ->
  findNextLineBoundary file start = start.
Proof.
  intros H. unfold findNextLineBoundary.
  destruct (Z.to_nat (start + 2)) as [|steps] eqn:E; [done|].
  by apply boundary_loop_stop.
Qed.

Lemma findNextLineBoundary_back file start c :
  index (contents file) start = Some c -> c ≠ nl ->
  findNextLineBoundary file start = findNextLineBoundary file (start - 1).
Proof.
  intros H Hc. unfold findNextLineBoundary.
  pose proof (index_Some_range _ _ _ H) as Hr.
  replace (Z.to_nat (start + 2)) with (S (Z.to_nat (start - 1 + 2))) by lia.
  by apply (boundary_loop_back _ _ _ c).
Qed.

(** The scan returns the offset of the last newline at or before [start], or
    -1 when there is none. *)
Lemma findNextLineBoundary_spec file start :
  0 <= start < len (contents file) ->
  let r := findNextLineBoundary file start in
  -1 <= r <= start /\
  (0 <= r -> index (contents file) r = Some nl) /\
  (forall p, r < p <= start -> index (contents file) p ≠ Some nl).
Proof.
  intros H. remember (Z.to_nat start) as n eqn:Hn. revert start H Hn.
  induction n as [|n IH]; intros start H Hn; simpl.
  - assert (start = 0) as -> by lia.
    destruct (index_in_range (contents file) 0 H) as [c Hc].
    destruct (decide (c = nl)) as [->|Hne].
    + rewrite findNextLineBoundary_stop by auto.
      split; [lia|]. split; [done|]. intros p Hp. lia.
    + rewrite (findNextLineBoundary_back _ _ c) by done.
      rewrite findNextLineBoundary_stop by (left; reflexivity).
      split; [lia|]. split; [lia|]. intros p Hp.
      assert (p = 0) as -> by lia. rewrite Hc. congruence.
  - destruct (index_in_range (contents file) start H) as [c Hc].
    destruct (decide (c = nl)) as [->|Hne].
    + rewrite findNextLineBoundary_stop by auto.
      split; [lia|]. split; [done|]. intros p Hp. lia.
    + rewrite (findNextLineBoundary_back _ _ c) by done.
      destruct (IH (start - 1)) as (Hr & Hnl & Hno); [lia..|].
      split; [lia|]. split; [done|]. intros p Hp.
      destruct (decide (p = start)) as [->|]; [rewrite Hc; congruence|].
      apply Hno. lia.
Qed.

Lemma findNextLineBoundary_at_size file :
  findNextLineBoundary file (len (contents file)) = len (contents file).
Proof.
  apply findNextLineBoundary_stop. left.
  destruct (index (contents file) (len (contents file))) eqn:E; [|done].
  apply index_Some_range in E. lia.
Qed.

(** ** The dispatch loop on a line longer than a chunk *)

Lemma dispatch_loop_unfold fuel csize file fileSize start :
  dispatch_loop (S fuel) csize file fileSize start =
  if start <? fileSize then
    chunks ← dispatch_loop fuel csize file fileSize (next_start csize file fileSize start);
    Some ((start, (if add64 start csize >? fileSize then fileSize
                   else add64 start csize)) :: chunks)
  else Some [].
Proof. reflexivity. Qed.

(** A start offset that the loop body maps to itself is never left. *)
Lemma dispatch_loop_stuck csize file fileSize start :
  start < fileSize ->
  next_start csize file fileSize start = start ->
  forall fuel, dispatch_loop fuel csize file fileSize start = None.
Proof.
  intros Hlt Hfix fuel. induction fuel as [|fuel IH]; [done|].
  rewrite dispatch_loop_unfold, Hfix, IH.
  destruct (Z.ltb_spec start fileSize); [done|lia].
Qed.

Lemma findNextLineBoundary_no_newline file start :
  0 <= start < len (contents file) ->
  (forall p, 0 <= p <= start -> index (contents file) p ≠ Some nl) ->
  findNextLineBoundary file start = -1.
Proof.
  intros Hr Hno.
  destruct (findNextLineBoundary_spec file start Hr) as (Hb & Hnl & _).
  destruct (decide (0 <= findNextLineBoundary file start)) as [Hpos|]; [|lia].
  exfalso. apply (Hno (findNextLineBoundary file start)); [lia | auto].
Qed.

Lemma long_key_length : length long_key = Z.to_nat chunkSize.
Proof. apply length_replicate. Qed.

Lemma long_line_file_size : len (contents long_line_file) = chunkSize + 5.
Proof.
  unfold len, long_line_file, contents.
  rewrite length_app, long_key_length.
  change (length (str ";1.0" ++ [nl])) with 5%nat. unfold chunkSize. lia.
Qed.

Lemma long_line_file_index p :
  0 <= p <= chunkSize -> index (contents long_line_file) p ≠ Some nl.
Proof.
  intros Hp. unfold index, long_line_file, contents.
  destruct (Z.ltb_spec p 0); [done|].
  destruct (decide (p < chunkSize)) as [Hlt|Hge].
  - rewrite lookup_app_l by (rewrite long_key_length; lia).
    unfold long_key. rewrite lookup_replicate_2 by lia. done.
  - assert (p = chunkSize) as -> by lia.
    rewrite lookup_app_r by (rewrite long_key_length; lia).
    rewrite long_key_length, Nat.sub_diag. done.
Qed.

Lemma long_line_file_next start :
  start = 0 \/ start = -1 ->
  next_start chunkSize long_line_file (len (contents long_line_file)) start = -1.
Proof.
  intros Hs. unfold next_start. rewrite long_line_file_size.
  assert (add64 start chunkSize = start + chunkSize) as ->.
  { unfold add64. apply wrap64_id. unfold in_int64, chunkSize. lia. }
  destruct (Z.gtb_spec (start + chunkSize) (chunkSize + 5)); [lia|].
  apply findNextLineBoundary_no_newline.
  - rewrite long_line_file_size. unfold chunkSize. lia.
  - intros p Hp. apply long_line_file_index. lia.
Qed.

Lemma long_line_file_size_pos : 0 < len (contents long_line_file).
Proof. rewrite long_line_file_size. unfold chunkSize. lia. Qed.

Lemma long_line_dispatch_none fuel :
  dispatch_loop fuel chunkSize long_line_file (len (contents long_line_file)) 0 = None.
Proof.
  pose proof long_line_file_size_pos as Hsize.
  destruct fuel as [|fuel]; [reflexivity|].
  rewrite dispatch_loop_unfold, long_line_file_next by (left; reflexivity).
  rewrite dispatch_loop_stuck;
    [|lia|apply long_line_file_next; right; reflexivity].
  destruct (Z.ltb_spec 0 (len (contents long_line_file))); [reflexivity|lia].
Qed.

Lemma long_line_run_none fuel ctx sched :
  run fuel chunkSize ctx sched (Some long_line_file) true = OutOfFuel.
Proof.
  unfold run, parseFileWithConcurrency, lineOrchestrator, Stat.
  change (stat_fails long_line_file) with false. cbv iota.
  rewrite long_line_dispatch_none. reflexivity.
Qed.


(** ** Lines and newlines *)

Lemma strings_Split_nonempty s sep : strings_Split s sep ≠ [].
Proof.
  destruct s as [|c s]; simpl; [done|].
  case_bool_decide; [done|]. by destruct (strings_Split s sep).
Qed.

Lemma strings_Split_app_sep a b sep :
  strings_Split (a ++ sep :: b) sep = strings_Split a sep ++ strings_Split b sep.
Proof.
  induction a as [|c a IH]; simpl.
  - by rewrite bool_decide_true.
  - rewrite IH. case_bool_decide; [done|].
    pose proof (strings_Split_nonempty a sep).
    by destruct (strings_Split a sep).
Qed.

Lemma strings_Split_prefix p w sep h t :
  sep ∉ p -> strings_Split w sep = h :: t ->
  strings_Split (p ++ w) sep = (p ++ h) :: t.
Proof.
  intros Hp Hw. induction p as [|c p IH]; simpl; [done|].
  apply not_elem_of_cons in Hp as [Hc Hp].
  rewrite bool_decide_false by done. by rewrite IH.
Qed.

Lemma strings_Split_no_sep p sep : sep ∉ p -> strings_Split p sep = [p].
Proof.
  intros Hp. rewrite <- (app_nil_r p) at 1.
  rewrite (strings_Split_prefix p [] sep [] []) by done. by rewrite app_nil_r.
Qed.

Lemma index_cons_succ (c : ascii) (s : bytes) i :
  0 <= i -> index (c :: s) (i + 1) = index s i.
Proof.
  intros Hi. unfold index.
  destruct (Z.ltb_spec (i + 1) 0), (Z.ltb_spec i 0); try lia.
  replace (Z.to_nat (i + 1)) with (S (Z.to_nat i)) by lia. done.
Qed.

Lemma index_split (u : bytes) j c :
  index u j = Some c ->
  u = take (Z.to_nat j) u ++ c :: drop (S (Z.to_nat j)) u.
Proof.
  unfold index. destruct (Z.ltb_spec j 0) as [|Hj]; [done|]. intros Hc.
  by rewrite take_drop_middle.
Qed.

(** Past the first byte, a text of short lines has a newline within every
    window of [csize] bytes. *)
Lemma short_lines_newline csize (u : bytes) :
  0 < csize -> short_lines csize u -> csize < len u ->
  exists j, 1 <= j <= csize /\ index u j = Some nl.
Proof.
  unfold short_lines, len. intros HC Hshort Hlen.
  destruct u as [|x v]; simpl in Hlen; [lia|].
  destruct (decide (nl ∈ take (Z.to_nat csize) v)) as [Hin|Hnot].
  - apply list_elem_of_lookup in Hin as [i Hi].
    pose proof (lookup_lt_Some _ _ _ Hi) as Hlt. rewrite length_take in Hlt.
    rewrite lookup_take_lt in Hi by lia.
    exists (Z.of_nat i + 1). split; [lia|].
    rewrite index_cons_succ by lia. unfold index.
    destruct (Z.ltb_spec (Z.of_nat i) 0); [lia|]. by rewrite Nat2Z.id.
  - exfalso.
    destruct (strings_Split (drop (Z.to_nat csize) v) nl) as [|h t] eqn:Hsplit;
      [by apply strings_Split_nonempty in Hsplit|].
    pose proof (strings_Split_prefix _ _ _ _ _ Hnot Hsplit) as Hv.
    rewrite take_drop in Hv.
    assert (length (take (Z.to_nat csize) v ++ h) >= Z.to_nat csize)%nat as Hlong
      by (rewrite length_app, length_take; lia).
    simpl in Hshort. rewrite Hv in Hshort. case_bool_decide.
    + apply list.Forall_cons in Hshort as [_ Hshort].
      apply list.Forall_cons in Hshort as [Hshort _]. lia.
    + apply list.Forall_cons in Hshort as [Hshort _]. simpl in Hshort. lia.
Qed.

(** A property of all lines still holds of the lines from a newline on. *)
Lemma Forall_lines_drop (P : bytes -> Prop) (u : bytes) j :
  index u j = Some nl -> P [] ->
  Forall P (strings_Split u nl) ->
  Forall P (strings_Split (drop (Z.to_nat j) u) nl).
Proof.
  intros Hj Hnil Hall. pose proof (index_split u j nl Hj) as Hu.
  assert (drop (Z.to_nat j) u = nl :: drop (S (Z.to_nat j)) u) as ->.
  { unfold index in Hj. destruct (j <? 0); [done|]. by apply drop_S. }
  rewrite Hu, strings_Split_app_sep in Hall.
  apply Forall_app in Hall as [_ Hall].
  simpl. by constructor.
Qed.

(** ** The ranges handed to the workers *)

Lemma dispatch_loop_more_fuel fuel csize file fileSize start chunks :
  dispatch_loop fuel csize file fileSize start = Some chunks ->
  forall fuel', (fuel <= fuel')%nat ->
  dispatch_loop fuel' csize file fileSize start = Some chunks.
Proof.
  revert start chunks. induction fuel as [|fuel IH]; intros start chunks H; [done|].
  intros [|fuel'] Hle; [lia|].
  rewrite dispatch_loop_unfold in H |- *.
  destruct (start <? fileSize); [|done].
  destruct (dispatch_loop fuel csize file fileSize _) as [rest|] eqn:E; [|done].
  rewrite (IH _ _ E fuel') by lia. done.
Qed.

Section Dispatch.
Variable file : File.
Variable csize : Z.
Hypothesis csize_pos : 0 < csize.
Hypothesis no_overflow : len (contents file) + csize < 2 ^ 63.

Lemma add64_start s : 0 <= s <= len (contents file) -> add64 s csize = s + csize.
Proof.
  intros Hs. unfold add64. apply wrap64_id. unfold in_int64. lia.
Qed.

Lemma len_drop (u : bytes) s : 0 <= s <= len u -> len (drop (Z.to_nat s) u) = len u - s.
Proof. unfold len. intros Hs. rewrite length_drop. lia. Qed.

Lemma dispatch_loop_aligned (n : nat) : forall s,
  0 <= s <= len (contents file) ->
  (length (drop (Z.to_nat s) (contents file)) <= n)%nat ->
  short_lines csize (drop (Z.to_nat s) (contents file)) ->
  exists fuel chunks,
    dispatch_loop fuel csize file (len (contents file)) s = Some chunks /\
    aligned (contents file) csize s chunks.
Proof.
  induction n as [|n IH]; intros s Hs Hn Hshort.
  - assert (s = len (contents file)) as ->.
    { rewrite length_drop in Hn. unfold len in *. lia. }
    exists 1%nat, []. rewrite dispatch_loop_unfold, Z.ltb_irrefl.
    split; [done|]. apply aligned_nil.
  - destruct (decide (s = len (contents file))) as [->|Hne].
    { exists 1%nat, []. rewrite dispatch_loop_unfold, Z.ltb_irrefl.
      split; [done|]. apply aligned_nil. }
    assert (s < len (contents file)) as Hlt by lia.
    destruct (decide (len (contents file) <= s + csize)) as [Hend|Hmore].
    + exists 2%nat, [(s, len (contents file))].
      split; [|apply (aligned_last (contents file) csize s); lia].
      rewrite dispatch_loop_unfold. unfold next_start.
      rewrite add64_start by done.
      destruct (Z.ltb_spec s (len (contents file))); [|lia].
      assert ((if s + csize >? len (contents file) then len (contents file)
               else s + csize) = len (contents file)) as ->.
      { destruct (Z.gtb_spec (s + csize) (len (contents file))); lia. }
      rewrite findNextLineBoundary_at_size.
      rewrite dispatch_loop_unfold, Z.ltb_irrefl. done.
    + assert (s + csize < len (contents file)) as Hmore' by lia. clear Hmore.
      destruct (short_lines_newline csize (drop (Z.to_nat s) (contents file)))
        as (j & Hj & Hnl); [done | done | rewrite len_drop by done; lia |].
      rewrite index_drop in Hnl by lia.
      destruct (findNextLineBoundary_spec file (s + csize)) as (Hb & Hr & Hno); [lia|].
      set (r := findNextLineBoundary file (s + csize)) in *.
      assert (s + j <= r) as Hge.
      { destruct (decide (s + j <= r)); [done|].
        exfalso. apply (Hno (s + j)); [lia | done]. }
      assert (index (contents file) r = Some nl) as Hrnl by (apply Hr; lia).
      pose proof (index_Some_range _ _ _ Hrnl) as Hrange.
      destruct (IH r) as (fuel & rest & Hrest & Hal).
      * lia.
      * rewrite length_drop in Hn |- *. unfold len in *. lia.
      * replace (Z.to_nat r) with (Z.to_nat s + Z.to_nat (r - s))%nat by lia.
        rewrite <- drop_drop.
        apply Forall_lines_drop; [|unfold len; simpl; lia|done].
        rewrite index_drop by lia. by replace (s + (r - s)) with r by lia.
      * exists (S fuel), ((s, s + csize) :: rest). split.
        -- rewrite dispatch_loop_unfold. unfold next_start.
           rewrite add64_start by done.
           destruct (Z.ltb_spec s (len (contents file))); [|lia].
           destruct (Z.gtb_spec (s + csize) (len (contents file))); [lia|].
           fold r. by rewrite Hrest.
        -- apply (aligned_cons (contents file) csize s r); try done; lia.
Qed.
End Dispatch.

Lemma aligned_bytes_covered d csize s chunks :
  aligned d csize s chunks ->
  forall p, s <= p < len d -> exists range, range ∈ chunks /\ range.1 <= p < range.2.
Proof.
  induction 1 as [|s Hs Hend|s s' rest Hs Hmore Hs' Hnl Hno Hal IH]; intros p Hp.
  - lia.
  - exists (s, len d). split; [apply list_elem_of_here|simpl; lia].
  - destruct (decide (p < s + csize)) as [Hin|Hout].
    + exists (s, s + csize). split; [apply list_elem_of_here|simpl; lia].
    + destruct (IH p) as (range & Hrange & Hp'); [lia|].
      exists range. split; [by apply list_elem_of_further|done].
Qed.

Lemma aligned_line_whole d csize s chunks :
  aligned d csize s chunks ->
  forall a b, is_line d a b -> a < b -> s <= a ->
  exists range, range ∈ chunks /\ range.1 <= a /\ b <= range.2.
Proof.
  induction 1 as [|s Hs Hend|s s' rest Hs Hmore Hs' Hnl Hno Hal IH];
    intros a b Hline Hab Ha; pose proof Hline as (Ha0 & Hb & _ & _ & Hin).
  - lia.
  - exists (s, len d). split; [apply list_elem_of_here|simpl; lia].
  - destruct (decide (b <= s + csize)) as [Hfit|Hover].
    + exists (s, s + csize). split; [apply list_elem_of_here|simpl; lia].
    + assert (s' < a) as Hlt.
      { destruct (decide (s' < a)); [done|].
        exfalso. apply (Hin s'); [lia|done]. }
      destruct (IH a b) as (range & Hrange & Hr); [done|done|lia|].
      exists range. split; [by apply list_elem_of_further|done].
Qed.

(** C2, as the code has it. When every line is shorter than the chunk size,
    the dispatch loop ends and its ranges are aligned: each is [csize] bytes
    long and each next one starts at the last newline at or before the end of
    the one before, so consecutive ranges touch or overlap; every byte of the
    file lies in some range and every line lies whole in some range. *)
Theorem dispatched_ranges_cover (file : File) (csize : Z) :
  0 < csize ->
  len (contents file) + csize < 2 ^ 63 ->
  short_lines csize (contents file) ->
  exists fuel chunks,
    (forall fuel', (fuel <= fuel')%nat ->
       dispatch_loop fuel' csize file (len (contents file)) 0 = Some chunks) /\
    aligned (contents file) csize 0 chunks /\
    (forall p, 0 <= p < len (contents file) ->
       exists range, range ∈ chunks /\ range.1 <= p < range.2) /\
    (forall a b, is_line (contents file) a b -> a < b ->
       exists range, range ∈ chunks /\ range.1 <= a /\ b <= range.2).
Proof.
  intros HC Hov Hshort.
  destruct (dispatch_loop_aligned file csize HC Hov
              (length (contents file)) 0) as (fuel & chunks & Hd & Hal).
  - split; [lia | apply Nat2Z.is_nonneg].
  - rewrite length_drop. lia.
  - done.
  - exists fuel, chunks. split; [|split; [done|split]].
    + intros fuel' Hle. by apply (dispatch_loop_more_fuel fuel).
    + by apply (aligned_bytes_covered (contents file) csize 0).
    + intros a b Hline Hab.
      apply (aligned_line_whole (contents file) csize 0); try done.
      destruct Hline as (? & _). lia.
Qed.

Lemma dispatched_ranges_cover_witness :
  exists fuel chunks,
    (forall fuel', (fuel <= fuel')%nat ->
       dispatch_loop fuel' 8 two_lines (len (contents two_lines)) 0 = Some chunks) /\
    aligned (contents two_lines) 8 0 chunks /\
    (forall p, 0 <= p < len (contents two_lines) ->
       exists range, range ∈ chunks /\ range.1 <= p < range.2) /\
    (forall a b, is_line (contents two_lines) a b -> a < b ->
       exists range, range ∈ chunks /\ range.1 <= a /\ b <= range.2).
Proof.
  apply (dispatched_ranges_cover two_lines 8).
  - lia.
  - vm_compute. reflexivity.
  - unfold short_lines. vm_compute. repeat constructor.
Defined.

Lemma crossing_file_ranges :
  dispatch_loop 3 chunkSize crossing_file (len (contents crossing_file)) 0
  = Some [(0, 81920); (81914, 81922)].
Proof. vm_compute. reflexivity. Qed.

(** The ranges of [crossing_file] overlap in the bytes 81914 to 81919: the
    first range ends inside the second line, the second range starts at the
    newline before that line. *)
Lemma ranges_not_adjacent :
  ~ (forall file fuel chunks,
       dispatch_loop fuel chunkSize file (len (contents file)) 0 = Some chunks ->
       adjacent chunks).
Proof.
  intros H. specialize (H crossing_file 3%nat _ crossing_file_ranges).
  simpl in H. lia.
Qed.

(** ** Valid input *)

Lemma split_key_Some l k v :
  split_key l = Some (k, v) ->
  l = k ++ semi :: v /\ (semi ∉ k) /\
  strings_Index l semi = len k /\
  slice_to l (len k) = k /\ slice_from l (len k + 1) = v.
Proof.
  revert k. induction l as [|c r IH]; intros k; simpl; [done|].
  case_bool_decide as Hc.
  - intros [= <- <-]. subst c. repeat split; try done. apply not_elem_of_nil.
  - destruct (split_key r) as [[k' v']|] eqn:E; simpl; [|done].
    intros [= <- <-]. destruct (IH k' eq_refl) as (-> & Hk & Hi & Ht & Hd).
    unfold len, slice_to, slice_from in *.
    split; [done|]. split; [by apply not_elem_of_cons|].
    rewrite Hi. destruct (Z.ltb_spec (Z.of_nat (length k')) 0); [lia|].
    split; [simpl length; lia|].
    replace (Z.to_nat (Z.of_nat (length (c :: k')))) with (S (length k'))
      by (simpl; lia).
    replace (Z.to_nat (Z.of_nat (length (c :: k')) + 1)) with (S (length k' + 1))
      by (simpl; lia).
    rewrite Nat2Z.id in Ht.
    replace (Z.to_nat (Z.of_nat (length k') + 1)) with (length k' + 1)%nat in Hd by lia.
    simpl. by rewrite Ht, Hd.
Qed.

Lemma split_key_None l : split_key l = None -> strings_Index l semi = -1.
Proof.
  induction l as [|c r IH]; simpl; [done|].
  case_bool_decide; [done|].
  destruct (split_key r) as [[k v]|]; simpl; [done|].
  intros _. by rewrite IH.
Qed.

Lemma split_key_app k v : semi ∉ k -> split_key (k ++ semi :: v) = Some (k, v).
Proof.
  intros Hk. induction k as [|c k IH]; simpl.
  - reflexivity.
  - apply not_elem_of_cons in Hk as [Hc Hk].
    rewrite bool_decide_false by done. by rewrite IH.
Qed.

Lemma split_key_no_semi p : semi ∉ p -> split_key p = None.
Proof.
  intros Hp. induction p as [|c p IH]; simpl; [done|].
  apply not_elem_of_cons in Hp as [Hc Hp].
  rewrite bool_decide_false by done. by rewrite IH.
Qed.

Lemma strings_Trim_empty s : strings_Trim s [] = s.
Proof.
  assert (forall t, trim_left [] t = t) as H.
  { by intros [|c t]. }
  unfold strings_Trim. by rewrite !H, reverse_involutive.
Qed.

Lemma is_temp_complete v : is_temp v = true -> incomplete v = false.
Proof.
  unfold is_temp. intros H.
  destruct v as [|c0 [|c1 [|c2 [|c3 [|c4 [|c5 ?]]]]]]; simpl in H;
    repeat case_bool_decide; try done; digits_in_range; try done; subst;
    reflexivity.
Qed.

(** A value cut short never passes the completeness test. *)
Lemma is_temp_cut v n :
  is_temp v = true -> (n < length v)%nat -> incomplete (take n v) = true.
Proof.
  unfold is_temp. intros H Hn.
  destruct v as [|c0 [|c1 [|c2 [|c3 [|c4 [|c5 ?]]]]]]; simpl in H;
    repeat case_bool_decide; try done; digits_in_range; try done; subst;
    simpl in Hn;
    do 5 (try destruct n as [|n]); try lia; try reflexivity;
    unfold incomplete, index, len; simpl;
    rewrite bool_decide_false by congruence; reflexivity.
Qed.

Lemma processLine_empty : processLine [] = Some ([], None).
Proof. reflexivity. Qed.

Lemma processLine_nonempty l :
  l ≠ [] ->
  processLine l =
    let splitIndex := strings_Index l semi in
    if splitIndex =? -1 then Some ([], None)
    else
      let val := slice_from l (splitIndex + 1) in
      if incomplete val then Some ([], None)
      else temperature ← parseNumber val;
           Some (slice_to l splitIndex,
                 Some (mkLocation temperature temperature temperature 1)).
Proof.
  intros Hl. unfold processLine. rewrite strings_Trim_empty.
  by rewrite bool_decide_false.
Qed.

Lemma processLine_valid l k v :
  split_key l = Some (k, v) -> is_temp v = true ->
  processLine l = Some (k, Some (mkLocation (denoted_tenths v) (denoted_tenths v)
                                            (denoted_tenths v) 1)).
Proof.
  intros Hs Hv. destruct (split_key_Some l k v Hs) as (Hl & _ & Hi & Ht & Hd).
  rewrite processLine_nonempty by (rewrite Hl; by destruct k).
  cbv zeta. rewrite Hi, Ht, Hd.
  destruct (Z.eqb_spec (len k) (-1)); [unfold len in *; lia|].
  by rewrite is_temp_complete, parseNumber_tenths.
Qed.

(** The beginning of a valid line, cut before its end, is skipped. *)
Lemma processLine_cut p h :
  valid_line (p ++ h) = true -> h ≠ [] -> processLine p = Some ([], None).
Proof.
  unfold valid_line. intros Hv Hh.
  destruct (split_key (p ++ h)) as [[k v]|] eqn:Hs; [|done].
  destruct (split_key_Some _ k v Hs) as (Hl & Hk & _).
  destruct (decide (p = [])) as [->|Hp]; [done|].
  rewrite processLine_nonempty by done. cbv zeta.
  destruct (decide (length p <= length k)%nat) as [Hshort|Hlong].
  - assert (p = take (length p) k) as Hpk.
    { rewrite <- (take_app_le k (semi :: v)) by done.
      by rewrite <- Hl, take_app_length. }
    rewrite split_key_None; [done|]. apply split_key_no_semi.
    rewrite Hpk. intros (i & Hi & _)%elem_of_take. apply Hk.
    by eapply list_elem_of_lookup_2.
  - assert (p = k ++ semi :: take (length p - S (length k)) v /\
            (length p - S (length k) < length v)%nat) as [Hpv Hcut].
    { assert (length (p ++ h) = length (k ++ semi :: v)) as Hlen by by rewrite Hl.
      rewrite !length_app in Hlen. simpl in Hlen.
      assert (length h > 0)%nat by (destruct h; simpl; [done|lia]).
      split; [|lia].
      assert (p = take (length p) (k ++ semi :: v)) as HP
        by (rewrite <- Hl; by rewrite take_app_length).
      rewrite take_app_ge in HP by lia.
      by replace (length p - length k)%nat with (S (length p - S (length k)))
        in HP by lia. }
    pose proof (split_key_app k (take (length p - S (length k)) v) Hk) as Hsp.
    rewrite <- Hpv in Hsp.
    destruct (split_key_Some _ _ _ Hsp) as (_ & _ & Hi & _ & Hd).
    rewrite Hi, Hd.
    destruct (Z.eqb_spec (len k) (-1)); [unfold len in *; lia|].
    by rewrite is_temp_cut.
Qed.

(** ** Aggregation as a fold of observations *)

Lemma processLine_loc l k loc :
  processLine l = Some (k, Some loc) ->
  loc = mkLocation (Total loc) (Total loc) (Total loc) 1.
Proof.
  unfold processLine. repeat case_match; try done.
  destruct (parseNumber _); simpl; [|done]. by intros [= <- <-].
Qed.

Lemma accumulate_observe (m : gmap bytes Location) k t loc :
  m !! k = Some loc ->
  <[k := mkLocation (if Min loc >? t then t else Min loc)
                    (if Max loc <? t then t else Max loc)
                    (add64 (Total loc) t) (add64 (Count loc) 1)]> m
  = observe m (k, t).
Proof.
  intros Hk. unfold observe, single. simpl.
  rewrite <- (merge_entry_map [] m k (mkLocation t t t 1)).
  unfold merge_entry. by rewrite Hk.
Qed.

Lemma insert_observe (m : gmap bytes Location) k t :
  m !! k = None -> <[k := mkLocation t t t 1]> m = observe m (k, t).
Proof.
  intros Hk. unfold observe, single. simpl.
  rewrite <- (merge_entry_map [] m k (mkLocation t t t 1)).
  unfold merge_entry. by rewrite Hk.
Qed.

Lemma chunk_step_obs m l :
  is_Some (processLine l) -> chunk_step m l = Some (add_obs m (obs_of l)).
Proof.
  intros [[k [loc|]] H]; unfold chunk_step, obs_of; rewrite H; simpl; [|done].
  rewrite (processLine_loc l k loc H). simpl.
  destruct (m !! k) as [old|] eqn:Hk.
  - by rewrite accumulate_observe.
  - by rewrite insert_observe.
Qed.

Lemma chunk_loop_obs lines m :
  Forall (fun l => is_Some (processLine l)) lines ->
  chunk_loop lines m = Some (fold_left observe (omap obs_of lines) m).
Proof.
  intros H. revert m. induction H as [|l lines Hl _ IH]; intros m; simpl; [done|].
  rewrite chunk_step_obs by done. simpl. rewrite IH.
  by destruct (obs_of l).
Qed.

Lemma fold_observe_start obs m :
  fold_left observe obs m = merge_maps m (aggregate obs).
Proof.
  unfold aggregate. revert m. induction obs as [|o obs IH]; intros m; simpl.
  - by rewrite merge_maps_empty_r.
  - rewrite (IH (observe m o)), (IH (observe ∅ o)). unfold observe.
    by rewrite merge_maps_empty_l, merge_maps_assoc.
Qed.

Lemma aggregate_app obs1 obs2 :
  aggregate (obs1 ++ obs2) = merge_maps (aggregate obs1) (aggregate obs2).
Proof. unfold aggregate at 1. by rewrite fold_left_app, fold_observe_start. Qed.

Lemma obs_of_valid l k v :
  split_key l = Some (k, v) -> is_temp v = true ->
  obs_of l = Some (k, denoted_tenths v).
Proof. intros Hs Hv. unfold obs_of. by rewrite (processLine_valid l k v). Qed.

Lemma processLine_no_semi l : split_key l = None -> processLine l = Some ([], None).
Proof.
  intros Hs. destruct (decide (l = [])) as [->|Hl]; [done|].
  rewrite processLine_nonempty by done. cbv zeta.
  by rewrite split_key_None.
Qed.

Lemma seq_ok_processLine l : seq_ok l -> is_Some (processLine l).
Proof.
  unfold seq_ok, valid_line. intros [Hv|Hn].
  - destruct (split_key l) as [[k v]|] eqn:Hs; [|done].
    rewrite (processLine_valid l k v); eauto.
  - rewrite processLine_no_semi; eauto.
Qed.

Lemma file_step_obs locations m l :
  seq_ok l ->
  exists locations',
    file_step (locations, m) l = Some (locations', add_obs m (obs_of l)).
Proof.
  unfold seq_ok, valid_line. intros [Hv|Hn].
  - destruct (split_key l) as [[k v]|] eqn:Hs; [|done].
    destruct (split_key_Some l k v Hs) as (_ & _ & Hi & Ht & Hd).
    rewrite (obs_of_valid l k v) by done. unfold file_step.
    rewrite Hi, Ht, Hd.
    destruct (Z.eqb_spec (len k) (-1)); [unfold len in *; lia|].
    rewrite parseNumber_tenths by done. simpl.
    destruct (m !! k) as [old|] eqn:Hk.
    + eexists. by rewrite accumulate_observe.
    + eexists. by rewrite insert_observe.
  - exists locations. unfold file_step. rewrite split_key_None by done. simpl.
    unfold obs_of. by rewrite processLine_no_semi.
Qed.

Lemma file_loop_obs lines locations m :
  Forall seq_ok lines ->
  exists locations',
    file_loop lines (locations, m)
    = Some (locations', fold_left observe (omap obs_of lines) m).
Proof.
  intros H. revert locations m.
  induction H as [|l lines Hl _ IH]; intros locations m; cbn [file_loop].
  { simpl. eauto. }
  destruct (file_step_obs locations m l Hl) as [locations1 ->].
  cbn [mbind option_bind].
  destruct (IH locations1 (add_obs m (obs_of l))) as [locations2 ->].
  exists locations2. cbn [omap list_omap]. by destruct (obs_of l).
Qed.

(** ** One chunk *)

Lemma chunk_ok_processLine l : chunk_ok l -> is_Some (processLine l).
Proof.
  intros [->|Hv]; [by eexists|]. apply seq_ok_processLine. by left.
Qed.

Lemma processChunk_obs input :
  Forall (fun l => is_Some (processLine l)) (strings_Split input nl) ->
  processChunk input = Some (aggregate (omap obs_of (strings_Split input nl))).
Proof. intros H. unfold processChunk. by rewrite chunk_loop_obs. Qed.

(** A chunk of [c] bytes cut from a text [u] whose last newline at or before
    offset [c] is at offset [j]: the worker aggregates the lines before that
    newline and skips the cut line after it. *)
Lemma chunk_cut_obs (u : bytes) (j c : nat) :
  u !! j = Some nl -> (j <= c)%nat -> (c < length u)%nat ->
  (forall i, (j < i <= c)%nat -> u !! i ≠ Some nl) ->
  Forall chunk_ok (strings_Split u nl) ->
  processChunk (take c u)
  = Some (aggregate (omap obs_of (strings_Split (take j u) nl))) /\
  omap obs_of (strings_Split u nl)
  = omap obs_of (strings_Split (take j u) nl)
    ++ omap obs_of (strings_Split (drop j u) nl).
Proof.
  intros Hj Hjc Hc Hno Hok.
  set (a := take j u). set (b := drop (S j) u).
  assert (u = a ++ nl :: b) as Hu by (symmetry; by apply take_drop_middle).
  assert (length a = j) as Ha by (unfold a; rewrite length_take; lia).
  assert (drop j u = nl :: b) as Hdrop by by apply drop_S.
  assert (strings_Split u nl = strings_Split a nl ++ strings_Split b nl) as Hsplit
    by (rewrite Hu at 1; apply strings_Split_app_sep).
  rewrite Hsplit in Hok |- *. apply Forall_app in Hok as [Hoka Hokb].
  split.
  - assert (take c u = a ++ take (c - j) (nl :: b)) as Hchunk.
    { rewrite Hu at 1. rewrite take_app_ge by lia. by rewrite Ha. }
    destruct (c - j)%nat as [|k] eqn:Hk.
    + rewrite Hchunk. simpl. rewrite app_nil_r.
      apply processChunk_obs. eapply list.Forall_impl; [exact Hoka|].
      apply chunk_ok_processLine.
    + simpl in Hchunk.
      assert (forall i, (i <= k)%nat -> b !! i ≠ Some nl) as Hnob.
      { intros i Hi. unfold b. rewrite lookup_drop. apply Hno. lia. }
      assert (nl ∉ take k b) as Hp.
      { intros (i & Hi & Hlt)%elem_of_take. by apply (Hnob i); [lia|]. }
      destruct (b !! k) as [x|] eqn:Hx; cycle 1.
      { apply lookup_ge_None in Hx. unfold b in Hx. rewrite length_drop in Hx. lia. }
      assert (x ≠ nl) as Hxnl by (intros ->; by apply (Hnob k)).
      assert (exists h t, strings_Split (drop k b) nl = (x :: h) :: t) as (h & t & Hq).
      { rewrite (drop_S _ _ _ Hx). simpl. rewrite bool_decide_false by done.
        pose proof (strings_Split_nonempty (drop (S k) b) nl).
        destruct (strings_Split (drop (S k) b) nl); [done|]. eauto. }
      assert (strings_Split b nl = (take k b ++ x :: h) :: t) as Hb.
      { rewrite <- (take_drop k b) at 1. by apply strings_Split_prefix. }
      assert (processLine (take k b) = Some ([], None)) as Hcut.
      { apply (processLine_cut _ (x :: h)); [|done].
        rewrite Hb in Hokb. apply list.Forall_cons in Hokb as [[Hnil|Hv] _]; [|done].
        by destruct (take k b). }
      rewrite Hchunk, processChunk_obs.
      * rewrite strings_Split_app_sep, (strings_Split_no_sep (take k b)) by done.
        rewrite omap_app. simpl. unfold obs_of at 2. rewrite Hcut.
        by rewrite app_nil_r.
      * rewrite strings_Split_app_sep, (strings_Split_no_sep (take k b)) by done.
        apply Forall_app. split.
        -- eapply list.Forall_impl; [exact Hoka|]. apply chunk_ok_processLine.
        -- constructor; [|constructor]. rewrite Hcut. by eexists.
  - rewrite omap_app. f_equal. by rewrite Hdrop.
Qed.

(** ** All chunks *)

Lemma ReadAt_range file n s :
  0 <= s -> 0 <= n -> s + n <= len (contents file) ->
  ReadAt file n s = (take (Z.to_nat n) (drop (Z.to_nat s) (contents file)), None).
Proof.
  intros Hs Hn Hlen. unfold ReadAt, len in *.
  destruct (Z.ltb_spec s 0); [lia|].
  rewrite length_take, length_drop.
  destruct (Z.ltb_spec (Z.of_nat (Z.to_nat n `min` (length (contents file) - Z.to_nat s))) n);
    [lia|done].
Qed.

Lemma omap_id_Some {A} (l : list A) : omap id (Some <$> l) = l.
Proof. induction l as [|x l IH]; simpl; [done|]. f_equal. exact IH. Qed.

Lemma obs_of_nil : obs_of [] = None.
Proof. reflexivity. Qed.

Lemma index_lookup (s : bytes) i : 0 <= i -> index s i = s !! Z.to_nat i.
Proof. intros Hi. unfold index. by destruct (Z.ltb_spec i 0); [lia|]. Qed.

(** The workers of aligned ranges over a text of valid (or empty) lines all
    send a map, and the merge of these maps is the aggregate of all lines. *)
Lemma workers_aggregate file csize s chunks :
  aligned (contents file) csize s chunks ->
  0 < csize -> 0 <= s ->
  Forall chunk_ok (strings_Split (drop (Z.to_nat s) (contents file)) nl) ->
  exists ms,
    mapM (worker file) chunks = Some (Some <$> ms) /\
    fold_left merge_maps ms ∅
    = aggregate (omap obs_of (strings_Split (drop (Z.to_nat s) (contents file)) nl)).
Proof.
  intros Hal HC.
  induction Hal as [|s Hs Hend|s s' rest Hs Hmore Hs' Hnl Hno Hal IH]; intros Hs0 Hok.
  - exists []. split; [done|].
    rewrite drop_ge by (unfold len; lia). done.
  - set (u := drop (Z.to_nat s) (contents file)) in *.
    exists [aggregate (omap obs_of (strings_Split u nl))]. split.
    + cbn [mapM]. unfold worker.
      destruct (Z.ltb_spec (len (contents file) - s) 0); [lia|].
      rewrite ReadAt_range by lia.
      rewrite take_ge by (rewrite length_drop; unfold len; lia).
      fold u. rewrite processChunk_obs; [done|].
      eapply list.Forall_impl; [exact Hok|]. apply chunk_ok_processLine.
    + simpl. by rewrite merge_maps_empty_l.
  - set (u := drop (Z.to_nat s) (contents file)) in *.
    assert (drop (Z.to_nat s') (contents file) = drop (Z.to_nat (s' - s)) u) as Hu'.
    { unfold u. rewrite drop_drop. f_equal. lia. }
    assert (u !! Z.to_nat (s' - s) = Some nl) as Hj.
    { unfold u. rewrite lookup_drop. rewrite index_lookup in Hnl by lia.
      rewrite <- Hnl. f_equal. lia. }
    destruct (chunk_cut_obs u (Z.to_nat (s' - s)) (Z.to_nat csize)) as (Hchunk & Hobs);
      [done | lia | unfold u; rewrite length_drop; unfold len in *; lia | | done |].
    { intros i Hi. unfold u. rewrite lookup_drop.
      specialize (Hno (s + Z.of_nat i)). rewrite index_lookup in Hno by lia.
      replace (Z.to_nat s + i)%nat with (Z.to_nat (s + Z.of_nat i)) by lia.
      apply Hno. lia. }
    destruct IH as (ms & Hms & Hfold); [lia | |].
    { rewrite Hu'. apply Forall_lines_drop; [|by left|done].
      rewrite index_lookup by lia. done. }
    exists (aggregate (omap obs_of (strings_Split (take (Z.to_nat (s' - s)) u) nl)) :: ms).
    split.
    + cbn [mapM]. rewrite Hms. unfold worker at 1.
      replace (s + csize - s) with csize by lia.
      destruct (Z.ltb_spec csize 0); [lia|].
      rewrite ReadAt_range by lia. fold u. rewrite Hchunk. done.
    + simpl. rewrite fold_merge_maps_start, merge_maps_empty_l, Hfold.
      rewrite <- aggregate_app. f_equal. rewrite Hobs. by rewrite Hu'.
Qed.

(** ** The sequential scan *)

Lemma text_lines_split data :
  strings_Split data nl = text_lines data \/
  strings_Split data nl = text_lines data ++ [[]].
Proof.
  unfold text_lines.
  destruct (reverse (strings_Split data nl)) as [|[|c l] r] eqn:E; auto.
  right. rewrite <- (reverse_involutive (strings_Split data nl)), E.
  by rewrite reverse_cons.
Qed.

Lemma obs_of_text_lines data :
  omap obs_of (strings_Split data nl) = omap obs_of (text_lines data).
Proof.
  destruct (text_lines_split data) as [-> | ->]; [done|].
  rewrite omap_app. cbn [omap list_omap]. rewrite obs_of_nil.
  by rewrite app_nil_r.
Qed.

Lemma valid_file_lines data :
  valid_file data = true -> Forall (fun l => valid_line l = true) (text_lines data).
Proof.
  unfold valid_file. intros H. apply list.Forall_forall. intros l Hl.
  rewrite forallb_forall in H. apply H. by apply list_elem_of_In.
Qed.

Lemma valid_file_chunk_ok data :
  valid_file data = true -> Forall chunk_ok (strings_Split data nl).
Proof.
  intros H%valid_file_lines.
  assert (Forall chunk_ok (text_lines data)) as Hok
    by (eapply list.Forall_impl; [exact H|]; by right).
  destruct (text_lines_split data) as [-> | ->]; [done|].
  apply Forall_app. split; [done|]. constructor; [by left|constructor].
Qed.

Lemma is_temp_last v :
  is_temp v = true -> exists v' c, v = v' ++ [c] /\ is_digit c = true.
Proof.
  unfold is_temp. intros H.
  destruct v as [|c0 [|c1 [|c2 [|c3 [|c4 [|c5 ?]]]]]]; simpl in H;
    repeat case_bool_decide; try done;
    repeat (apply andb_true_iff in H as [H ?]); try done.
  - by exists [c0; c1], c2.
  - by exists [c0; c1; c2], c3.
  - by exists [c0; c1; c2], c3.
  - by exists [c0; c1; c2; c3], c4.
Qed.

Lemma dropCR_valid l : valid_line l = true -> dropCR l = l.
Proof.
  unfold valid_line. intros H.
  destruct (split_key l) as [[k v]|] eqn:Hs; [|done].
  destruct (split_key_Some l k v Hs) as (-> & _).
  destruct (is_temp_last v H) as (v' & c & -> & Hc).
  unfold dropCR.
  replace (k ++ semi :: v' ++ [c]) with ((k ++ semi :: v') ++ [c])
    by (by rewrite <- app_assoc).
  rewrite reverse_snoc. rewrite bool_decide_false; [done|].
  intros ->. by vm_compute in Hc.
Qed.

Lemma scan_tokens_valid lines :
  Forall (fun l => valid_line l = true) lines ->
  Forall (fun l => len l < MaxScanTokenSize) lines ->
  scan_tokens lines = (lines, None).
Proof.
  induction 1 as [|l lines Hl _ IH]; intros Hshort; simpl; [done|].
  apply list.Forall_cons in Hshort as [Hlen Hshort].
  destruct (Z.leb_spec MaxScanTokenSize (len l)); [lia|].
  by rewrite IH, dropCR_valid.
Qed.

Lemma short_text_lines csize data :
  short_lines csize data -> Forall (fun l => len l < csize) (text_lines data).
Proof.
  unfold short_lines. destruct (text_lines_split data) as [-> | ->]; [done|].
  by intros [H _]%Forall_app.
Qed.

(** On a valid file within the scanner's limit, [parseFile] returns the
    aggregate of all lines and no error. *)
Lemma parseFile_valid data :
  valid_file data = true ->
  short_lines MaxScanTokenSize data ->
  exists locations,
    parseFile data
    = Some (locations, aggregate (omap obs_of (text_lines data)), None).
Proof.
  intros Hvalid%valid_file_lines Hshort%short_text_lines.
  unfold parseFile, scanner. rewrite scan_tokens_valid by done.
  destruct (file_loop_obs (text_lines data) [] ∅) as [locations ->].
  - eapply list.Forall_impl; [exact Hvalid|]. by left.
  - by exists locations.
Qed.

(** ** The two modes *)

Lemma keys_match_sorted (l1 l2 : list bytes) (m : gmap bytes Location) :
  keys_match (l1, m) -> keys_match (l2, m) -> sort_Strings l1 = sort_Strings l2.
Proof.
  intros [Hnd1 Hdom1] [Hnd2 Hdom2]; simpl in *.
  apply (StronglySorted_unique bytes_le).
  - apply StronglySorted_merge_sort; apply _.
  - apply StronglySorted_merge_sort; apply _.
  - unfold sort_Strings. rewrite !merge_sort_Permutation.
    apply NoDup_Permutation; [done..|]. intros k. by rewrite Hdom1, Hdom2.
Qed.

Lemma createResult_keys (l1 l2 : list bytes) (m : gmap bytes Location) :
  keys_match (l1, m) -> keys_match (l2, m) -> createResult l1 m = createResult l2 m.
Proof.
  intros H1 H2. unfold createResult. by rewrite (keys_match_sorted l1 l2 m).
Qed.

Lemma parseFileWithConcurrency_valid file csize ctx sched :
  0 < csize ->
  len (contents file) + csize < 2 ^ 63 ->
  stat_fails file = false ->
  cancelled ctx = false ->
  valid_file (contents file) = true ->
  short_lines csize (contents file) ->
  exists fuel locations,
    forall fuel', (fuel <= fuel')%nat ->
      parseFileWithConcurrency fuel' csize ctx sched file
      = Returns (locations, aggregate (omap obs_of (text_lines (contents file))), None).
Proof.
  intros HC Hov Hstat Hctx Hvalid Hshort.
  destruct (dispatch_loop_aligned file csize HC Hov (length (contents file)) 0)
    as (fuel & chunks & Hd & Hal);
    [split; [lia | apply Nat2Z.is_nonneg] | rewrite length_drop; lia | done |].
  destruct (workers_aggregate file csize 0 chunks Hal HC) as (ms & Hms & Hfold);
    [lia | by apply valid_file_chunk_ok |].
  change (drop (Z.to_nat 0) (contents file)) with (contents file) in Hfold.
  rewrite obs_of_text_lines in Hfold.
  set (res := select_loop ctx sched 0 (shuffle (arrival sched) ms) ([], ∅)).
  destruct (select_loop_uncancelled ctx sched 0 (shuffle (arrival sched) ms) ([], ∅) Hctx)
    as [Herr Hmap].
  fold res in Herr, Hmap.
  exists fuel, res.1.1. intros fuel' Hle.
  unfold parseFileWithConcurrency, lineOrchestrator, Stat. rewrite Hstat.
  rewrite (dispatch_loop_more_fuel _ _ _ _ _ _ Hd fuel' Hle), Hms, omap_id_Some.
  fold res. f_equal. destruct res as [[locations m] err]; simpl in *.
  subst err. f_equal. f_equal. rewrite Hmap, <- Hfold.
  apply fold_merge_maps_Permutation, shuffle_Permutation.
Qed.

(** X1. On a valid file whose lines fit the scanner's buffer and on which
    [Stat] succeeds, the sequential run returns a string [out]; and for
    every chunk size above the longest line, every schedule and every
    uncancelled context, the concurrent run returns the same [out] once the
    fuel suffices. *)
Theorem run_modes_agree (file : File) :
  stat_fails file = false ->
  valid_file (contents file) = true ->
  short_lines MaxScanTokenSize (contents file) ->
  exists out,
    (forall fuel csize ctx sched,
       run fuel csize ctx sched (Some file) false = Returns (out, None)) /\
    (forall csize ctx sched,
       0 < csize ->
       len (contents file) + csize < 2 ^ 63 ->
       short_lines csize (contents file) ->
       cancelled ctx = false ->
       exists fuel, forall fuel', (fuel <= fuel')%nat ->
         run fuel' csize ctx sched (Some file) true = Returns (out, None)).
Proof.
  intros Hstat Hvalid Hscan.
  destruct (parseFile_valid (contents file) Hvalid Hscan) as [locs Hseq].
  pose proof (parseFile_keys_match _ _ _ Hseq) as Hkeys.
  exists (createResult locs (aggregate (omap obs_of (text_lines (contents file))))).1.
  split.
  - intros fuel csize ctx sched. unfold run. rewrite Hseq.
    rewrite createResult_text by done. reflexivity.
  - intros csize ctx sched HC Hov Hshort Hctx.
    destruct (parseFileWithConcurrency_valid file csize ctx sched)
      as (fuel & locs' & Hconc); try done.
    exists fuel. intros fuel' Hle. unfold run. rewrite (Hconc fuel' Hle).
    pose proof (parseFileWithConcurrency_keys_match _ _ _ _ _ _ _ _ (Hconc fuel' Hle))
      as Hkeys'.
    rewrite (createResult_keys locs' locs) by done.
    rewrite createResult_text by done. reflexivity.
Qed.

Lemma run_modes_agree_witness :
  exists out,
    (forall fuel csize ctx sched,
       run fuel csize ctx sched (Some sample_file) false = Returns (out, None)) /\
    (forall csize ctx sched,
       0 < csize ->
       len (contents sample_file) + csize < 2 ^ 63 ->
       short_lines csize (contents sample_file) ->
       cancelled ctx = false ->
       exists fuel, forall fuel', (fuel <= fuel')%nat ->
         run fuel' csize ctx sched (Some sample_file) true = Returns (out, None)).
Proof.
  apply (run_modes_agree sample_file).
  - reflexivity.
  - vm_compute. reflexivity.
  - unfold short_lines. vm_compute. repeat constructor.
Defined.

Lemma long_line_file_valid : valid_file (contents long_line_file) = true.
Proof.
  unfold valid_file, long_line_file, contents.
  assert (nl ∉ long_key) as Hnl.
  { unfold long_key. intros H%elem_of_replicate_inv. discriminate H. }
  assert (semi ∉ long_key) as Hsemi.
  { unfold long_key. intros H%elem_of_replicate_inv. discriminate H. }
  assert (text_lines (long_key ++ str ";1.0" ++ [nl]) = [long_key ++ str ";1.0"]) as ->.
  { unfold text_lines.
    replace (long_key ++ str ";1.0" ++ [nl]) with ((long_key ++ str ";1.0") ++ nl :: [])
      by (by rewrite <- app_assoc).
    rewrite strings_Split_app_sep.
    rewrite (strings_Split_prefix long_key (str ";1.0") nl (str ";1.0") []) by done.
    reflexivity. }
  cbn [forallb]. unfold valid_line.
  change (str ";1.0") with (semi :: str "1.0").
  rewrite split_key_app by done. reflexivity.
Qed.

(** C1. On the valid file whose one line is longer than [chunkSize] the two
    modes do not return the same string: the concurrent run does not return
    at all, whatever the fuel, the context and the schedule. *)
Theorem modes_differ_on_long_line :
  valid_file (contents long_line_file) = true /\
  forall fuel ctx sched,
    run fuel chunkSize ctx sched (Some long_line_file) true
    ≠ run fuel chunkSize ctx sched (Some long_line_file) false.
Proof.
  split; [exact long_line_file_valid|].
  intros fuel ctx sched. rewrite long_line_run_none.
  unfold run. destruct (parseFile (contents long_line_file)) as [[[? ?] [?|]]|];
    discriminate.
Qed.

(** The sequential run on the same file ends with the scanner's error: the
    line is also longer than the scanner's buffer. *)
Lemma long_line_file_sequential fuel csize ctx sched :
  run fuel csize ctx sched (Some long_line_file) false = Returns ([], Some ErrTooLong).
Proof.
  assert (nl ∉ long_key) as Hnl.
  { unfold long_key. intros H%elem_of_replicate_inv. discriminate H. }
  assert (text_lines (long_key ++ str ";1.0" ++ [nl]) = [long_key ++ str ";1.0"]) as E.
  { unfold text_lines.
    replace (long_key ++ str ";1.0" ++ [nl]) with ((long_key ++ str ";1.0") ++ nl :: [])
      by (by rewrite <- app_assoc).
    rewrite strings_Split_app_sep.
    rewrite (strings_Split_prefix long_key (str ";1.0") nl (str ";1.0") []) by done.
    reflexivity. }
  unfold run, parseFile, scanner, long_line_file, contents. rewrite E.
  cbn [scan_tokens].
  destruct (Z.leb_spec MaxScanTokenSize (len (long_key ++ str ";1.0"))) as [_|Hshort];
    [reflexivity|].
  unfold len in Hshort. rewrite length_app, long_key_length in Hshort.
  unfold MaxScanTokenSize, chunkSize in Hshort. cbn [length str list_ascii_of_string] in Hshort.
  lia.
Qed.

(** ** Floating point: the quotient of two integers *)

Lemma digits2_pos_bounds p : 2 ^ (Z.pos (digits2_pos p) - 1) <= Z.pos p < 2 ^ Z.pos (digits2_pos p).
Proof.
  induction p as [p IH|p IH|]; simpl digits2_pos.
  - rewrite Pos2Z.inj_succ. replace (Z.succ (Z.pos (digits2_pos p)) - 1) with (Z.pos (digits2_pos p)) by lia.
    rewrite Z.pow_succ_r by lia.
    assert (2 ^ Z.pos (digits2_pos p) = 2 * 2 ^ (Z.pos (digits2_pos p) - 1)) as E.
    { rewrite <- Z.pow_succ_r by lia. f_equal. lia. }
    lia.
  - rewrite Pos2Z.inj_succ. replace (Z.succ (Z.pos (digits2_pos p)) - 1) with (Z.pos (digits2_pos p)) by lia.
    rewrite Z.pow_succ_r by lia.
    assert (2 ^ Z.pos (digits2_pos p) = 2 * 2 ^ (Z.pos (digits2_pos p) - 1)) as E.
    { rewrite <- Z.pow_succ_r by lia. f_equal. lia. }
    lia.
  - simpl. lia.
Qed.

Lemma digits2_pos_unique p d : 2 ^ (d - 1) <= Z.pos p < 2 ^ d -> 0 < d -> Z.pos (digits2_pos p) = d.
Proof.
  intros H Hd. pose proof (digits2_pos_bounds p) as B.
  destruct (Z.lt_trichotomy (Z.pos (digits2_pos p)) d) as [Hlt|[->|Hgt]]; [|reflexivity|].
  - assert (2 ^ Z.pos (digits2_pos p) <= 2 ^ (d - 1)) by (apply Z.pow_le_mono_r; lia). lia.
  - assert (2 ^ d <= 2 ^ (Z.pos (digits2_pos p) - 1)) by (apply Z.pow_le_mono_r; lia). lia.
Qed.

Lemma iter_xO p d : Z.pos (Pos.iter xO p d) = Z.pos p * 2 ^ Z.pos d.
Proof.
  rewrite <- Pos2Z.inj_pow. 
  revert p. induction d using Pos.peano_ind; intros p.
  - simpl. lia.
  - rewrite Pos.iter_succ. rewrite Pos2Z.inj_xO, IHd.
    rewrite Pos.pow_succ_r. lia.
Qed.

Lemma shr_fexp_53 m e l :
  Z.pos (digits2_pos m) = 53 -> -1074 <= e ->
  shr_fexp 53 1024 (Z.pos m) e l = (shr_record_of_loc (Z.pos m) l, e).
Proof.
  intros Hd He. unfold shr_fexp, fexp, emin. cbn [Zdigits2]. rewrite Hd.
  replace (Z.max (53 + e - 53) (3 - 1024 - 53) - e) with 0 by lia.
  reflexivity.
Qed.

Lemma shr_fexp_54 m e l :
  Z.pos (digits2_pos m) = 54 -> -1075 <= e ->
  shr_fexp 53 1024 (Z.pos m) e l = (shr_1 (shr_record_of_loc (Z.pos m) l), e + 1).
Proof.
  intros Hd He. unfold shr_fexp, fexp, emin. cbn [Zdigits2]. rewrite Hd.
  replace (Z.max (54 + e - 53) (3 - 1024 - 53) - e) with 1 by lia.
  reflexivity.
Qed.

Lemma loc_of_shr_record_of_loc m l : loc_of_shr_record (shr_record_of_loc m l) = l.
Proof. destruct l as [|[| |]]; reflexivity. Qed.

Lemma shr_m_of_loc m l : shr_m (shr_record_of_loc m l) = m.
Proof. destruct l as [|[| |]]; reflexivity. Qed.

Lemma bra_exact s m e :
  Z.pos (digits2_pos m) = 53 -> -1074 <= e <= 971 ->
  binary_round_aux 53 1024 s (Z.pos m) e loc_Exact = S754_finite s m e.
Proof.
  intros Hd He. unfold binary_round_aux.
  rewrite shr_fexp_53 by (assumption || lia). cbn [shr_record_of_loc shr_m loc_of_shr_record round_nearest_even].
  rewrite shr_fexp_53 by (assumption || lia). cbn [shr_record_of_loc shr_m].
  destruct (Z.leb_spec e (1024 - 53)); [reflexivity|lia].
Qed.

(** The float of a positive integer below 2^53, behind the sign [s]. *)
Lemma binary_round_int s p :
  Z.pos p < 2 ^ 53 ->
  exists m, binary_round 53 1024 s p 0
            = S754_finite s m (Z.pos (digits2_pos p) - 53) /\
            Z.pos m = Z.pos p * 2 ^ (53 - Z.pos (digits2_pos p)) /\
            Z.pos (digits2_pos m) = 53.
Proof.
  intros Hp. pose proof (digits2_pos_bounds p) as B.
  set (t := Z.pos (digits2_pos p)) in *.
  assert (1 <= t <= 53) as Ht.
  { split; [unfold t; lia|].
    destruct (Z.le_gt_cases t 53); [assumption|].
    assert (2 ^ 53 <= 2 ^ (t - 1)) by (apply Z.pow_le_mono_r; lia). lia. }
  unfold binary_round, shl_align, fexp, emin.
  fold t. replace (Z.max (t + 0 - 53) (3 - 1024 - 53) - 0) with (t - 53) by lia.
  replace (Z.max (t + 0 - 53) (3 - 1024 - 53)) with (t - 53) by lia.
  destruct (t - 53) as [|d|d] eqn:E; [|lia|].
  - exists p. rewrite bra_exact by (fold t; lia).
    split; [reflexivity|]. split; [|fold t; lia].
    replace (53 - t) with 0 by lia. lia.
  - exists (Pos.iter xO p d).
    assert (Z.pos (Pos.iter xO p d) = Z.pos p * 2 ^ (53 - t)) as Hm.
    { rewrite iter_xO. f_equal. f_equal. lia. }
    assert (Z.pos (digits2_pos (Pos.iter xO p d)) = 53) as Hd.
    { apply digits2_pos_unique; [|lia]. rewrite Hm.
      assert (2 ^ (53 - 1) = 2 ^ (t - 1) * 2 ^ (53 - t)) as E1
        by (rewrite <- Z.pow_add_r by lia; f_equal; lia).
      assert (2 ^ 53 = 2 ^ t * 2 ^ (53 - t)) as E2
        by (rewrite <- Z.pow_add_r by lia; f_equal; lia).
      rewrite E1, E2.
      assert (0 < 2 ^ (53 - t)) by (apply Z.pow_pos_nonneg; lia). nia. }
    rewrite bra_exact by (assumption || lia).
    split; [reflexivity|]. split; assumption.
Qed.

Lemma new_location_spec n k :
  0 < n -> 0 <= k < n ->
  new_location n k = if k =? 0 then loc_Exact else loc_Inexact (2 * k ?= n).
Proof.
  intros Hn Hk. unfold new_location.
  destruct (Z.even n) eqn:Heven.
  - reflexivity.
  - unfold new_location_odd. destruct (Z.eqb_spec k 0); [reflexivity|].
    f_equal.
    assert (Z.odd n = true) as Hodd by (rewrite <- Z.negb_even, Heven; reflexivity).
    apply Z.odd_spec in Hodd as [j Hj].
    destruct (Z.compare_spec (2 * k + 1) n), (Z.compare_spec (2 * k) n);
      try reflexivity; lia.
Qed.

Lemma div_core m1 e1 m2 e2 :
  Z.pos (digits2_pos m1) = 53 -> Z.pos (digits2_pos m2) = 53 ->
  -60 <= e1 - e2 <= 60 ->
  SFdiv_core_binary 53 1024 (Z.pos m1) e1 (Z.pos m2) e2
  = (Z.pos m1 * 2 ^ 53 / Z.pos m2, e1 - e2 - 53,
     new_location (Z.pos m2) ((Z.pos m1 * 2 ^ 53) mod Z.pos m2)).
Proof.
  intros H1 H2 He. unfold SFdiv_core_binary, fexp, emin. cbn [Zdigits2].
  rewrite H1, H2.
  replace (Z.min (Z.max (53 + e1 - (53 + e2) - 53) (3 - 1024 - 53)) (e1 - e2))
    with (e1 - e2 - 53) by lia.
  replace (e1 - e2 - (e1 - e2 - 53)) with 53 by lia.
  rewrite Z.shiftl_mul_pow2 by lia.
  unfold Z.div, Z.modulo.
  destruct (Z.div_eucl (Z.pos m1 * 2 ^ 53) (Z.pos m2)) as [q r]. reflexivity.
Qed.

(** [(2m + den) / (2 den)]: [m / den] rounded to the nearest integer, halves up. *)
Lemma half_up_div m den :
  0 < den ->
  (if den <=? 2 * (m mod den) then m / den + 1 else m / den) = (2 * m + den) / (2 * den).
Proof.
  intros Hden. pose proof (Z.div_mod m den ltac:(lia)) as Hdm.
  pose proof (Z.mod_pos_bound m den Hden) as Hr.
  destruct (Z.leb_spec den (2 * (m mod den))).
  - apply (Z.div_unique_pos _ _ _ (2 * (m mod den) - den)); lia.
  - apply (Z.div_unique_pos _ _ _ (2 * (m mod den) + den)); lia.
Qed.

Lemma digits_53 q : 2 ^ 52 <= q < 2 ^ 53 -> exists p, q = Z.pos p /\ Z.pos (digits2_pos p) = 53.
Proof.
  intros H. destruct q as [|p|p]; try lia.
  exists p. split; [reflexivity|]. apply digits2_pos_unique; lia.
Qed.

Lemma digits_54 q : 2 ^ 53 <= q < 2 ^ 54 -> exists p, q = Z.pos p /\ Z.pos (digits2_pos p) = 54.
Proof.
  intros H. destruct q as [|p|p]; try lia.
  exists p. split; [reflexivity|]. apply digits2_pos_unique; lia.
Qed.

Lemma finish_spec s M e :
  2 ^ 52 <= M <= 2 ^ 53 -> -1074 <= e <= 900 ->
  exists m ef, finish s M e = S754_finite s m ef /\
    ((Z.pos m = M /\ ef = e) \/ (2 * Z.pos m = M /\ ef = e + 1)).
Proof.
  intros HM He. unfold finish.
  destruct (Z.eq_dec M (2 ^ 53)) as [->|Hne].
  - destruct (digits_54 (2 ^ 53)) as (p & Hp & Hd); [lia|].
    rewrite Hp, shr_fexp_54 by (assumption || lia).
    injection Hp as <-. cbn [shr_record_of_loc shr_1 shr_m].
    destruct (Z.leb_spec (e + 1) (1024 - 53)); [|lia].
    eexists _, _. split; [reflexivity|]. right. split; reflexivity.
  - destruct (digits_53 M) as (p & -> & Hd); [lia|].
    rewrite shr_fexp_53 by (assumption || lia). cbn [shr_record_of_loc shr_m].
    destruct (Z.leb_spec e (1024 - 53)); [|lia].
    eexists _, _. split; [reflexivity|]. left. split; reflexivity.
Qed.

Lemma binary_round_aux_finish s q e l :
  binary_round_aux 53 1024 s q e l =
  let '(mrs, e') := shr_fexp 53 1024 q e l in
  finish s (round_nearest_even (shr_m mrs) (loc_of_shr_record mrs)) e'.
Proof. reflexivity. Qed.

Lemma round_nearest_even_range q l :
  (round_nearest_even q l = q /\
   (l = loc_Exact \/ l = loc_Inexact Lt \/ l = loc_Inexact Eq)) \/
  (round_nearest_even q l = q + 1 /\ (l = loc_Inexact Eq \/ l = loc_Inexact Gt)).
Proof. destruct l as [|[| |]]; simpl; auto 6. destruct (Z.even q); auto 6. Qed.

Lemma shr_1_round p l :
  let mrs := shr_1 (shr_record_of_loc (Z.pos p) l) in
  let M := round_nearest_even (shr_m mrs) (loc_of_shr_record mrs) in
  (M = Z.pos p / 2 /\ (Z.even (Z.pos p) = true \/ l = loc_Exact)) \/
  (M = Z.pos p / 2 + 1 /\ Z.odd (Z.pos p) = true).
Proof.
  assert (forall p, Z.pos p~0 / 2 = Z.pos p) as E0.
  { intros p0. rewrite Pos2Z.inj_xO, Z.mul_comm. apply Z.div_mul. lia. }
  assert (forall p, Z.pos p~1 / 2 = Z.pos p) as E1.
  { intros p0. rewrite Pos2Z.inj_xI. symmetry.
    apply (Z.div_unique_pos _ _ _ 1); lia. }
  destruct l as [|[| |]]; destruct p as [p|p|]; cbn -[Z.div Z.even];
    rewrite ?E0, ?E1; try (destruct (Z.even (Z.pos p))); auto.
Qed.

(** Rounding the quotient [q] (with the location [l] of the exact value above
    it) to 53 bits. *)
Lemma binary_round_aux_div s q e l :
  2 ^ 52 <= q < 2 ^ 54 -> -1074 <= e <= 800 ->
  exists m ef M sh,
    binary_round_aux 53 1024 s q e l = S754_finite s m ef /\
    ((sh = 0 /\ q < 2 ^ 53 /\
      ((M = q /\ (l = loc_Exact \/ l = loc_Inexact Lt \/ l = loc_Inexact Eq)) \/
       (M = q + 1 /\ (l = loc_Inexact Eq \/ l = loc_Inexact Gt)))) \/
     (sh = 1 /\ 2 ^ 53 <= q /\
      ((M = q / 2 /\ (Z.even q = true \/ l = loc_Exact)) \/
       (M = q / 2 + 1 /\ Z.odd q = true)))) /\
    ((Z.pos m = M /\ ef = e + sh) \/ (2 * Z.pos m = M /\ ef = e + sh + 1)).
Proof.
  intros Hq He. rewrite binary_round_aux_finish.
  destruct (Z.lt_ge_cases q (2 ^ 53)) as [Hlt|Hge].
  - destruct (digits_53 q) as (p & -> & Hd); [lia|].
    rewrite shr_fexp_53 by (assumption || lia).
    rewrite shr_m_of_loc, loc_of_shr_record_of_loc.
    set (M := round_nearest_even (Z.pos p) l).
    pose proof (round_nearest_even_range (Z.pos p) l) as HM. fold M in HM.
    destruct (finish_spec s M e) as (m & ef & Hf & Hm);
      [destruct HM as [[-> _]|[-> _]]; lia|lia|].
    exists m, ef, M, 0. split; [assumption|]. split; [left; auto|].
    replace (e + 0) with e by lia. assumption.
  - destruct (digits_54 q) as (p & -> & Hd); [lia|].
    rewrite shr_fexp_54 by (assumption || lia).
    pose proof (shr_1_round p l) as HM. cbv zeta in HM.
    set (M := round_nearest_even _ _) in *.
    assert (2 ^ 52 <= Z.pos p / 2 < 2 ^ 53) as Hhalf.
    { split; [apply Z.div_le_lower_bound; lia | apply Z.div_lt_upper_bound; lia]. }
    destruct (finish_spec s M (e + 1)) as (m & ef & Hf & Hm);
      [destruct HM as [[-> _]|[-> _]]; lia|lia|].
    exists m, ef, M, 1. split; [assumption|]. split; [right; auto|].
    assumption.
Qed.

Lemma digits2_pos_le p n : Z.pos p < 2 ^ n -> 0 <= n -> Z.pos (digits2_pos p) <= n.
Proof.
  intros Hp Hn. pose proof (digits2_pos_bounds p) as B.
  destruct (Z.le_gt_cases (Z.pos (digits2_pos p)) n); [assumption|].
  assert (2 ^ n <= 2 ^ (Z.pos (digits2_pos p) - 1)) by (apply Z.pow_le_mono_r; lia).
  lia.
Qed.

(** The quotient of the floats of two positive integers [T] and [C] below
    2^50: a float [M * 2^-k] (with the mantissa halved when rounding carried
    into the next binade) within half a unit in the last place of [T / C]. *)
Lemma div_rounded s pT pC :
  Z.pos pT < 2 ^ 50 -> Z.pos pC < 2 ^ 50 ->
  exists m ef M k,
    SFdiv 53 1024 (binary_round 53 1024 s pT 0) (binary_round 53 1024 false pC 0)
    = S754_finite s m ef /\
    3 <= k /\ 4 * Z.pos pC < 2 ^ k /\
    ((Z.pos m = M /\ ef = - k) \/ (2 * Z.pos m = M /\ ef = - k + 1)) /\
    - Z.pos pC <= 2 * (M * Z.pos pC - Z.pos pT * 2 ^ k) <= Z.pos pC.
Proof.
  intros HT HC.
  destruct (binary_round_int s pT) as (m1 & -> & Hm1 & Hd1); [lia|].
  destruct (binary_round_int false pC) as (m2 & -> & Hm2 & Hd2); [lia|].
  pose proof (digits2_pos_le pT 50 HT ltac:(lia)) as Ht.
  pose proof (digits2_pos_le pC 50 HC ltac:(lia)) as Hc.
  pose proof (digits2_pos_bounds pT) as BT.
  pose proof (digits2_pos_bounds pC) as BC.
  pose proof (digits2_pos_bounds m1) as B1. rewrite Hd1 in B1.
  pose proof (digits2_pos_bounds m2) as B2. rewrite Hd2 in B2.
  set (t := Z.pos (digits2_pos pT)) in *. set (c := Z.pos (digits2_pos pC)) in *.
  set (T := Z.pos pT) in *. set (C := Z.pos pC) in *.
  assert (1 <= t) as Ht1 by (unfold t; lia).
  assert (1 <= c) as Hc1 by (unfold c; lia).
  assert (0 < C) as HCpos by (unfold C; lia).
  cbn [SFdiv]. rewrite div_core by (assumption || lia).
  rewrite xorb_false_r.
  set (q := Z.pos m1 * 2 ^ 53 / Z.pos m2).
  set (r := (Z.pos m1 * 2 ^ 53) mod Z.pos m2).
  set (g := 2 ^ (53 - c)).
  set (D := 2 ^ (53 + c - t)).
  assert (0 < g) as Hg by (apply Z.pow_pos_nonneg; lia).
  assert (Z.pos m1 * 2 ^ 53 = (T * D) * g) as Hnum.
  { rewrite Hm1. unfold D, g. rewrite <- !Z.mul_assoc, <- !Z.pow_add_r by lia.
    f_equal. f_equal. lia. }
  assert (q = T * D / C) as Hq.
  { unfold q. rewrite Hnum, Hm2. fold g. apply Z.div_mul_cancel_r; lia. }
  assert (r = ((T * D) mod C) * g) as Hr.
  { unfold r. rewrite Hnum, Hm2. fold g. apply Z.mul_mod_distr_r; lia. }
  assert (0 <= r < Z.pos m2) as Hrb by (apply Z.mod_pos_bound; lia).
  assert (2 ^ 52 <= q < 2 ^ 54) as Hqb.
  { unfold q. split.
    - apply Z.div_le_lower_bound; [lia|]. nia.
    - apply Z.div_lt_upper_bound; [lia|]. nia. }
  pose proof (Z.div_mod (T * D) C ltac:(lia)) as Edm. rewrite <- Hq in Edm.
  pose proof (Z.mod_pos_bound (T * D) C HCpos) as Rdm.
  set (rho := (T * D) mod C) in *.
  rewrite new_location_spec by lia. fold r.
  set (l := if r =? 0 then loc_Exact else loc_Inexact (2 * r ?= Z.pos m2)).
  assert (l = loc_Exact -> rho = 0) as Hexact.
  { unfold l. destruct (Z.eqb_spec r 0) as [E|]; [|discriminate]. intros _. nia. }
  assert (l = loc_Exact \/ l = loc_Inexact Lt \/ l = loc_Inexact Eq -> 2 * rho <= C) as Hdown.
  { unfold l. destruct (Z.eqb_spec r 0) as [E|]; [intros _; nia|].
    destruct (Z.compare_spec (2 * r) (Z.pos m2)) as [E|E|E];
      intros [H|[H|H]]; try discriminate; rewrite Hr, Hm2 in E; fold g in E; nia. }
  assert (l = loc_Inexact Eq \/ l = loc_Inexact Gt -> C <= 2 * rho) as Hup.
  { unfold l. destruct (Z.eqb_spec r 0) as [E|]; [intros [H|H]; discriminate|].
    destruct (Z.compare_spec (2 * r) (Z.pos m2)) as [E|E|E];
      intros [H|H]; try discriminate; rewrite Hr, Hm2 in E; fold g in E; nia. }
  destruct (binary_round_aux_div s q (t - 53 - (c - 53) - 53) l)
    as (m & ef & M & sh & -> & Hsh & Hm); [assumption|lia|].
  assert (0 <= sh <= 1) as Hshb by (destruct Hsh as [[-> _]|[-> _]]; lia).
  set (k := 53 + c - t - sh).
  assert (c + 2 <= k) as Hk by (unfold k; lia).
  assert (4 * C < 2 ^ k) as HCk.
  { assert (2 ^ (c + 2) <= 2 ^ k) by (apply Z.pow_le_mono_r; lia).
    rewrite Z.pow_add_r in H by lia. lia. }
  exists m, ef, M, k. split; [reflexivity|]. split; [lia|]. split; [assumption|].
  split.
  { destruct Hm as [[? ->]|[? ->]]; [left|right]; split; try assumption;
      unfold k; lia. }
  destruct Hsh as [(-> & Hlt & HM) | (-> & Hge & HM)].
  - assert (2 ^ k = D) as -> by (unfold D, k; f_equal; lia).
    destruct HM as [[-> Hl] | [-> Hl]].
    + specialize (Hdown Hl). lia.
    + specialize (Hup Hl). lia.
  - assert (D = 2 * 2 ^ k) as HDD.
    { rewrite <- Z.pow_succ_r by lia. unfold D, k. f_equal. lia. }
    rewrite HDD in Edm.
    destruct HM as [[-> Hev] | [-> Hodd]].
    + destruct Hev as [Hev | Hl].
      * apply Z.even_spec in Hev as [j Hj].
        assert (q / 2 = j) as -> by (rewrite Hj, Z.mul_comm; apply Z.div_mul; lia).
        lia.
      * specialize (Hexact Hl).
        pose proof (Z.div_mod q 2 ltac:(lia)) as Eq2.
        pose proof (Z.mod_pos_bound q 2 ltac:(lia)) as Rq2. nia.
    + apply Z.odd_spec in Hodd as [j Hj].
      assert (q / 2 = j) as ->.
      { rewrite Hj. symmetry. apply (Z.div_unique_pos _ _ _ 1); lia. }
      lia.
Qed.

(** A value within half a unit of [T * D / C] rounds, halves up, to the same
    integer as [T / C] does, when [D] is even and exceeds [C]. *)
Lemma round_sandwich T C D2 M :
  1 <= C -> 0 <= T -> C < 2 * D2 ->
  - C <= 2 * (M * C - T * (2 * D2)) <= C ->
  (2 * M + 2 * D2) / (2 * (2 * D2)) = (2 * T + C) / (2 * C).
Proof.
  intros HC HT HD HM.
  set (n0 := (2 * T + C) / (2 * C)).
  pose proof (Z.div_mod (2 * T + C) (2 * C) ltac:(lia)) as Hn0. fold n0 in Hn0.
  pose proof (Z.mod_pos_bound (2 * T + C) (2 * C) ltac:(lia)) as Hn0r.
  set (r0 := (2 * T + C) mod (2 * C)) in *.
  assert (0 <= n0) as Hn0pos by (apply Z.div_pos; lia).
  symmetry. apply (Z.div_unique_pos _ _ _ (2 * M + 2 * D2 - 2 * (2 * D2) * n0)); [|lia].
  assert (C * (2 * (2 * D2 * n0) - 2 * M - 2 * D2) <= C * 1) as Hlow by nia.
  apply Z.mul_le_mono_pos_l in Hlow; [|lia].
  assert (C * (2 * M + 2 * D2) < C * (2 * (2 * D2) * (n0 + 1))) as Hhigh by nia.
  apply Z.mul_lt_mono_pos_l in Hhigh; [|lia].
  lia.
Qed.

(** The rounded quotient of two integers, as the formatter computes it. *)
Lemma math_Round_div s pT pC :
  Z.pos pT < 2 ^ 50 -> Z.pos pC < 2 ^ 50 ->
  math_Round (SFdiv 53 1024 (binary_round 53 1024 s pT 0)
                            (binary_round 53 1024 false pC 0))
  = let n := (2 * Z.pos pT + Z.pos pC) / (2 * Z.pos pC) in
    if n =? 0 then S754_zero s
    else binary_normalize 53 1024 (if s then - n else n) 0 false.
Proof.
  intros HT HC.
  destruct (div_rounded s pT pC HT HC) as (m & ef & M & k & -> & Hk & HCk & Hm & Herr).
  assert (ef < 0) as Hef by (destruct Hm as [[_ ->]|[_ ->]]; lia).
  unfold math_Round. destruct (Z.leb_spec 0 ef); [lia|].
  rewrite half_up_div by (apply Z.pow_pos_nonneg; lia).
  cbv zeta.
  assert ((2 * Z.pos m + 2 ^ (- ef)) / (2 * 2 ^ (- ef))
          = (2 * Z.pos pT + Z.pos pC) / (2 * Z.pos pC)) as ->; [|reflexivity].
  set (D2 := 2 ^ (k - 1)).
  assert (0 < D2) as HD2 by (apply Z.pow_pos_nonneg; lia).
  assert (2 ^ k = 2 * D2) as Hpk.
  { unfold D2. rewrite <- Z.pow_succ_r by lia. f_equal. lia. }
  rewrite Hpk in Herr, HCk.
  rewrite <- (round_sandwich (Z.pos pT) (Z.pos pC) D2 M) by lia.
  destruct Hm as [[HmM ->] | [HmM ->]].
  - rewrite Z.opp_involutive, Hpk, HmM. reflexivity.
  - replace (- (- k + 1)) with (k - 1) by lia.
    fold D2. rewrite <- HmM.
    replace (2 * (2 * Z.pos m) + 2 * D2) with (2 * (2 * Z.pos m + D2)) by lia.
    symmetry. apply Z.div_mul_cancel_l; lia.
Qed.

(** Rounding [x / den] to the nearest integer, ties to even, when [x] is
    within 5 of a multiple [A * den] and [den] exceeds 10. *)
Lemma nearest_even_near x den A :
  10 < den -> -5 <= x - A * den <= 5 ->
  (let q := x / den in
   let r := x mod den in
   if 2 * r <? den then q
   else if den <? 2 * r then q + 1
   else if Z.even q then q else q + 1) = A.
Proof.
  intros Hden Hx. cbv zeta.
  destruct (Z.le_gt_cases (A * den) x) as [Hge|Hlt].
  - assert (x / den = A) as Hq
      by (symmetry; apply (Z.div_unique_pos _ _ _ (x - A * den)); lia).
    assert (x mod den = x - A * den) as Hr
      by (symmetry; apply (Z.mod_unique_pos _ _ A); lia).
    rewrite Hq, Hr. destruct (Z.ltb_spec (2 * (x - A * den)) den); [reflexivity|lia].
  - assert (x / den = A - 1) as Hq
      by (symmetry; apply (Z.div_unique_pos _ _ _ (x - (A - 1) * den)); lia).
    assert (x mod den = x - (A - 1) * den) as Hr
      by (symmetry; apply (Z.mod_unique_pos _ _ (A - 1)); lia).
    rewrite Hq, Hr.
    destruct (Z.ltb_spec (2 * (x - (A - 1) * den)) den); [lia|].
    destruct (Z.ltb_spec den (2 * (x - (A - 1) * den))); lia.
Qed.

(** ** The rendered numbers *)

Lemma FormatFloat_finite s m ef :
  ef < 0 ->
  FormatFloat (S754_finite s m ef)
  = tenths_text s
      (let q := (10 * Z.pos m) / 2 ^ (- ef) in
       let r := (10 * Z.pos m) mod 2 ^ (- ef) in
       if 2 * r <? 2 ^ (- ef) then q
       else if 2 ^ (- ef) <? 2 * r then q + 1
       else if Z.even q then q else q + 1).
Proof.
  intros Hef. unfold FormatFloat. destruct (Z.leb_spec 0 ef); [lia|]. reflexivity.
Qed.

Lemma FormatFloat_div10 s p :
  Z.pos p < 2 ^ 50 ->
  FormatFloat (SFdiv 53 1024 (binary_round 53 1024 s p 0)
                             (binary_round 53 1024 false 10 0))
  = tenths_text s (Z.pos p).
Proof.
  intros Hp.
  destruct (div_rounded s p 10 Hp ltac:(lia)) as (m & ef & M & k & -> & Hk & HCk & Hm & Herr).
  assert (ef < 0) as Hef by (destruct Hm as [[_ ->]|[_ ->]]; lia).
  rewrite FormatFloat_finite by done. f_equal.
  set (D2 := 2 ^ (k - 1)).
  assert (2 ^ k = 2 * D2) as Hpk.
  { unfold D2. rewrite <- Z.pow_succ_r by lia. f_equal. lia. }
  rewrite Hpk in Herr, HCk.
  destruct Hm as [[HmM ->] | [HmM ->]].
  - rewrite Z.opp_involutive, Hpk. apply nearest_even_near; lia.
  - replace (- (- k + 1)) with (k - 1) by lia. fold D2.
    apply nearest_even_near; lia.
Qed.

Lemma FormatFloat_zero s :
  FormatFloat (float64_div (S754_zero s) (float64_of_int 10)) = tenths_text s 0.
Proof. destruct s; reflexivity. Qed.

(** A quotient by ten is printed as the exact decimal. *)
Lemma FormatFloat_tenths n :
  Z.abs n < 2 ^ 50 ->
  FormatFloat (float64_div (float64_of_int n) (float64_of_int 10)) = render_tenths n.
Proof.
  intros Hn. destruct n as [|p|p].
  - apply FormatFloat_zero.
  - apply (FormatFloat_div10 false p). lia.
  - apply (FormatFloat_div10 true p). lia.
Qed.

Lemma rounded_le_total T C : 0 <= T -> 1 <= C -> (2 * T + C) / (2 * C) <= T.
Proof.
  intros HT HC. apply Z.lt_succ_r. apply Z.div_lt_upper_bound; [lia|]. nia.
Qed.

Lemma float64_div_zero_l s p :
  Z.pos p < 2 ^ 50 ->
  float64_div (S754_zero s) (float64_of_int (Z.pos p)) = S754_zero s.
Proof.
  intros Hp. unfold float64_of_int, binary_normalize.
  destruct (binary_round_int false p) as (m & -> & _); [lia|].
  simpl. by rewrite xorb_false_r.
Qed.

(** The average is printed as the rounded quotient, behind the sign of the
    total. *)
Lemma average_text T C :
  0 < C < 2 ^ 50 -> Z.abs T < 2 ^ 50 ->
  FormatFloat (float64_div
                 (math_Round (float64_div (float64_of_int T) (float64_of_int C)))
                 (float64_of_int 10))
  = tenths_text (T <? 0) (Z.abs (round_half_away T C)).
Proof.
  intros HC HT. destruct C as [|c|c]; try lia. unfold round_half_away.
  assert (forall s p, Z.pos p < 2 ^ 50 ->
    FormatFloat (float64_div
       (math_Round (float64_div (binary_round 53 1024 s p 0)
                                (float64_of_int (Z.pos c))))
       (float64_of_int 10))
    = tenths_text s ((2 * Z.pos p + Z.pos c) / (2 * Z.pos c))) as Hmain.
  { intros s p Hp. unfold float64_div at 2. unfold float64_of_int at 1.
    cbn [binary_normalize]. rewrite math_Round_div by lia. cbv zeta.
    pose proof (rounded_le_total (Z.pos p) (Z.pos c) ltac:(lia) ltac:(lia)) as Hle.
    assert (0 <= (2 * Z.pos p + Z.pos c) / (2 * Z.pos c)) as Hpos
      by (apply Z.div_pos; lia).
    destruct (Z.eqb_spec ((2 * Z.pos p + Z.pos c) / (2 * Z.pos c)) 0) as [->|Hne].
    - apply FormatFloat_zero.
    - destruct ((2 * Z.pos p + Z.pos c) / (2 * Z.pos c)) as [|n|n] eqn:E; try lia.
      destruct s; cbn [Z.opp binary_normalize].
      + apply (FormatFloat_div10 true n). lia.
      + apply (FormatFloat_div10 false n). lia. }
  destruct T as [|p|p].
  - change (float64_of_int 0) with (S754_zero false).
    rewrite float64_div_zero_l by lia. cbn [math_Round].
    rewrite FormatFloat_zero. cbn [Z.sgn Z.abs Z.mul Z.ltb Z.compare]. reflexivity.
  - change (float64_of_int (Z.pos p)) with (binary_round 53 1024 false p 0).
    rewrite (Hmain false p) by lia. cbn [Z.sgn Z.abs Z.ltb Z.compare].
    f_equal. rewrite Z.mul_1_l. symmetry. apply Z.abs_eq. apply Z.div_pos; lia.
  - change (float64_of_int (Z.neg p)) with (binary_round 53 1024 true p 0).
    rewrite (Hmain true p) by lia. cbn [Z.sgn Z.abs Z.ltb Z.compare].
    f_equal. change (Z.abs (Z.neg p)) with (Z.pos p).
    assert (0 <= (2 * Z.pos p + Z.pos c) / (2 * Z.pos c)) by (apply Z.div_pos; lia).
    lia.
Qed.

(** C7, as the code has it. For an aggregate whose count, total, minimum and
    maximum are below 2^50 in magnitude, the entry shows min/10, the rounded
    average over ten and max/10 with one decimal each; the average is
    total/count rounded to the nearest integer, halves away from zero, and
    carries the sign of the total even when it rounds to zero. Unless a
    negative total rounds to zero, this is the entry as specified. *)
Theorem render_entry_text (key : bytes) (details : Location) :
  0 < Count details < 2 ^ 50 ->
  Z.abs (Total details) < 2 ^ 50 ->
  Z.abs (Min details) < 2 ^ 50 ->
  Z.abs (Max details) < 2 ^ 50 ->
  render_entry key details = printed_entry key details /\
  (~ (Total details < 0 /\ round_half_away (Total details) (Count details) = 0) ->
   render_entry key details = claimed_entry key details).
Proof.
  intros HC HT Hmin Hmax.
  assert (render_entry key details = printed_entry key details) as E.
  { unfold render_entry, printed_entry.
    by rewrite !FormatFloat_tenths, average_text by done. }
  split; [exact E|]. intros Hsign. rewrite E. unfold printed_entry, claimed_entry.
  do 4 f_equal. unfold render_tenths. f_equal.
  unfold round_half_away in *.
  assert (0 <= (2 * Z.abs (Total details) + Count details) / (2 * Count details))
    by (apply Z.div_pos; lia).
  destruct (Z.ltb_spec (Total details) 0), (Z.ltb_spec
    (Z.sgn (Total details) *
     ((2 * Z.abs (Total details) + Count details) / (2 * Count details))) 0);
    try reflexivity; exfalso; nia.
Qed.

Lemma render_entry_text_witness :
  render_entry (str "ham") ham = str "ham=5.0/21.4/33.6".
Proof.
  assert (0 < Count ham < 2 ^ 50) as HC by (simpl; lia).
  assert (Z.abs (Total ham) < 2 ^ 50) as HT by (simpl; lia).
  assert (Z.abs (Min ham) < 2 ^ 50) as Hmin by (simpl; lia).
  assert (Z.abs (Max ham) < 2 ^ 50) as Hmax by (simpl; lia).
  rewrite (proj1 (render_entry_text (str "ham") ham HC HT Hmin Hmax)).
  reflexivity.
Defined.

(** The three observations of the scenario, through both modes. *)
Lemma ham_file_runs :
  parseFile (contents ham_file) = Some ([str "ham"], {[ str "ham" := ham ]}, None) /\
  run 0 chunkSize Background (mkSchedule [] [] 0) (Some ham_file) false
  = Returns (str "{ham=5.0/21.4/33.6}", None) /\
  run 2 chunkSize Background (mkSchedule [] [] 0) (Some ham_file) true
  = Returns (str "{ham=5.0/21.4/33.6}", None).
Proof. repeat split; vm_compute; reflexivity. Qed.

(** A negative total that rounds to zero is printed as [-0.0], where the
    specified rendering of the number zero is [0.0]. *)
Lemma negative_zero_average :
  parseFile (str "a;-0.1" ++ [nl] ++ str "a;0.0" ++ [nl] ++ str "a;0.0")
  = Some ([str "a"], {[ str "a" := chilly ]}, None) /\
  render_entry (str "a") chilly = str "a=-0.1/-0.0/0.0" /\
  claimed_entry (str "a") chilly = str "a=-0.1/0.0/0.0" /\
  render_entry (str "a") chilly ≠ claimed_entry (str "a") chilly.
Proof. repeat split; try (vm_compute; reflexivity). vm_compute. discriminate. Qed.

(** * Further properties *)

(** ** The backward scan, at every offset *)

Lemma findNextLineBoundary_outside file start :
  start < 0 \/ len (contents file) <= start ->
  findNextLineBoundary file start = start.
Proof.
  intros H. apply findNextLineBoundary_stop. left.
  destruct (index (contents file) start) eqn:E; [|done].
  apply index_Some_range in E. lia.
Qed.

Lemma findNextLineBoundary_fixed file start :
  findNextLineBoundary file (findNextLineBoundary file start)
  = findNextLineBoundary file start.
Proof.
  destruct (decide (0 <= start < len (contents file))) as [Hr|Hr].
  - destruct (findNextLineBoundary_spec file start Hr) as (Hb & Hnl & _).
    destruct (decide (0 <= findNextLineBoundary file start)) as [Hpos|Hneg].
    + apply findNextLineBoundary_stop. right. auto.
    + apply findNextLineBoundary_outside. lia.
  - rewrite !(findNextLineBoundary_outside file start) by lia. done.
Qed.

(** ** The dispatch loop, whatever the lines *)

Lemma add64_in_range s csize :
  in_int64 (s + csize) -> add64 s csize = s + csize.
Proof. apply wrap64_id. Qed.

(** From a start offset followed by [csize] bytes without a newline, all of
    them before the end of the file, the loop never ends. *)
Lemma dispatch_loop_window csize file :
  0 < csize -> len (contents file) + csize < 2 ^ 63 ->
  forall fuel s,
    -1 <= s -> s + csize < len (contents file) ->
    (forall p, s < p <= s + csize -> index (contents file) p ≠ Some nl) ->
    dispatch_loop fuel csize file (len (contents file)) s = None.
Proof.
  intros Hc Hov fuel. induction fuel as [|fuel IH]; intros s Hs Hlt Hno; [done|].
  rewrite dispatch_loop_unfold.
  destruct (Z.ltb_spec s (len (contents file))); [|lia].
  unfold next_start.
  rewrite add64_in_range by (unfold in_int64; lia).
  destruct (Z.gtb_spec (s + csize) (len (contents file))); [lia|].
  destruct (findNextLineBoundary_spec file (s + csize)) as (Hb & Hnl & Hno'); [lia|].
  assert (findNextLineBoundary file (s + csize) <= s) as Hle.
  { destruct (decide (findNextLineBoundary file (s + csize) <= s)) as [|Hgt]; [done|].
    exfalso. apply (Hno (findNextLineBoundary file (s + csize))); [lia|].
    apply Hnl. lia. }
  rewrite IH; [done|lia|lia|].
  intros p Hp. apply Hno'. lia.
Qed.

(** Before [csize + 1] bytes without a newline, the start offset never gets
    past them. *)
Lemma dispatch_loop_before_long_line csize file a :
  0 < csize -> len (contents file) < 2 ^ 63 ->
  0 <= a -> a + csize < len (contents file) ->
  (forall p, a <= p <= a + csize -> index (contents file) p ≠ Some nl) ->
  forall fuel s, -1 <= s <= a ->
    dispatch_loop fuel csize file (len (contents file)) s = None.
Proof.
  intros Hc Hov Ha Hlt Hno fuel.
  induction fuel as [|fuel IH]; intros s Hs; [done|].
  rewrite dispatch_loop_unfold.
  destruct (Z.ltb_spec s (len (contents file))); [|lia].
  unfold next_start.
  rewrite add64_in_range by (unfold in_int64; lia).
  destruct (Z.gtb_spec (s + csize) (len (contents file))); [lia|].
  destruct (findNextLineBoundary_spec file (s + csize)) as (Hb & Hnl & _); [lia|].
  rewrite IH; [done|].
  split; [lia|].
  destruct (decide (findNextLineBoundary file (s + csize) <= a)) as [|Hgt]; [done|].
  exfalso. apply (Hno (findNextLineBoundary file (s + csize))); [lia|].
  apply Hnl. lia.
Qed.

Lemma dispatch_loop_at_size fuel csize file chunks :
  dispatch_loop fuel csize file (len (contents file)) (len (contents file)) = Some chunks ->
  chunks = [].
Proof.
  destruct fuel as [|fuel]; [done|]. rewrite dispatch_loop_unfold.
  destruct (Z.ltb_spec (len (contents file)) (len (contents file))); [lia|].
  by intros [= <-].
Qed.

(** Whenever the loop ends, the ranges it handed out are aligned. *)
Lemma dispatch_loop_ends_aligned csize file :
  0 < csize -> len (contents file) + csize < 2 ^ 63 ->
  forall fuel s chunks,
    0 <= s <= len (contents file) ->
    dispatch_loop fuel csize file (len (contents file)) s = Some chunks ->
    aligned (contents file) csize s chunks.
Proof.
  intros Hc Hov fuel. induction fuel as [|fuel IH]; intros s chunks Hs; [done|].
  rewrite dispatch_loop_unfold.
  destruct (Z.ltb_spec s (len (contents file))) as [Hlt|Hge].
  2:{ intros [= <-]. assert (s = len (contents file)) as -> by lia. constructor. }
  unfold next_start.
  rewrite add64_in_range by (unfold in_int64; lia).
  destruct (Z.gtb_spec (s + csize) (len (contents file))) as [Hgt|Hle].
  - rewrite findNextLineBoundary_at_size.
    destruct (dispatch_loop fuel _ _ _ _) as [rest|] eqn:E; [|done].
    apply dispatch_loop_at_size in E as ->. intros [= <-].
    apply aligned_last; lia.
  - destruct (decide (s + csize = len (contents file))) as [Heq|Hne].
    + rewrite Heq, findNextLineBoundary_at_size.
      destruct (dispatch_loop fuel _ _ _ _) as [rest|] eqn:E; [|done].
      apply dispatch_loop_at_size in E as ->. intros [= <-].
      apply aligned_last; lia.
    + destruct (findNextLineBoundary_spec file (s + csize)) as (Hb & Hnl & Hno); [lia|].
      destruct (dispatch_loop fuel _ _ _ _) as [rest|] eqn:E; [|done].
      intros [= <-].
      destruct (decide (findNextLineBoundary file (s + csize) <= s)) as [Hback|Hfwd].
      * rewrite dispatch_loop_window in E; [done|done|done|lia|lia|].
        intros p Hp. apply Hno. lia.
      * apply (aligned_cons _ _ s (findNextLineBoundary file (s + csize)));
          [lia|lia|lia|apply Hnl; lia|exact Hno|].
        apply IH; [lia|exact E].
Qed.

Lemma aligned_in_bounds d csize s chunks :
  0 < csize -> aligned d csize s chunks ->
  Forall (fun r => 0 <= r.1 < r.2 /\ r.2 <= len d /\ r.2 - r.1 <= csize) chunks.
Proof.
  intros Hc H. induction H as [|s Hs Hl|s s' rest Hs Hl Hs' Hnl Hno H IH].
  - constructor.
  - repeat constructor; simpl; lia.
  - constructor; [simpl; lia|exact IH].
Qed.

(** X2. From an offset inside the file the backward scan returns the offset of
    the last newline at or before it, or -1 when there is none. *)
Theorem findNextLineBoundary_last_newline (file : File) (start : Z) :
  0 <= start < len (contents file) ->
  let r := findNextLineBoundary file start in
  -1 <= r <= start /\
  (r = -1 \/ index (contents file) r = Some nl) /\
  (forall p, r < p <= start -> index (contents file) p ≠ Some nl).
Proof.
  intros Hr. destruct (findNextLineBoundary_spec file start Hr) as (Hb & Hnl & Hno).
  split; [exact Hb|]. split; [|exact Hno].
  destruct (decide (0 <= findNextLineBoundary file start)); [right; auto|left; lia].
Qed.

Lemma findNextLineBoundary_last_newline_witness :
  let r := findNextLineBoundary two_lines 8 in
  -1 <= r <= 8 /\
  (r = -1 \/ index (contents two_lines) r = Some nl) /\
  (forall p, r < p <= 8 -> index (contents two_lines) p ≠ Some nl).
Proof.
  apply (findNextLineBoundary_last_newline two_lines 8).
  vm_compute. split; congruence.
Defined.

(** X3. At a negative offset and at or past the end of the file the read
    fails and the scan returns the offset it was given; and scanning again
    from a returned offset returns that offset. *)
Theorem findNextLineBoundary_idempotent (file : File) (start : Z) :
  (start < 0 \/ len (contents file) <= start ->
   findNextLineBoundary file start = start) /\
  findNextLineBoundary file (findNextLineBoundary file start)
  = findNextLineBoundary file start.
Proof.
  split; [apply findNextLineBoundary_outside|apply findNextLineBoundary_fixed].
Qed.

Lemma findNextLineBoundary_idempotent_witness :
  findNextLineBoundary two_lines 14 = 14 /\
  findNextLineBoundary two_lines (findNextLineBoundary two_lines 8)
  = findNextLineBoundary two_lines 8.
Proof.
  destruct (findNextLineBoundary_idempotent two_lines 14) as [H _].
  split.
  - apply H. right. vm_compute. congruence.
  - apply (findNextLineBoundary_idempotent two_lines 8).
Defined.

(** X4. When [Stat] succeeds and the file holds [csize + 1] consecutive bytes
    without a newline, that is a line longer than the chunk size, the
    dispatch loop never ends: the start offset never gets past these bytes,
    and the concurrent run on an uncancelled context does not return,
    whatever the fuel. *)
Theorem long_line_never_returns (file : File) (csize a : Z) :
  stat_fails file = false ->
  0 < csize -> len (contents file) < 2 ^ 63 ->
  0 <= a -> a + csize < len (contents file) ->
  (forall p, a <= p <= a + csize -> index (contents file) p ≠ Some nl) ->
  forall fuel,
    dispatch_loop fuel csize file (len (contents file)) 0 = None /\
    lineOrchestrator fuel csize file = OutOfFuel /\
    forall ctx sched, cancelled ctx = false ->
      run fuel csize ctx sched (Some file) true = OutOfFuel.
Proof.
  intros Hstat Hc Hov Ha Hlt Hno fuel.
  assert (dispatch_loop fuel csize file (len (contents file)) 0 = None) as H
    by (apply (dispatch_loop_before_long_line csize file a); (done || lia)).
  assert (lineOrchestrator fuel csize file = OutOfFuel) as HO
    by (unfold lineOrchestrator, Stat; rewrite Hstat, H; reflexivity).
  split; [exact H|]. split; [exact HO|].
  intros ctx sched _. unfold run, parseFileWithConcurrency. rewrite HO. reflexivity.
Qed.

Lemma long_line_never_returns_witness :
  run 1000 4 Background (mkSchedule [] [] 0)
      (Some (mkFile (str "a;1.0" ++ [nl] ++ str "abcdef;1.0" ++ [nl]) false)) true
  = OutOfFuel.
Proof.
  refine (proj2 (proj2 (long_line_never_returns
            (mkFile (str "a;1.0" ++ [nl] ++ str "abcdef;1.0" ++ [nl]) false) 4 6
            eq_refl _ _ _ _ _ 1000%nat)) Background (mkSchedule [] [] 0) eq_refl).
  - lia.
  - vm_compute. reflexivity.
  - lia.
  - vm_compute. reflexivity.
  - intros p Hp.
    assert (p = 6 \/ p = 7 \/ p = 8 \/ p = 9 \/ p = 10) as Hcases by lia.
    destruct Hcases as [->|[->|[->|[->| ->]]]]; vm_compute; congruence.
Defined.

(** X5. Whenever the dispatch loop ends, whatever the lengths of the lines,
    the ranges it handed out are aligned, every byte of the file lies in
    some range and every line lies whole in some range. *)
Theorem dispatch_ends_aligned (file : File) (csize : Z) (fuel : nat)
    (chunks : list (Z * Z)) :
  0 < csize ->
  len (contents file) + csize < 2 ^ 63 ->
  dispatch_loop fuel csize file (len (contents file)) 0 = Some chunks ->
  aligned (contents file) csize 0 chunks /\
  (forall p, 0 <= p < len (contents file) ->
     exists range, range ∈ chunks /\ range.1 <= p < range.2) /\
  (forall a b, is_line (contents file) a b -> a < b ->
     exists range, range ∈ chunks /\ range.1 <= a /\ b <= range.2).
Proof.
  intros Hc Hov H.
  assert (aligned (contents file) csize 0 chunks) as Hal.
  { apply (dispatch_loop_ends_aligned csize file Hc Hov fuel); [|exact H].
    split; [lia|apply Nat2Z.is_nonneg]. }
  split; [exact Hal|]. split.
  - intros p Hp. by apply (aligned_bytes_covered _ _ _ _ Hal).
  - intros a b Hl Hab. apply (aligned_line_whole _ _ _ _ Hal a b Hl Hab).
    destruct Hl as ((? & ?) & _). lia.
Qed.

Lemma dispatch_ends_aligned_witness :
  aligned (contents two_lines) 8 0 [(0, 8); (5, 13); (13, 14)].
Proof.
  apply (dispatch_ends_aligned two_lines 8 4 [(0, 8); (5, 13); (13, 14)]).
  - lia.
  - vm_compute. reflexivity.
  - vm_compute. reflexivity.
Defined.

(** X6. Whenever the dispatch loop ends, every range handed to a worker is
    non-empty and inside the file: the read returns exactly [end - start]
    bytes and no error, so the worker hands [processChunk] its chunk; it
    never allocates a negative length and never takes an error branch. *)
Theorem dispatched_reads_succeed (file : File) (csize : Z) (fuel : nat)
    (chunks : list (Z * Z)) :
  0 < csize ->
  len (contents file) + csize < 2 ^ 63 ->
  dispatch_loop fuel csize file (len (contents file)) 0 = Some chunks ->
  Forall (fun range =>
            let chunk := take (Z.to_nat (range.2 - range.1))
                           (drop (Z.to_nat range.1) (contents file)) in
            0 <= range.1 < range.2 /\ range.2 <= len (contents file) /\
            len chunk = range.2 - range.1 /\
            ReadAt file (range.2 - range.1) range.1 = (chunk, None) /\
            worker file range = (m ← processChunk chunk; Some (Some m)))
         chunks.
Proof.
  intros Hc Hov H.
  assert (aligned (contents file) csize 0 chunks) as Hal.
  { apply (dispatch_loop_ends_aligned csize file Hc Hov fuel); [|exact H].
    split; [lia|apply Nat2Z.is_nonneg]. }
  apply (aligned_in_bounds _ _ _ _ Hc) in Hal.
  eapply list.Forall_impl; [exact Hal|].
  intros [s e] (Hs & He & _). simpl in *.
  assert (ReadAt file (e - s) s
          = (take (Z.to_nat (e - s)) (drop (Z.to_nat s) (contents file)), None)) as HR
    by (apply ReadAt_range; lia).
  split; [lia|]. split; [lia|]. split; [|split; [exact HR|]].
  - unfold len in *. rewrite length_take, length_drop. lia.
  - destruct (Z.ltb_spec (e - s) 0); [lia|]. rewrite HR. reflexivity.
Qed.

Lemma dispatched_reads_succeed_witness :
  Forall (fun range =>
            let chunk := take (Z.to_nat (range.2 - range.1))
                           (drop (Z.to_nat range.1) (contents two_lines)) in
            0 <= range.1 < range.2 /\ range.2 <= len (contents two_lines) /\
            len chunk = range.2 - range.1 /\
            ReadAt two_lines (range.2 - range.1) range.1 = (chunk, None) /\
            worker two_lines range = (m ← processChunk chunk; Some (Some m)))
         [(0, 8); (5, 13); (13, 14)].
Proof.
  apply (dispatched_reads_succeed two_lines 8 4 [(0, 8); (5, 13); (13, 14)]).
  - lia.
  - vm_compute. reflexivity.
  - vm_compute. reflexivity.
Defined.

(** ** Where the parser panics *)

Ltac parser_bounds :=
  split;
  [first [done | intros _; first [left; lia | right; split; [lia | by intros [= ?]]]]
  |first [done | intros [?|[? Hp]]; first [lia | by subst]]].

Lemma parseNumber_None (v : bytes) : parseNumber v = None <-> too_short v.
Proof.
  unfold too_short, unsigned, parseNumber, len, index.
  destruct v as [|c0 v]; simpl.
  { split; [intros _; left; lia|done]. }
  case_bool_decide as Hneg; simpl.
  - destruct v as [|a [|b [|c [|d r]]]]; simpl; repeat case_bool_decide; simpl;
      parser_bounds.
  - destruct v as [|b [|c [|d r]]]; simpl; repeat case_bool_decide; simpl;
      parser_bounds.
Qed.

Lemma parseNumber_signed_point x : parseNumber ["-"%char; "."%char; x] = None.
Proof. unfold parseNumber; simpl. case_bool_decide; reflexivity. Qed.

Lemma processLine_None (l : bytes) : processLine l = None <-> fatal_line l.
Proof.
  unfold fatal_line. split.
  - intros H. destruct (decide (l = [])) as [->|Hl]; [done|].
    rewrite processLine_nonempty in H by done. cbv zeta in H.
    destruct (split_key l) as [[k v]|] eqn:Hs.
    2:{ rewrite split_key_None in H by done. done. }
    destruct (split_key_Some l k v Hs) as (Hlk & Hk & Hi & Ht & Hd).
    rewrite Hi, Ht, Hd in H.
    destruct (Z.eqb_spec (len k) (-1)); [done|].
    destruct (incomplete v) eqn:Hinc; [done|].
    destruct (parseNumber v) as [t|] eqn:Hp; [done|].
    destruct (decide (index v 0 = Some "-"%char /\ len v = 3)) as [[H0 H3]|Hno].
    + exists k. unfold incomplete, len, index in *.
      destruct v as [|c0 [|c1 [|c2 [|c3 r]]]]; simpl in *; try lia.
      injection H0 as ->.
      apply negb_false_iff, bool_decide_eq_true in Hinc. injection Hinc as ->.
      exists c2. done.
    + destruct (parseNumber_in_bounds v Hinc Hno) as [t Ht']. congruence.
  - intros (k & x & Hk & ->).
    pose proof (split_key_app k ["-"%char; "."%char; x] Hk) as Hs.
    destruct (split_key_Some _ _ _ Hs) as (_ & _ & Hi & Ht & Hd).
    rewrite processLine_nonempty by (by destruct k). cbv zeta.
    rewrite Hi, Ht, Hd.
    destruct (Z.eqb_spec (len k) (-1)); [unfold len in *; lia|].
    change (incomplete ["-"%char; "."%char; x]) with false. cbv iota.
    by rewrite parseNumber_signed_point.
Qed.

(** A panic of the loop does not depend on the map built so far. *)
Lemma chunk_loop_None lines m :
  chunk_loop lines m = None <-> Exists (fun l => processLine l = None) lines.
Proof.
  revert m. induction lines as [|l lines IH]; intros m; simpl.
  - split; [done|]. by intros ?%Exists_nil.
  - rewrite Exists_cons. destruct (processLine l) as [[k loc]|] eqn:Hl.
    + rewrite chunk_step_obs by (rewrite Hl; eauto). simpl. rewrite IH.
      split; [by right|]. by intros [|].
    + unfold chunk_step. rewrite Hl. simpl. split; [by left|done].
Qed.

Lemma chunk_loop_app l1 l2 m :
  chunk_loop (l1 ++ l2) m = (m' ← chunk_loop l1 m; chunk_loop l2 m').
Proof.
  revert m. induction l1 as [|l l1 IH]; intros m; simpl; [done|].
  destruct (chunk_step m l) as [m1|]; simpl; [apply IH|done].
Qed.

Lemma chunk_loop_Some lines m m' :
  chunk_loop lines m = Some m' ->
  m' = merge_maps m (aggregate (omap obs_of lines)) /\
  Forall (fun l => is_Some (processLine l)) lines.
Proof.
  intros H.
  assert (Forall (fun l => is_Some (processLine l)) lines) as Hall.
  { apply Forall_forall. intros l Hl.
    destruct (processLine l) eqn:E; [eauto|].
    assert (chunk_loop lines m = None) as Hn
      by (apply chunk_loop_None, Exists_exists; eauto).
    congruence. }
  split; [|done].
  rewrite chunk_loop_obs in H by done. injection H as <-.
  apply fold_observe_start.
Qed.

Lemma processChunk_newline (a b : bytes) :
  processChunk (a ++ nl :: b)
  = (ma ← processChunk a; mb ← processChunk b; Some (merge_maps ma mb)).
Proof.
  unfold processChunk. rewrite strings_Split_app_sep, chunk_loop_app.
  destruct (chunk_loop (strings_Split a nl) ∅) as [ma|] eqn:Ha; simpl; [|done].
  destruct (chunk_loop (strings_Split b nl) ∅) as [mb|] eqn:Hb; simpl.
  - apply chunk_loop_Some in Hb as [-> Hall].
    rewrite chunk_loop_obs by done. f_equal.
    by rewrite fold_observe_start, merge_maps_empty_l.
  - apply chunk_loop_None. by apply chunk_loop_None in Hb.
Qed.

Lemma file_step_None st l : file_step st l = None <-> fatal_token l.
Proof.
  destruct st as [locations m]. unfold file_step, fatal_token.
  destruct (split_key l) as [[k v]|] eqn:Hs.
  - destruct (split_key_Some l k v Hs) as (Hlk & Hk & Hi & Ht & Hd).
    rewrite Hi, Ht, Hd.
    destruct (Z.eqb_spec (len k) (-1)); [unfold len in *; lia|].
    destruct (parseNumber v) as [t|] eqn:Hp; simpl.
    + split; [by destruct (m !! k)|].
      intros (k' & v' & Hk' & Hl' & Hshort).
      rewrite Hl', (split_key_app k' v' Hk') in Hs. injection Hs as -> ->.
      apply parseNumber_None in Hshort. congruence.
    + split; [|done]. intros _. exists k, v. split; [done|]. split; [done|].
      by apply parseNumber_None.
  - rewrite split_key_None by done. simpl. split; [done|].
    intros (k' & v' & Hk' & Hl' & _).
    rewrite Hl', (split_key_app k' v' Hk') in Hs. done.
Qed.

Lemma file_loop_None lines st :
  file_loop lines st = None <-> Exists fatal_token lines.
Proof.
  revert st. induction lines as [|l lines IH]; intros st; cbn [file_loop].
  - split; [done|]. by intros ?%Exists_nil.
  - rewrite Exists_cons. destruct (file_step st l) as [st'|] eqn:Hl.
    + cbn [mbind option_bind]. rewrite IH. split; [by right|].
      intros [Hf|]; [|done]. apply (file_step_None st) in Hf. congruence.
    + cbn [mbind option_bind]. split; [|done]. intros _. left.
      by apply (file_step_None st).
Qed.

Lemma parseFile_None data :
  parseFile data = None <-> Exists fatal_token (scanner data).1.
Proof.
  unfold parseFile. destruct (scanner data) as [tokens err]. simpl.
  rewrite <- (file_loop_None tokens ([], ∅)).
  destruct (file_loop tokens ([], ∅)) as [[locations m]|]; simpl; [|done].
  by destruct err.
Qed.

Lemma parseNumber_prefix (v w : bytes) :
  is_temp v = true -> parseNumber (v ++ w) = Some (denoted_tenths v).
Proof.
  intros H. rewrite <- (parseNumber_tenths v H).
  unfold is_temp in H.
  destruct v as [|c0 v]; [done|].
  case_bool_decide as Hneg.
  - subst c0.
    destruct v as [|a [|b [|c [|d [|? ?]]]]]; try done; digits_in_range; subst;
      unfold parseNumber; simpl; repeat (case_bool_decide; try done); reflexivity.
  - destruct v as [|b [|c [|d [|? ?]]]]; try done; digits_in_range; subst;
      unfold parseNumber; simpl; repeat (case_bool_decide; try done); reflexivity.
Qed.

(** ** The statistics of a key *)

Lemma aggregate_cons o obs :
  aggregate (o :: obs) = merge_maps (single o) (aggregate obs).
Proof.
  change (o :: obs) with ([o] ++ obs). rewrite aggregate_app. f_equal.
  unfold aggregate. simpl. unfold observe. apply merge_maps_empty_l.
Qed.

Lemma foldr_min_swap a b r : Z.min a (foldr Z.min b r) = Z.min b (foldr Z.min a r).
Proof. induction r as [|x r IH]; simpl; lia. Qed.

Lemma foldr_max_swap a b r : Z.max a (foldr Z.max b r) = Z.max b (foldr Z.max a r).
Proof. induction r as [|x r IH]; simpl; lia. Qed.

Lemma foldr_add_swap a b r : a + foldr Z.add b r = b + foldr Z.add a r.
Proof. induction r as [|x r IH]; simpl; lia. Qed.

Lemma foldr_add_bound B t r :
  Forall (fun x => - B <= x <= B) (t :: r) ->
  - (B * Z.of_nat (length (t :: r))) <= foldr Z.add t r <= B * Z.of_nat (length (t :: r)).
Proof.
  intros [Ht Hr]%list.Forall_cons. induction Hr as [|x r Hx Hr IH]; simpl in *; lia.
Qed.

Lemma values_of_cons key o obs :
  values_of key (o :: obs)
  = if decide (o.1 = key) then o.2 :: values_of key obs else values_of key obs.
Proof. unfold values_of. rewrite filter_cons. by destruct (decide (o.1 = key)). Qed.

Lemma values_of_length key obs : (length (values_of key obs) <= length obs)%nat.
Proof.
  unfold values_of. rewrite length_fmap. apply length_filter.
Qed.

Lemma values_of_bound B key obs :
  Forall (fun o => - B <= o.2 <= B) obs ->
  Forall (fun x => - B <= x <= B) (values_of key obs).
Proof.
  intros H. unfold values_of. apply Forall_fmap.
  apply list.Forall_forall. intros o [_ Ho]%list_elem_of_filter.
  rewrite list.Forall_forall in H. by apply H.
Qed.

(** Without overflow, the aggregate holds for each key the statistics of its
    temperatures. *)
Lemma aggregate_statistics B obs key :
  1 <= B ->
  Forall (fun o => - B <= o.2 <= B) obs ->
  B * Z.of_nat (length obs) < 2 ^ 62 ->
  aggregate obs !! key = statistics (values_of key obs).
Proof.
  intros HB Hb. induction Hb as [|o obs Ho Hb IH]; intros Hn; [done|].
  rewrite aggregate_cons, lookup_merge_maps, values_of_cons.
  rewrite IH by (simpl length in Hn; lia).
  unfold single. destruct (decide (o.1 = key)) as [<-|Hne].
  - rewrite lookup_singleton_eq.
    pose proof (values_of_length o.1 obs) as Hlen.
    pose proof (values_of_bound B o.1 obs Hb) as Hvb.
    destruct (values_of o.1 obs) as [|t r]; [done|].
    pose proof (foldr_add_bound B t r Hvb) as Hsum.
    simpl length in *. unfold statistics, merge_loc. simpl.
    f_equal. f_equal.
    + rewrite (foldr_min_swap t). destruct (Z.gtb_spec o.2 (foldr Z.min t r)); lia.
    + rewrite (foldr_max_swap t). destruct (Z.ltb_spec o.2 (foldr Z.max t r)); lia.
    + rewrite (foldr_add_swap t). apply wrap64_id. unfold in_int64. nia.
    + unfold add64. rewrite wrap64_id by (unfold in_int64; nia). lia.
  - rewrite lookup_singleton_ne by done. done.
Qed.

Lemma is_temp_bound v : is_temp v = true -> -999 <= denoted_tenths v <= 999.
Proof.
  unfold is_temp. intros H.
  destruct v as [|c0 v]; [done|].
  case_bool_decide as Hneg.
  - subst c0.
    destruct v as [|a [|b [|c [|d [|? ?]]]]]; try done; digits_in_range; subst;
      unfold denoted_tenths, digits_value; simpl;
      rewrite ?filter_cons, ?filter_nil; repeat (case_decide; try done); simpl; lia.
  - destruct v as [|b [|c [|d [|? ?]]]]; try done; digits_in_range; subst;
      unfold denoted_tenths, digits_value; simpl;
      repeat (case_bool_decide; try done);
      rewrite ?filter_cons, ?filter_nil; repeat (case_decide; try done); simpl; lia.
Qed.

Lemma reading_bound l o : reading l = Some o -> -999 <= o.2 <= 999.
Proof.
  unfold reading. destruct (split_key l) as [[k v]|]; [|done].
  destruct (is_temp v) eqn:Hv; [|done]. intros [= <-]. by apply is_temp_bound.
Qed.

Lemma obs_of_reading l : valid_line l = true -> obs_of l = reading l.
Proof.
  unfold valid_line, reading. destruct (split_key l) as [[k v]|] eqn:Hs; [|done].
  intros Hv. rewrite Hv. by apply obs_of_valid.
Qed.

Lemma obs_of_readings data :
  valid_file data = true -> omap obs_of (text_lines data) = readings data.
Proof.
  intros H%valid_file_lines. unfold readings.
  induction H as [|l lines Hl _ IH]; [done|].
  cbn [omap list_omap]. by rewrite obs_of_reading, IH.
Qed.

Lemma strings_Split_length s sep :
  (length (strings_Split s sep) <= S (length s))%nat.
Proof.
  induction s as [|c s IH]; simpl; [lia|].
  case_bool_decide; simpl; [lia|].
  destruct (strings_Split s sep); simpl in *; lia.
Qed.

Lemma text_lines_length data : (length (text_lines data) <= S (length data))%nat.
Proof.
  pose proof (strings_Split_length data nl) as H.
  destruct (text_lines_split data) as [E|E]; rewrite E in H; [done|].
  rewrite length_app in H. lia.
Qed.

Lemma omap_length {A B} (f : A -> option B) (l : list A) :
  (length (omap f l) <= length l)%nat.
Proof.
  induction l as [|x l IH]; [done|]. cbn [omap list_omap].
  destruct (f x); simpl length; lia.
Qed.

Lemma readings_length data : (length (readings data) <= S (length data))%nat.
Proof.
  unfold readings. etrans; [apply omap_length|apply text_lines_length].
Qed.

Lemma readings_bound data : Forall (fun o => -999 <= o.2 <= 999) (readings data).
Proof.
  apply list.Forall_forall. intros o (l & _ & Hl)%list_elem_of_omap.
  by apply (reading_bound l).
Qed.

(** The aggregate of the readings of a file below 2^50 bytes. *)
Lemma readings_statistics data key :
  len data < 2 ^ 50 ->
  aggregate (readings data) !! key = statistics (values_of key (readings data)).
Proof.
  intros Hlen. apply (aggregate_statistics 999); [lia|apply readings_bound|].
  pose proof (readings_length data). unfold len in Hlen. lia.
Qed.

(** ** Whenever the concurrent path returns *)

Lemma parseFileWithConcurrency_returns file csize ctx sched fuel locations m err :
  0 < csize ->
  len (contents file) + csize < 2 ^ 63 ->
  stat_fails file = false ->
  cancelled ctx = false ->
  valid_file (contents file) = true ->
  parseFileWithConcurrency fuel csize ctx sched file = Returns (locations, m, err) ->
  err = None /\ m = aggregate (omap obs_of (text_lines (contents file))).
Proof.
  intros HC Hov Hstat Hctx Hvalid.
  unfold parseFileWithConcurrency, lineOrchestrator, Stat. rewrite Hstat.
  destruct (dispatch_loop fuel csize file (len (contents file)) 0) as [chunks|] eqn:Hd;
    [|done].
  assert (aligned (contents file) csize 0 chunks) as Hal.
  { apply (dispatch_loop_ends_aligned csize file HC Hov fuel); [|exact Hd].
    split; [lia|apply Nat2Z.is_nonneg]. }
  destruct (workers_aggregate file csize 0 chunks Hal HC) as (ms & Hms & Hfold);
    [lia | by apply valid_file_chunk_ok |].
  change (drop (Z.to_nat 0) (contents file)) with (contents file) in Hfold.
  rewrite obs_of_text_lines in Hfold.
  rewrite Hms, omap_id_Some.
  destruct (select_loop_uncancelled ctx sched 0 (shuffle (arrival sched) ms) ([], ∅) Hctx)
    as [Herr Hmap].
  intros [= E]. rewrite E in Herr, Hmap. simpl in *.
  split; [done|]. rewrite Hmap, <- Hfold.
  apply fold_merge_maps_Permutation, shuffle_Permutation.
Qed.

(** ** The formatter and its key list *)

Lemma sort_Strings_Permutation (l1 l2 : list bytes) :
  l1 ≡ₚ l2 -> sort_Strings l1 = sort_Strings l2.
Proof.
  intros HP. apply (StronglySorted_unique bytes_le).
  - apply StronglySorted_merge_sort; apply _.
  - apply StronglySorted_merge_sort; apply _.
  - unfold sort_Strings. by rewrite !merge_sort_Permutation.
Qed.

(** The loop stops at the first key that the map does not hold. *)
Lemma result_loop_missing (m : gmap bytes Location) pre k post i buffer :
  Forall (fun k => is_Some (m !! k)) pre -> m !! k = None ->
  result_loop i (pre ++ k :: post) m buffer = ([], Some (ErrNotInMap k)).
Proof.
  intros Hpre Hk. revert i buffer.
  induction Hpre as [|x pre [d Hd] _ IH]; intros i buffer; simpl.
  - by rewrite Hk.
  - rewrite Hd. apply IH.
Qed.

Lemma first_missing (m : gmap bytes Location) (ks : list bytes) :
  Forall (fun k => is_Some (m !! k)) ks \/
  exists pre k post,
    ks = pre ++ k :: post /\ Forall (fun k => is_Some (m !! k)) pre /\ m !! k = None.
Proof.
  induction ks as [|x ks IH]; [left; constructor|].
  destruct (m !! x) as [d|] eqn:Hx.
  - destruct IH as [Hall|(pre & k & post & -> & Hpre & Hk)].
    + left. constructor; [eauto|done].
    + right. exists (x :: pre), k, post. split; [done|]. split; [|done].
      constructor; [eauto|done].
  - right. exists [], x, ks. split; [done|]. split; [constructor|done].
Qed.

Lemma createResult_present (locations : list bytes) (m : gmap bytes Location) :
  Forall (fun k => is_Some (m !! k)) locations ->
  createResult locations m = (result_text m (sort_Strings locations), None).
Proof.
  intros H. unfold createResult, result_text.
  rewrite result_loop_text; [done|].
  unfold sort_Strings. by rewrite merge_sort_Permutation.
Qed.

Lemma createResult_missing (locations : list bytes) (m : gmap bytes Location) k :
  k ∈ locations -> m !! k = None ->
  exists k',
    createResult locations m = ([], Some (ErrNotInMap k')) /\
    k' ∈ locations /\ m !! k' = None /\
    forall k'', k'' ∈ locations -> m !! k'' = None -> bytes_le k' k''.
Proof.
  intros Hin Hk. unfold createResult.
  pose proof (StronglySorted_merge_sort bytes_le locations) as Hsorted.
  pose proof (merge_sort_Permutation bytes_le locations) as HP.
  fold (sort_Strings locations) in Hsorted, HP.
  destruct (first_missing m (sort_Strings locations))
    as [Hall|(pre & k' & post & E & Hpre & Hk')].
  - rewrite list.Forall_forall in Hall.
    destruct (Hall k) as [d Hd]; [by rewrite HP|congruence].
  - exists k'. rewrite E, result_loop_missing by done.
    split; [done|]. split; [rewrite <- HP, E; set_solver|]. split; [done|].
    intros k'' Hin'' Hk''. rewrite <- HP, E in Hin''.
    rewrite E in Hsorted. apply StronglySorted_app_1_r in Hsorted.
    apply elem_of_app in Hin'' as [Hin''|Hin''].
    + rewrite list.Forall_forall in Hpre. destruct (Hpre k'' Hin'') as [d Hd]. congruence.
    + apply elem_of_cons in Hin'' as [->|Hin'']; [by destruct (total bytes_le k' k')|].
      apply StronglySorted_inv in Hsorted as [_ Hle].
      rewrite list.Forall_forall in Hle. by apply Hle.
Qed.

(** ** The errors of a run *)

Lemma scan_tokens_error lines e : (scan_tokens lines).2 = Some e -> e = ErrTooLong.
Proof.
  induction lines as [|l lines IH]; simpl; [done|].
  destruct (MaxScanTokenSize <=? len l); simpl; [by intros [= <-]|].
  destruct (scan_tokens lines) as [ts e']. simpl in *. exact IH.
Qed.

Lemma parseFile_error data locations m e :
  parseFile data = Some (locations, m, Some e) ->
  locations = [] /\ m = ∅ /\ e = ErrTooLong.
Proof.
  unfold parseFile. pose proof (scan_tokens_error (text_lines data)) as He.
  unfold scanner. destruct (scan_tokens (text_lines data)) as [tokens err].
  destruct (file_loop tokens ([], ∅)) as [[locs gm]|]; simpl; [|done].
  destruct err as [e'|]; [|done]. intros [= <- <- <-]. by rewrite (He e').
Qed.

Lemma select_loop_error ctx sched turn pending st e :
  (select_loop ctx sched turn pending st).2 = Some e ->
  e = ErrCancelled /\ cancelled ctx = true.
Proof.
  revert turn st. induction pending as [|m pending IH]; intros turn st; simpl.
  - destruct (cancelled ctx); simpl; [|done].
    destruct (turn =? cancel_turn sched)%nat; simpl; [by intros [= <-]|done].
  - destruct (cancelled ctx) eqn:Hc; simpl.
    + destruct (turn =? cancel_turn sched)%nat; simpl; [by intros [= <-]|].
      intros H. apply IH in H as [-> _]. done.
    + intros H. apply IH in H as [_ H]. done.
Qed.

Lemma run_error fuel csize ctx sched opened concurrency out e :
  run fuel csize ctx sched opened concurrency = Returns (out, Some e) ->
  out = [] /\
  ((opened = None /\ e = ErrOpen) \/
   (concurrency = false /\ e = ErrTooLong) \/
   (concurrency = true /\ cancelled ctx = true /\ e = ErrCancelled)).
Proof.
  unfold run. destruct opened as [f|]; [|intros [= <- <-]; auto].
  destruct concurrency.
  - destruct (parseFileWithConcurrency fuel csize ctx sched f)
      as [[[locations m] [err|]]| |] eqn:E; try done.
    + intros [= <- <-]. split; [done|]. right. right.
      unfold parseFileWithConcurrency in E.
      destruct (lineOrchestrator fuel csize f) as [[e' sent]| |]; [|done..].
      injection E as E.
      destruct (select_loop_error ctx sched 0 (shuffle (arrival sched) sent) ([], ∅) err)
        as [-> Hc]; [by rewrite E|]. done.
    + rewrite createResult_text
        by (by eapply parseFileWithConcurrency_keys_match). done.
  - destruct (parseFile (contents f)) as [[[locations m] [err|]]|] eqn:E; try done.
    + intros [= <- <-]. split; [done|]. right. left.
      by apply parseFile_error in E as (_ & _ & ->).
    + rewrite createResult_text by (by eapply parseFile_keys_match). done.
Qed.

(** ** Cancellation *)

Lemma select_loop_cancelled ctx sched pending : forall turn st,
  cancelled ctx = true ->
  (turn <= cancel_turn sched)%nat ->
  (select_loop ctx sched turn pending st).2
  = (if (cancel_turn sched - turn <=? length pending)%nat
     then Some ErrCancelled else None) /\
  (select_loop ctx sched turn pending st).1.2
  = fold_left merge_maps (take (cancel_turn sched - turn) pending) st.2.
Proof.
  induction pending as [|m pending IH]; intros turn st Hc Hle; simpl; rewrite Hc; simpl.
  - destruct (Nat.eqb_spec turn (cancel_turn sched)) as [->|Hne]; simpl.
    + rewrite Nat.sub_diag. done.
    + destruct (Nat.leb_spec (cancel_turn sched - turn) 0); [lia|].
      by rewrite take_nil.
  - destruct (Nat.eqb_spec turn (cancel_turn sched)) as [->|Hne]; simpl.
    + rewrite Nat.sub_diag. done.
    + destruct (IH (S turn)
                  (merge_received (default [] (iteration sched !! turn)) st m) Hc)
        as [-> ->]; [lia|].
      replace (cancel_turn sched - turn)%nat with (S (cancel_turn sched - S turn)) by lia.
      simpl. destruct st as [locations gm]. by rewrite merge_received_map.
Qed.

(** ** Carriage returns *)

Lemma incomplete_cr v : is_temp v = true -> incomplete (v ++ [cr]) = true.
Proof.
  intros H. destruct (is_temp_last v H) as (v' & c & -> & Hc).
  unfold incomplete. apply orb_true_iff. right.
  apply negb_true_iff, bool_decide_eq_false.
  replace (len ((v' ++ [c]) ++ [cr]) - 2) with (len v')
    by (unfold len; rewrite !length_app; simpl; lia).
  rewrite index_lookup by (unfold len; lia). unfold len. rewrite Nat2Z.id.
  rewrite <- app_assoc, lookup_app_r by done. rewrite Nat.sub_diag. simpl.
  intros [= ->]. by vm_compute in Hc.
Qed.

Lemma processLine_cr l : valid_line l = true -> processLine (l ++ [cr]) = Some ([], None).
Proof.
  unfold valid_line. intros H.
  destruct (split_key l) as [[k v]|] eqn:Hs; [|done].
  destruct (split_key_Some l k v Hs) as (-> & Hk & _).
  pose proof (split_key_app k (v ++ [cr]) Hk) as Hs'.
  destruct (split_key_Some _ _ _ Hs') as (_ & _ & Hi & Ht & Hd).
  replace ((k ++ semi :: v) ++ [cr]) with (k ++ semi :: v ++ [cr])
    by (by rewrite <- app_assoc).
  rewrite processLine_nonempty by (by destruct k). cbv zeta.
  rewrite Hi, Hd.
  destruct (Z.eqb_spec (len k) (-1)); [unfold len in *; lia|].
  by rewrite incomplete_cr.
Qed.

Lemma dropCR_cr l : dropCR (l ++ [cr]) = l.
Proof.
  unfold dropCR. rewrite reverse_snoc, bool_decide_true by done.
  apply reverse_involutive.
Qed.

Lemma strings_Split_crlf lines :
  Forall (fun l => nl ∉ l) lines ->
  strings_Split (crlf_text lines) nl = ((fun l => l ++ [cr]) <$> lines) ++ [[]].
Proof.
  induction 1 as [|l lines Hl _ IH]; [done|].
  unfold crlf_text in *. cbn [map concat fmap list_fmap].
  replace ((l ++ [cr; nl]) ++ concat (map (fun l => l ++ [cr; nl]) lines))
    with ((l ++ [cr]) ++ nl :: concat (map (fun l => l ++ [cr; nl]) lines))
    by (by rewrite <- !app_assoc).
  rewrite strings_Split_app_sep, IH, strings_Split_no_sep; [done|].
  intros [?|Hc%list_elem_of_singleton]%elem_of_app; done.
Qed.

Lemma text_lines_crlf lines :
  Forall (fun l => nl ∉ l) lines ->
  text_lines (crlf_text lines) = (fun l => l ++ [cr]) <$> lines.
Proof.
  intros H. unfold text_lines. rewrite strings_Split_crlf by done.
  rewrite reverse_snoc. apply reverse_involutive.
Qed.

Lemma scan_tokens_crlf lines :
  Forall (fun l => len l + 1 < MaxScanTokenSize) lines ->
  scan_tokens ((fun l => l ++ [cr]) <$> lines) = (lines, None).
Proof.
  induction 1 as [|l lines Hl _ IH]; [done|].
  cbn [fmap list_fmap scan_tokens]. fold (fmap (M := list) (fun l => l ++ [cr]) lines).
  destruct (Z.leb_spec MaxScanTokenSize (len (l ++ [cr]))) as [Hlong|_].
  { unfold len in *. rewrite length_app in Hlong. simpl in Hlong. lia. }
  by rewrite IH, dropCR_cr.
Qed.

Lemma omap_obs_of_readings lines :
  Forall (fun l => valid_line l = true) lines ->
  omap obs_of lines = omap reading lines.
Proof.
  induction 1 as [|l lines Hl _ IH]; [done|].
  cbn [omap list_omap]. by rewrite obs_of_reading, IH.
Qed.

(** ** Reading and writing one value *)

Lemma digit_cases c :
  is_digit c = true ->
  c = "0"%char \/ c = "1"%char \/ c = "2"%char \/ c = "3"%char \/ c = "4"%char \/
  c = "5"%char \/ c = "6"%char \/ c = "7"%char \/ c = "8"%char \/ c = "9"%char.
Proof.
  intros H%is_digit_range.
  assert (byteZ c = 48 \/ byteZ c = 49 \/ byteZ c = 50 \/ byteZ c = 51 \/ byteZ c = 52 \/
          byteZ c = 53 \/ byteZ c = 54 \/ byteZ c = 55 \/ byteZ c = 56 \/ byteZ c = 57)
    as Hc by lia.
  destruct Hc as [Hc|[Hc|[Hc|[Hc|[Hc|[Hc|[Hc|[Hc|[Hc|Hc]]]]]]]]];
    [left|do 1 right; left|do 2 right; left|do 3 right; left|do 4 right; left
    |do 5 right; left|do 6 right; left|do 7 right; left|do 8 right; left|do 9 right];
    apply byteZ_inj; exact Hc.
Qed.

Lemma decimal_digit c : is_digit c = true -> decimal (byteZ c - 48) = [c].
Proof.
  intros H. destruct (digit_cases c H) as [->|[->|[->|[->|[->|[->|[->|[->|[->| ->]]]]]]]]];
    reflexivity.
Qed.

Lemma decimal_two_digits a b :
  is_digit a = true -> is_digit b = true -> a ≠ "0"%char ->
  decimal (10 * (byteZ a - 48) + (byteZ b - 48)) = [a; b].
Proof.
  intros Ha Hb Ha0.
  destruct (digit_cases a Ha) as [->|[->|[->|[->|[->|[->|[->|[->|[->| ->]]]]]]]]];
    try done;
    destruct (digit_cases b Hb) as [->|[->|[->|[->|[->|[->|[->|[->|[->| ->]]]]]]]]];
    reflexivity.
Qed.

Lemma render_tenths_nonneg n :
  0 <= n -> render_tenths n = decimal (n / 10) ++ ["."%char] ++ decimal (n mod 10).
Proof.
  intros Hn. unfold render_tenths, tenths_text.
  destruct (Z.ltb_spec n 0); [lia|]. by rewrite Z.abs_eq.
Qed.

Lemma render_tenths_neg n :
  0 < n -> render_tenths (- n)
           = ["-"%char] ++ decimal (n / 10) ++ ["."%char] ++ decimal (n mod 10).
Proof.
  intros Hn. unfold render_tenths, tenths_text.
  destruct (Z.ltb_spec (- n) 0); [|lia].
  by replace (Z.abs (- n)) with n by lia.
Qed.

Ltac denoted_value :=
  intros; digits_in_range; unfold denoted_tenths, digits_value; simpl;
  repeat (case_bool_decide; try done);
  rewrite ?filter_cons, ?filter_nil; repeat (case_decide; try done); simpl; lia.

Lemma denoted_tenths_1 a c :
  is_digit a = true -> is_digit c = true ->
  denoted_tenths [a; "."%char; c] = 10 * (byteZ a - 48) + (byteZ c - 48).
Proof. denoted_value. Qed.

Lemma denoted_tenths_2 a b c :
  is_digit a = true -> is_digit b = true -> is_digit c = true ->
  denoted_tenths [a; b; "."%char; c]
  = 10 * (10 * (byteZ a - 48) + (byteZ b - 48)) + (byteZ c - 48).
Proof. denoted_value. Qed.

Lemma denoted_tenths_neg u :
  denoted_tenths ("-"%char :: u) = - digits_value (filter (fun c => c ≠ "."%char) u).
Proof. reflexivity. Qed.

Lemma denoted_tenths_pos c u :
  c ≠ "-"%char ->
  denoted_tenths (c :: u) = digits_value (filter (fun c => c ≠ "."%char) (c :: u)).
Proof. intros H. unfold denoted_tenths. by rewrite bool_decide_false. Qed.

Lemma digit_zero c : is_digit c = true -> byteZ c - 48 = 0 -> c = "0"%char.
Proof. intros _ H. apply byteZ_inj. change (byteZ "0") with 48. lia. Qed.

Lemma render_digits_1 a c :
  is_digit a = true -> is_digit c = true ->
  let n := 10 * (byteZ a - 48) + (byteZ c - 48) in
  decimal (n / 10) ++ ["."%char] ++ decimal (n mod 10) = [a; "."%char; c].
Proof.
  intros Ha Hc n.
  pose proof (is_digit_range a Ha). pose proof (is_digit_range c Hc).
  replace (n / 10) with (byteZ a - 48) by (unfold n; Z.div_mod_to_equations; lia).
  replace (n mod 10) with (byteZ c - 48) by (unfold n; Z.div_mod_to_equations; lia).
  by rewrite !decimal_digit.
Qed.

Lemma render_digits_2 a b c :
  is_digit a = true -> is_digit b = true -> is_digit c = true -> a ≠ "0"%char ->
  let n := 10 * (10 * (byteZ a - 48) + (byteZ b - 48)) + (byteZ c - 48) in
  decimal (n / 10) ++ ["."%char] ++ decimal (n mod 10) = [a; b; "."%char; c].
Proof.
  intros Ha Hb Hc Ha0 n.
  pose proof (is_digit_range a Ha). pose proof (is_digit_range b Hb).
  pose proof (is_digit_range c Hc).
  replace (n / 10) with (10 * (byteZ a - 48) + (byteZ b - 48)) by (unfold n; Z.div_mod_to_equations; lia).
  replace (n mod 10) with (byteZ c - 48) by (unfold n; Z.div_mod_to_equations; lia).
  by rewrite decimal_two_digits, decimal_digit.
Qed.

Ltac split_tests :=
  repeat match goal with
  | H : _ && _ = true |- _ => apply andb_true_iff in H as [? ?]
  | H : bool_decide _ = true |- _ => apply bool_decide_eq_true in H
  | H : negb (bool_decide _) = true |- _ =>
      apply negb_true_iff, bool_decide_eq_false in H
  end.

Lemma render_denoted v : canonical v = true -> render_tenths (denoted_tenths v) = v.
Proof.
  unfold canonical, is_temp, unsigned. intros H.
  destruct v as [|c0 v]; [done|].
  case_bool_decide as Hneg.
  - subst c0.
    destruct v as [|a [|b [|c [|d [|? ?]]]]]; try done; split_tests; subst.
    + rewrite denoted_tenths_neg, <- (denoted_tenths_pos a) by (by apply is_digit_not_minus).
      rewrite denoted_tenths_1 by done.
      rewrite render_tenths_neg, render_digits_1; [done..|].
      pose proof (is_digit_range a ltac:(done)). pose proof (is_digit_range c ltac:(done)).
      destruct (decide (byteZ a - 48 = 0)) as [Ha0|]; [|lia].
      destruct (decide (byteZ c - 48 = 0)) as [Hc0|]; [|lia].
      apply digit_zero in Ha0, Hc0; [|done..]. by subst.
    + rewrite denoted_tenths_neg, <- (denoted_tenths_pos a) by (by apply is_digit_not_minus).
      rewrite denoted_tenths_2 by done.
      rewrite render_tenths_neg, render_digits_2; [done..|].
      pose proof (is_digit_range a ltac:(done)). pose proof (is_digit_range b ltac:(done)).
      pose proof (is_digit_range d ltac:(done)).
      destruct (decide (byteZ a - 48 = 0)) as [Ha0|]; [|lia].
      apply digit_zero in Ha0; done.
  - destruct v as [|b [|c [|d [|? ?]]]]; try done; split_tests; subst.
    + rewrite denoted_tenths_1 by done.
      pose proof (is_digit_range c0 ltac:(done)). pose proof (is_digit_range c ltac:(done)).
      rewrite render_tenths_nonneg by lia. by apply render_digits_1.
    + rewrite denoted_tenths_2 by done.
      pose proof (is_digit_range c0 ltac:(done)). pose proof (is_digit_range b ltac:(done)).
      pose proof (is_digit_range d ltac:(done)).
      rewrite render_tenths_nonneg by lia. by apply render_digits_2.
Qed.

Lemma render_single key t :
  Z.abs t < 2 ^ 50 ->
  render_entry key (mkLocation t t t 1)
  = key ++ ["="%char] ++ render_tenths t ++ ["/"%char] ++ render_tenths t
    ++ ["/"%char] ++ render_tenths t.
Proof.
  intros Ht. unfold render_entry. cbn [Min Max Total Count].
  rewrite !FormatFloat_tenths, average_text by lia.
  do 4 f_equal. unfold render_tenths, round_half_away.
  replace ((2 * Z.abs t + 1) / (2 * 1)) with (Z.abs t)
    by (Z.div_mod_to_equations; lia).
  f_equal. destruct t as [|p|p]; reflexivity.
Qed.

Lemma is_temp_no_newline v : is_temp v = true -> nl ∉ v.
Proof.
  unfold is_temp. intros H Hin.
  assert (is_digit nl = false) as Hd by reflexivity.
  destruct v as [|c0 v]; [done|].
  case_bool_decide as Hneg.
  - subst c0.
    destruct v as [|a [|b [|c [|d [|? ?]]]]]; try done; split_tests; subst;
      repeat (apply elem_of_cons in Hin as [Hin|Hin]; [try done; subst; congruence|]);
      by apply elem_of_nil in Hin.
  - destruct v as [|b [|c [|d [|? ?]]]]; try done; split_tests; subst;
      repeat (apply elem_of_cons in Hin as [Hin|Hin]; [try done; subst; congruence|]);
      by apply elem_of_nil in Hin.
Qed.

Lemma is_temp_length v : is_temp v = true -> len v <= 5.
Proof.
  unfold is_temp, len. intros H.
  destruct v as [|c0 v]; [done|].
  case_bool_decide as Hneg.
  - destruct v as [|a [|b [|c [|d [|? ?]]]]]; try done; simpl; lia.
  - destruct v as [|b [|c [|d [|? ?]]]]; try done; simpl; lia.
Qed.

(** A file of one valid line, through the sequential aggregator. *)
Lemma parseFile_one_line k v :
  semi ∉ k -> nl ∉ k -> is_temp v = true ->
  len k + 6 < MaxScanTokenSize ->
  parseFile (k ++ semi :: v ++ [nl])
  = Some ([k], {[ k := mkLocation (denoted_tenths v) (denoted_tenths v)
                                  (denoted_tenths v) 1 ]}, None).
Proof.
  intros Hk Hnl Hv Hlen.
  pose proof (split_key_app k v Hk) as Hs.
  destruct (split_key_Some _ _ _ Hs) as (_ & _ & Hi & Ht & Hd).
  assert (valid_line (k ++ semi :: v) = true) as Hvalid
    by (unfold valid_line; by rewrite Hs).
  assert (text_lines (k ++ semi :: v ++ [nl]) = [k ++ semi :: v]) as Hlines.
  { unfold text_lines.
    replace (k ++ semi :: v ++ [nl]) with ((k ++ semi :: v) ++ nl :: [])
      by (by rewrite <- app_assoc).
    rewrite strings_Split_app_sep, strings_Split_no_sep; [done|].
    intros [?|[?|?]%elem_of_cons]%elem_of_app; [done..|].
    by apply (is_temp_no_newline v). }
  unfold parseFile, scanner. rewrite Hlines. cbn [scan_tokens].
  destruct (Z.leb_spec MaxScanTokenSize (len (k ++ semi :: v))) as [Hlong|_].
  { pose proof (is_temp_length v Hv). unfold len in *.
    rewrite length_app in Hlong. simpl in Hlong. lia. }
  rewrite dropCR_valid by done. cbn [file_loop]. unfold file_step.
  rewrite Hi, Ht, Hd.
  destruct (Z.eqb_spec (len k) (-1)); [unfold len in *; lia|].
  rewrite parseNumber_tenths by done. simpl. rewrite lookup_empty. simpl.
  by rewrite insert_empty.
Qed.

Lemma createResult_one_key k loc :
  createResult [k] {[ k := loc ]}
  = (str "{" ++ render_entry k loc ++ str "}", None).
Proof.
  unfold createResult.
  assert (sort_Strings [k] = [k]) as -> by reflexivity.
  simpl. rewrite lookup_singleton_eq. reflexivity.
Qed.

(** ** The whole run on a valid file *)

Lemma foldr_min_bound B t r :
  Forall (fun x => - B <= x <= B) (t :: r) ->
  - B <= foldr Z.min t r <= B /\ Forall (fun x => foldr Z.min t r <= x) (t :: r).
Proof.
  intros [Ht Hr]%list.Forall_cons. induction Hr as [|x r Hx Hr [IH1 IH2]]; simpl.
  - split; [lia|]. repeat constructor. lia.
  - split; [lia|].
    apply list.Forall_cons in IH2 as [IHt IHr].
    constructor; [lia|]. constructor; [lia|].
    eapply list.Forall_impl; [exact IHr|]. simpl. lia.
Qed.

Lemma foldr_max_bound B t r :
  Forall (fun x => - B <= x <= B) (t :: r) ->
  - B <= foldr Z.max t r <= B /\ Forall (fun x => x <= foldr Z.max t r) (t :: r).
Proof.
  intros [Ht Hr]%list.Forall_cons. induction Hr as [|x r Hx Hr [IH1 IH2]]; simpl.
  - split; [lia|]. repeat constructor. lia.
  - split; [lia|].
    apply list.Forall_cons in IH2 as [IHt IHr].
    constructor; [lia|]. constructor; [lia|].
    eapply list.Forall_impl; [exact IHr|]. simpl. lia.
Qed.

Lemma statistics_bounds B ts loc :
  Forall (fun x => - B <= x <= B) ts ->
  statistics ts = Some loc ->
  Count loc = Z.of_nat (length ts) /\ 1 <= Count loc /\
  - B <= Min loc <= B /\ - B <= Max loc <= B /\
  - (B * Count loc) <= Total loc <= B * Count loc.
Proof.
  intros Hb. destruct ts as [|t r]; [done|]. intros [= <-]. simpl.
  pose proof (foldr_min_bound B t r Hb) as [Hmin _].
  pose proof (foldr_max_bound B t r Hb) as [Hmax _].
  pose proof (foldr_add_bound B t r Hb) as Hsum. simpl length in Hsum.
  repeat split; lia.
Qed.

Lemma render_entry_printed key details :
  0 < Count details < 2 ^ 50 -> Z.abs (Total details) < 2 ^ 50 ->
  Z.abs (Min details) < 2 ^ 50 -> Z.abs (Max details) < 2 ^ 50 ->
  render_entry key details = printed_entry key details.
Proof.
  intros HC HT Hmin Hmax. unfold render_entry, printed_entry.
  by rewrite !FormatFloat_tenths, average_text by done.
Qed.

Lemma result_text_expected (m : gmap bytes Location) (ks : list bytes) :
  (forall k details, m !! k = Some details ->
     0 < Count details < 2 ^ 50 /\ Z.abs (Total details) < 2 ^ 50 /\
     Z.abs (Min details) < 2 ^ 50 /\ Z.abs (Max details) < 2 ^ 50) ->
  result_text m ks = expected_text m ks.
Proof.
  intros Hm. unfold result_text, expected_text.
  assert (omap (fun k => render_entry k <$> m !! k) ks
          = omap (fun k => printed_entry k <$> m !! k) ks) as ->; [|done].
  induction ks as [|k ks IH]; [done|]. cbn [omap list_omap].
  destruct (m !! k) as [details|] eqn:Hk; cbn [fmap option_fmap option_map]; [|exact IH].
  destruct (Hm k details Hk) as (? & ? & ? & ?).
  by rewrite render_entry_printed, IH.
Qed.

Lemma readings_entries (data : bytes) (m : gmap bytes Location) :
  len data < 2 ^ 40 ->
  (forall k, m !! k = statistics (values_of k (readings data))) ->
  forall k details, m !! k = Some details ->
    0 < Count details < 2 ^ 50 /\ Z.abs (Total details) < 2 ^ 50 /\
    Z.abs (Min details) < 2 ^ 50 /\ Z.abs (Max details) < 2 ^ 50.
Proof.
  intros Hlen Hm k details Hk. rewrite Hm in Hk.
  pose proof (values_of_bound 999 k (readings data) (readings_bound data)) as Hb.
  destruct (statistics_bounds 999 _ _ Hb Hk) as (HC & H1 & Hmin & Hmax & HT).
  pose proof (values_of_length k (readings data)).
  pose proof (readings_length data). unfold len in Hlen.
  repeat split; lia.
Qed.

(** ** The parser, the lines and the chunks *)

(** X7. [parseNumber] panics exactly on the values that, after an optional
    minus sign, have fewer than three bytes, or three bytes of which the
    second is not a point. *)
Theorem parseNumber_panics_iff (v : bytes) : parseNumber v = None <-> too_short v.
Proof. exact (parseNumber_None v). Qed.

(** X8. [parseNumber] reads a well-formed value at the beginning of its
    argument and ignores the bytes after it. *)
Theorem parseNumber_ignores_suffix (v w : bytes) :
  is_temp v = true -> parseNumber (v ++ w) = Some (denoted_tenths v).
Proof. exact (parseNumber_prefix v w). Qed.

Lemma parseNumber_ignores_suffix_witness : parseNumber (str "12.345") = Some 123.
Proof. exact (parseNumber_ignores_suffix (str "12.3") (str "45") eq_refl). Defined.

(** X9. [processLine] panics on exactly the lines whose text after the first
    delimiter is a minus sign, a point and one more byte. *)
Theorem processLine_panics_iff (l : bytes) : processLine l = None <-> fatal_line l.
Proof. exact (processLine_None l). Qed.

(** X10. The beginning of a valid line, cut anywhere before its end, is
    skipped by [processLine]: a chunk that ends inside a line records
    nothing for that line. *)
Theorem processLine_skips_cut_line (p h : bytes) :
  valid_line (p ++ h) = true -> h ≠ [] -> processLine p = Some ([], None).
Proof. exact (processLine_cut p h). Qed.

Lemma processLine_skips_cut_line_witness : processLine (str "ham;12") = Some ([], None).
Proof.
  apply (processLine_skips_cut_line (str "ham;12") (str ".5")); [reflexivity|discriminate].
Defined.

(** X11. On a line [key;value] with a well-formed value [processLine] returns
    the key and a location whose minimum, maximum and total are the tenths
    the value denotes, with count 1. *)
Theorem processLine_reads_valid_line (k v : bytes) :
  semi ∉ k -> is_temp v = true ->
  processLine (k ++ semi :: v)
  = Some (k, Some (mkLocation (denoted_tenths v) (denoted_tenths v)
                              (denoted_tenths v) 1)).
Proof.
  intros Hk Hv. apply processLine_valid; [by apply split_key_app|done].
Qed.

Lemma processLine_reads_valid_line_witness :
  processLine (str "ham;-12.5")
  = Some (str "ham", Some (mkLocation (-125) (-125) (-125) 1)).
Proof.
  apply (processLine_reads_valid_line (str "ham") (str "-12.5")); [|reflexivity].
  intros H. repeat (apply elem_of_cons in H as [H|H]; [discriminate H|]).
  by apply elem_of_nil in H.
Defined.

(** X12. [processChunk] panics exactly when one of the lines of the chunk is a
    line on which [processLine] panics, whatever the other lines hold. *)
Theorem processChunk_panics_iff (input : bytes) :
  processChunk input = None <-> Exists fatal_line (strings_Split input nl).
Proof.
  unfold processChunk. rewrite chunk_loop_None.
  split; apply Exists_impl; intros l; apply processLine_None.
Qed.

(** X13. The map of two chunks joined by a newline is the merge of the maps of
    the two chunks, and a panic on either of them is a panic on the whole. *)
Theorem processChunk_splits_at_newline (a b : bytes) :
  processChunk (a ++ nl :: b)
  = (ma ← processChunk a; mb ← processChunk b; Some (merge_maps ma mb)).
Proof. exact (processChunk_newline a b). Qed.

(** X14. [parseFile] panics exactly when one of the scanned lines has a
    delimiter followed by a value too short for [parseNumber]. *)
Theorem parseFile_panics_iff (data : bytes) :
  parseFile data = None <-> Exists fatal_token (scanner data).1.
Proof. exact (parseFile_None data). Qed.

Lemma scan_tokens_too_long pre l post :
  Forall (fun x => valid_line x = true /\ len x < MaxScanTokenSize) pre ->
  MaxScanTokenSize <= len l ->
  scan_tokens (pre ++ l :: post) = (pre, Some ErrTooLong).
Proof.
  intros Hpre Hl. induction Hpre as [|x pre [Hv Hx] _ IH]; simpl.
  - by destruct (Z.leb_spec MaxScanTokenSize (len l)); [|lia].
  - destruct (Z.leb_spec MaxScanTokenSize (len x)); [lia|].
    by rewrite IH, dropCR_valid.
Qed.

(** X15. When the scanner meets a line of 65536 bytes or more after valid
    lines, [parseFile] returns the scanner's error with neither keys nor
    map, and the sequential run returns the empty string with that error:
    what the lines before said is dropped. *)
Theorem parseFile_too_long (data : bytes) (pre : list bytes) (l : bytes)
    (post : list bytes) :
  text_lines data = pre ++ l :: post ->
  Forall (fun x => valid_line x = true /\ len x < MaxScanTokenSize) pre ->
  MaxScanTokenSize <= len l ->
  parseFile data = Some ([], ∅, Some ErrTooLong) /\
  forall fuel csize ctx sched,
    run fuel csize ctx sched (Some (mkFile data false)) false
    = Returns ([], Some ErrTooLong).
Proof.
  intros Hlines Hpre Hl.
  assert (parseFile data = Some ([], ∅, Some ErrTooLong)) as H.
  { unfold parseFile, scanner. rewrite Hlines, (scan_tokens_too_long pre l post) by done.
    destruct (file_loop_obs pre [] ∅) as [locations ->]; [|done].
    eapply list.Forall_impl; [exact Hpre|]. intros x [Hx _]. by left. }
  split; [exact H|]. intros fuel csize ctx sched. unfold run. cbn [contents].
  by rewrite H.
Qed.

Lemma text_lines_two (a b : bytes) :
  nl ∉ a -> nl ∉ b -> b ≠ [] -> text_lines (a ++ nl :: b) = [a; b].
Proof.
  intros Ha Hb Hne. unfold text_lines.
  rewrite strings_Split_app_sep, !strings_Split_no_sep by done.
  by destruct b.
Qed.

Lemma parseFile_too_long_witness :
  parseFile oversized_text = Some ([], ∅, Some ErrTooLong).
Proof.
  refine (proj1 (parseFile_too_long oversized_text [str "a;1.0"]
                   (replicate (Z.to_nat MaxScanTokenSize) "b"%char) [] _ _ _)).
  - apply (text_lines_two (str "a;1.0")).
    + intros H. repeat (apply elem_of_cons in H as [H|H]; [discriminate H|]).
      by apply elem_of_nil in H.
    + intros H%elem_of_replicate_inv. discriminate H.
    + intros H. apply (f_equal length) in H. rewrite length_replicate in H.
      unfold MaxScanTokenSize in H. cbn [length] in H. lia.
  - repeat constructor.
  - unfold len. rewrite length_replicate. unfold MaxScanTokenSize. lia.
Defined.

(** ** Statistics, errors and the text of a run *)

(** A test for [short_lines] that can be run. *)
Lemma short_lines_check csize (u : bytes) :
  forallb (fun l => len l <? csize) (strings_Split u nl) = true -> short_lines csize u.
Proof.
  intros H. unfold short_lines. apply list.Forall_forall. intros l Hl.
  rewrite forallb_forall in H. apply Z.ltb_lt, H. by apply list_elem_of_In.
Qed.

(** X16. On a valid file below 2^50 bytes whose lines fit the scanner's
    buffer, [parseFile] returns no error and a map that holds for each key
    the minimum, the maximum, the sum and the number of the temperatures of
    the lines with that key, and nothing for any other key. *)
Theorem parseFile_statistics (data : bytes) :
  valid_file data = true ->
  short_lines MaxScanTokenSize data ->
  len data < 2 ^ 50 ->
  exists locations m,
    parseFile data = Some (locations, m, None) /\
    forall key, m !! key = statistics (values_of key (readings data)).
Proof.
  intros Hvalid Hshort Hlen.
  destruct (parseFile_valid data Hvalid Hshort) as [locations H].
  exists locations, (aggregate (omap obs_of (text_lines data))).
  split; [exact H|]. intros key.
  rewrite obs_of_readings by done. by apply readings_statistics.
Qed.

Lemma parseFile_statistics_witness :
  exists locations m,
    parseFile (contents sample_file) = Some (locations, m, None) /\
    forall key, m !! key = statistics (values_of key (readings (contents sample_file))).
Proof.
  apply (parseFile_statistics (contents sample_file)).
  - vm_compute. reflexivity.
  - apply short_lines_check. vm_compute. reflexivity.
  - vm_compute. reflexivity.
Defined.

(** X17. On a valid file below 2^50 bytes on which [Stat] succeeds, for every
    chunk size above the longest line, every schedule and every uncancelled
    context, [parseFileWithConcurrency] returns, once the fuel suffices, no
    error and a map that holds for each key the minimum, the maximum, the
    sum and the number of the temperatures of the lines with that key. *)
Theorem parseFileWithConcurrency_statistics (file : File) (csize : Z)
    (ctx : Context) (sched : Schedule) :
  0 < csize ->
  len (contents file) + csize < 2 ^ 63 ->
  stat_fails file = false ->
  cancelled ctx = false ->
  valid_file (contents file) = true ->
  short_lines csize (contents file) ->
  len (contents file) < 2 ^ 50 ->
  exists fuel locations m,
    (forall fuel', (fuel <= fuel')%nat ->
       parseFileWithConcurrency fuel' csize ctx sched file = Returns (locations, m, None)) /\
    forall key, m !! key = statistics (values_of key (readings (contents file))).
Proof.
  intros HC Hov Hstat Hctx Hvalid Hshort Hlen.
  destruct (parseFileWithConcurrency_valid file csize ctx sched HC Hov Hstat Hctx
              Hvalid Hshort) as (fuel & locations & H).
  exists fuel, locations, (aggregate (omap obs_of (text_lines (contents file)))).
  split; [exact H|]. intros key.
  rewrite obs_of_readings by done. by apply readings_statistics.
Qed.

Lemma parseFileWithConcurrency_statistics_witness :
  exists fuel locations m,
    (forall fuel', (fuel <= fuel')%nat ->
       parseFileWithConcurrency fuel' 16 Background (mkSchedule [1%nat] [[1%nat]] 0)
         sample_file = Returns (locations, m, None)) /\
    forall key, m !! key = statistics (values_of key (readings (contents sample_file))).
Proof.
  apply (parseFileWithConcurrency_statistics sample_file 16 Background
           (mkSchedule [1%nat] [[1%nat]] 0)).
  - lia.
  - vm_compute. reflexivity.
  - reflexivity.
  - reflexivity.
  - vm_compute. reflexivity.
  - apply short_lines_check. vm_compute. reflexivity.
  - vm_compute. reflexivity.
Defined.

(** X18. On a valid file whose lines fit the scanner's buffer and on which
    [Stat] succeeds, whatever the chunk size, the schedule and the fuel: if
    the concurrent run on an uncancelled context returns at all, it returns
    what the sequential run returns. *)
Theorem concurrent_result_is_sequential (file : File) (csize : Z) (ctx : Context)
    (sched : Schedule) (fuel : nat) (result : bytes * option error) :
  stat_fails file = false ->
  valid_file (contents file) = true ->
  short_lines MaxScanTokenSize (contents file) ->
  0 < csize ->
  len (contents file) + csize < 2 ^ 63 ->
  cancelled ctx = false ->
  run fuel csize ctx sched (Some file) true = Returns result ->
  forall fuel' csize' ctx' sched',
    run fuel' csize' ctx' sched' (Some file) false = Returns result.
Proof.
  intros Hstat Hvalid Hscan HC Hov Hctx Hrun fuel' csize' ctx' sched'.
  destruct (parseFile_valid (contents file) Hvalid Hscan) as [locs Hseq].
  pose proof (parseFile_keys_match _ _ _ Hseq) as Hkeys.
  unfold run in *. rewrite Hseq.
  destruct (parseFileWithConcurrency fuel csize ctx sched file)
    as [[[locations m] err]| |] eqn:E; [|done..].
  pose proof (parseFileWithConcurrency_keys_match _ _ _ _ _ _ _ _ E) as Hkeys'.
  destruct (parseFileWithConcurrency_returns file csize ctx sched fuel locations m err
              HC Hov Hstat Hctx Hvalid E) as [-> ->].
  rewrite <- Hrun. f_equal. by apply createResult_keys.
Qed.

Lemma concurrent_result_is_sequential_witness :
  run 0 1 Background (mkSchedule [] [] 0) (Some two_lines) false
  = Returns (str "{a=1.0/1.0/1.0, bb=22.0/22.0/22.0}", None).
Proof.
  apply (concurrent_result_is_sequential two_lines 8 Background (mkSchedule [] [] 0) 4).
  - reflexivity.
  - vm_compute. reflexivity.
  - apply short_lines_check. vm_compute. reflexivity.
  - lia.
  - vm_compute. reflexivity.
  - reflexivity.
  - vm_compute. reflexivity.
Defined.

(** X19. The key list either path returns has no duplicates and holds exactly
    the keys of the map it comes with, also when the concurrent path is
    cancelled. *)
Theorem key_list_matches_map :
  (forall data locations m,
     parseFile data = Some (locations, m, None) -> keys_match (locations, m)) /\
  (forall fuel csize ctx sched file locations m err,
     parseFileWithConcurrency fuel csize ctx sched file = Returns (locations, m, err) ->
     keys_match (locations, m)).
Proof.
  split.
  - exact parseFile_keys_match.
  - intros fuel csize ctx sched file locations m err.
    apply parseFileWithConcurrency_keys_match.
Qed.

(** X20. On a cancelled context the consumer returns the cancellation error
    when [select] takes [ctx.Done()] in one of the turns of the loop, and
    the map it returns with it is the merge of the maps received before
    that turn. *)
Theorem cancelled_consumer (ctx : Context) (sched : Schedule)
    (pending : list (gmap bytes Location)) (st : list bytes * gmap bytes Location) :
  cancelled ctx = true ->
  (select_loop ctx sched 0 pending st).2
  = (if (cancel_turn sched <=? length pending)%nat then Some ErrCancelled else None) /\
  (select_loop ctx sched 0 pending st).1.2
  = fold_left merge_maps (take (cancel_turn sched) pending) st.2.
Proof.
  intros Hc.
  destruct (select_loop_cancelled ctx sched pending 0 st Hc) as [H1 H2]; [lia|].
  rewrite Nat.sub_0_r in H1, H2. done.
Qed.

Lemma cancelled_consumer_witness :
  (select_loop (mkContext true) (mkSchedule [] [] 1) 0
     [ {[ str "a" := mkLocation 1 1 1 1 ]}; {[ str "b" := mkLocation 2 2 2 1 ]} ]
     ([], ∅)).2 = Some ErrCancelled.
Proof.
  exact (proj1 (cancelled_consumer (mkContext true) (mkSchedule [] [] 1)
                  [ {[ str "a" := mkLocation 1 1 1 1 ]};
                    {[ str "b" := mkLocation 2 2 2 1 ]} ] ([], ∅) eq_refl)).
Defined.

(** X21. Whenever [run] returns an error, the string is empty and the error
    is that of the failed open, the scanner's error for a line too long (in
    sequential mode) or the cancellation (in concurrent mode, on a cancelled
    context): the formatter's error for a key missing from the map is never
    returned, and neither is the error of [Stat]. *)
Theorem run_error_cases (fuel : nat) (csize : Z) (ctx : Context) (sched : Schedule)
    (opened : option File) (concurrency : bool) (out : bytes) (e : error) :
  run fuel csize ctx sched opened concurrency = Returns (out, Some e) ->
  out = [] /\
  ((opened = None /\ e = ErrOpen) \/
   (concurrency = false /\ e = ErrTooLong) \/
   (concurrency = true /\ cancelled ctx = true /\ e = ErrCancelled)).
Proof. apply run_error. Qed.

Lemma run_error_cases_witness :
  @nil ascii = [] /\
  ((@None File = None /\ ErrOpen = ErrOpen) \/
   (true = false /\ ErrOpen = ErrTooLong) \/
   (true = true /\ cancelled Background = true /\ ErrOpen = ErrCancelled)).
Proof.
  exact (run_error_cases 0 chunkSize Background (mkSchedule [] [] 0) None true []
           ErrOpen eq_refl).
Defined.

(** X22. [createResult] succeeds when the map holds every listed key;
    otherwise it returns the empty string and an error naming the smallest
    listed key that the map does not hold. *)
Theorem createResult_missing_key (locations : list bytes) (m : gmap bytes Location) :
  (Forall (fun k => is_Some (m !! k)) locations ->
   createResult locations m = (result_text m (sort_Strings locations), None)) /\
  (forall k, k ∈ locations -> m !! k = None ->
   exists k',
     createResult locations m = ([], Some (ErrNotInMap k')) /\
     k' ∈ locations /\ m !! k' = None /\
     forall k'', k'' ∈ locations -> m !! k'' = None -> bytes_le k' k'').
Proof.
  split; [apply createResult_present|apply createResult_missing].
Qed.

Lemma createResult_missing_key_witness :
  exists k',
    createResult [str "b"; str "c"; str "a"] {[ str "c" := mkLocation 1 1 1 1 ]}
    = (([], Some (ErrNotInMap k')) : bytes * option error) /\
    k' ∈ [str "b"; str "c"; str "a"] /\
    ({[ str "c" := mkLocation 1 1 1 1 ]} : gmap bytes Location) !! k' = None /\
    forall k'', k'' ∈ [str "b"; str "c"; str "a"] ->
      ({[ str "c" := mkLocation 1 1 1 1 ]} : gmap bytes Location) !! k'' = None ->
      bytes_le k' k''.
Proof.
  apply (proj2 (createResult_missing_key [str "b"; str "c"; str "a"]
                  {[ str "c" := mkLocation 1 1 1 1 ]}) (str "b")).
  - apply list_elem_of_here.
  - reflexivity.
Defined.

(** X23. What [createResult] returns does not depend on the order of the key
    list. *)
Theorem createResult_any_order (l1 l2 : list bytes) (m : gmap bytes Location) :
  l1 ≡ₚ l2 -> createResult l1 m = createResult l2 m.
Proof. intros HP. unfold createResult. by rewrite (sort_Strings_Permutation l1 l2). Qed.

Lemma createResult_any_order_witness :
  createResult [str "b"; str "a"] {[ str "a" := ham ]}
  = createResult [str "a"; str "b"] {[ str "a" := ham ]}.
Proof.
  apply (createResult_any_order [str "b"; str "a"] [str "a"; str "b"]).
  apply Permutation_swap.
Defined.

(** X24. On a chunk whose valid lines each end with a carriage return before
    the newline the worker records nothing, while the sequential aggregator,
    whose scanner strips the carriage return, aggregates every line. *)
Theorem carriage_returns (lines : list bytes) :
  Forall (fun l => valid_line l = true /\ (nl ∉ l) /\ len l + 1 < MaxScanTokenSize)
         lines ->
  processChunk (crlf_text lines) = Some ∅ /\
  exists locations,
    parseFile (crlf_text lines) = Some (locations, aggregate (omap reading lines), None).
Proof.
  intros H.
  assert (Forall (fun l => valid_line l = true) lines) as Hvalid
    by (eapply list.Forall_impl; [exact H|]; by intros l (? & _)).
  assert (Forall (fun l => nl ∉ l) lines) as Hnl
    by (eapply list.Forall_impl; [exact H|]; by intros l (_ & ? & _)).
  assert (Forall (fun l => len l + 1 < MaxScanTokenSize) lines) as Hlen
    by (eapply list.Forall_impl; [exact H|]; by intros l (_ & _ & ?)).
  split.
  - rewrite processChunk_obs; rewrite strings_Split_crlf by done.
    + f_equal. rewrite omap_app. cbn [omap list_omap]. rewrite obs_of_nil, app_nil_r.
      clear H Hnl Hlen. induction Hvalid as [|l lines Hl _ IH]; [done|].
      cbn [fmap list_fmap omap list_omap]. unfold obs_of at 1.
      rewrite processLine_cr by done. exact IH.
    + apply Forall_app. split; [|repeat constructor; by eexists].
      apply Forall_fmap. eapply list.Forall_impl; [exact Hvalid|].
      intros l Hl. simpl. rewrite processLine_cr by done. by eexists.
  - unfold parseFile, scanner. rewrite text_lines_crlf, scan_tokens_crlf by done.
    destruct (file_loop_obs lines [] ∅) as [locations ->].
    + eapply list.Forall_impl; [exact Hvalid|]. by left.
    + exists locations. by rewrite omap_obs_of_readings.
Qed.

Lemma carriage_returns_witness :
  processChunk (crlf_text [str "a;1.0"; str "b;2.0"]) = Some ∅ /\
  exists locations,
    parseFile (crlf_text [str "a;1.0"; str "b;2.0"])
    = Some (locations, aggregate (omap reading [str "a;1.0"; str "b;2.0"]), None).
Proof.
  apply (carriage_returns [str "a;1.0"; str "b;2.0"]).
  repeat constructor; try (vm_compute; reflexivity);
    intros H; repeat (apply elem_of_cons in H as [H|H]; [discriminate H|]);
    by apply elem_of_nil in H.
Defined.

(** X25. A file of one measurement [key;value], the value written as the
    formatter writes numbers, is printed by the sequential run as
    [{key=value/value/value}]. *)
Theorem single_measurement_round_trip (k v : bytes) :
  semi ∉ k -> nl ∉ k -> canonical v = true ->
  len k + 6 < MaxScanTokenSize ->
  forall fuel csize ctx sched,
    run fuel csize ctx sched (Some (mkFile (k ++ semi :: v ++ [nl]) false)) false
    = Returns (str "{" ++ k ++ str "=" ++ v ++ str "/" ++ v ++ str "/" ++ v ++ str "}",
               None).
Proof.
  intros Hk Hnl Hc Hlen fuel csize ctx sched.
  assert (is_temp v = true) as Hv.
  { unfold canonical in Hc. by repeat (apply andb_true_iff in Hc as [Hc _]). }
  unfold run. cbn [contents]. rewrite parseFile_one_line by done.
  rewrite createResult_one_key, render_single, render_denoted by
    (try done; pose proof (is_temp_bound v Hv); lia).
  by rewrite <- !app_assoc.
Qed.

Lemma single_measurement_round_trip_witness :
  run 0 chunkSize Background (mkSchedule [] [] 0)
      (Some (mkFile (str "Hamburg;-12.3" ++ [nl]) false)) false
  = Returns (str "{Hamburg=-12.3/-12.3/-12.3}", None).
Proof.
  apply (single_measurement_round_trip (str "Hamburg") (str "-12.3")).
  - intros H. repeat (apply elem_of_cons in H as [H|H]; [discriminate H|]).
    by apply elem_of_nil in H.
  - intros H. repeat (apply elem_of_cons in H as [H|H]; [discriminate H|]).
    by apply elem_of_nil in H.
  - reflexivity.
  - vm_compute. reflexivity.
Defined.

(** X26. On a valid file below 2^40 bytes whose lines fit the scanner's
    buffer, the run returns in both modes the text of one entry per key in
    ascending order, each entry written from the minimum, the maximum and
    the rounded mean (the sign of the sum kept) of the temperatures of that
    key. *)
Theorem run_valid_output (file : File) :
  valid_file (contents file) = true ->
  short_lines MaxScanTokenSize (contents file) ->
  len (contents file) < 2 ^ 40 ->
  exists locations m,
    keys_match (locations, m) /\
    (forall key, m !! key = statistics (values_of key (readings (contents file)))) /\
    (forall fuel csize ctx sched,
       run fuel csize ctx sched (Some file) false
       = Returns (expected_text m (sort_Strings locations), None)) /\
    (forall csize ctx sched,
       stat_fails file = false -> 0 < csize ->
       len (contents file) + csize < 2 ^ 63 ->
       short_lines csize (contents file) ->
       cancelled ctx = false ->
       exists fuel, forall fuel', (fuel <= fuel')%nat ->
         run fuel' csize ctx sched (Some file) true
         = Returns (expected_text m (sort_Strings locations), None)).
Proof.
  intros Hvalid Hscan Hlen.
  destruct (parseFile_valid (contents file) Hvalid Hscan) as [locations Hseq].
  pose proof (parseFile_keys_match _ _ _ Hseq) as Hkeys.
  set (m := aggregate (omap obs_of (text_lines (contents file)))) in *.
  assert (forall key, m !! key = statistics (values_of key (readings (contents file))))
    as Hm.
  { intros key. unfold m. rewrite obs_of_readings by done.
    apply readings_statistics. lia. }
  assert (createResult locations m = (expected_text m (sort_Strings locations), None))
    as Hout.
  { rewrite createResult_text by done. f_equal.
    apply result_text_expected. by apply (readings_entries (contents file)). }
  exists locations, m. split; [done|]. split; [done|]. split.
  - intros fuel csize ctx sched. unfold run. by rewrite Hseq, Hout.
  - intros csize ctx sched Hstat HC Hov Hshort Hctx.
    destruct (parseFileWithConcurrency_valid file csize ctx sched)
      as (fuel & locs' & Hconc); try done.
    exists fuel. intros fuel' Hle. unfold run. rewrite (Hconc fuel' Hle).
    pose proof (parseFileWithConcurrency_keys_match _ _ _ _ _ _ _ _ (Hconc fuel' Hle))
      as Hkeys'.
    fold m. rewrite (createResult_keys locs' locations) by done. by rewrite Hout.
Qed.

Lemma run_valid_output_witness :
  exists locations m,
    keys_match (locations, m) /\
    (forall key, m !! key = statistics (values_of key (readings (contents sample_file)))) /\
    (forall fuel csize ctx sched,
       run fuel csize ctx sched (Some sample_file) false
       = Returns (expected_text m (sort_Strings locations), None)) /\
    (forall csize ctx sched,
       stat_fails sample_file = false -> 0 < csize ->
       len (contents sample_file) + csize < 2 ^ 63 ->
       short_lines csize (contents sample_file) ->
       cancelled ctx = false ->
       exists fuel, forall fuel', (fuel <= fuel')%nat ->
         run fuel' csize ctx sched (Some sample_file) true
         = Returns (expected_text m (sort_Strings locations), None)).
Proof.
  apply (run_valid_output sample_file).
  - vm_compute. reflexivity.
  - apply short_lines_check. vm_compute. reflexivity.
  - vm_compute. reflexivity.
Defined.
